(** * Block store and pivot-table page

    A shallow embedding of [src/app/blockStore.ts] (the two-axis block
    store: the getters, [reorderBlock], [updateLabel], [addBlock],
    [removeBlock]) and of [src/app/page.tsx] ([buildMap], [leafCount],
    [flattenLeaves], [reorder], [onDragEnd] and the table [App] returns),
    with the properties of the store's forest of blocks and of the rendered
    table. *)

From stdpp Require Import gmap strings list fin_maps.
From Stdlib Require Import ZArith Lia.

Local Open Scope string_scope.
Local Open Scope list_scope.
Local Open Scope nat_scope.

(** ** Outcomes

    The recursive helpers have no visited set, so on a cyclic graph they
    recurse until the engine's stack is exhausted; the models take fuel and
    answer [OutOfFuel] there.  [TypeError] is a property read on [undefined]
    (a failed [map.get(id)!]). *)

Inductive outcome (A : Type) : Type :=
  | Done (a : A)
  | TypeError
  | OutOfFuel.
Arguments Done {A} a.
Arguments TypeError {A}.
Arguments OutOfFuel {A}.

Definition obind {A B} (x : outcome A) (k : A → outcome B) : outcome B :=
  match x with
  | Done a => k a
  | TypeError => TypeError
  | OutOfFuel => OutOfFuel
  end.

Definition omap {A B} (f : A → B) (x : outcome A) : outcome B :=
  obind x (λ a, Done (f a)).

Notation "x ←o c ; k" := (obind c (λ x, k))
  (at level 100, c at next level, right associativity).

(** ** JavaScript array primitives *)

Module JsArray.
Section ops.
Context {A : Type} `{EqDecision A}.

(** [array.indexOf(x)]: the first index holding [x], or [-1]. *)
Definition indexOf (x : A) (l : list A) : Z :=
  match list_find (λ y, y = x) l with
  | Some (i, _) => Z.of_nat i
  | None => (-1)%Z
  end.

(** The start index of [splice] after clamping: a negative start counts
    from the end, anything past the end is the end. *)
Definition clampStart (len start : Z) : Z :=
  if (start <? 0)%Z then Z.max (len + start) 0 else Z.min start len.

(** [array.splice(start, deleteCount, ...items)]: the removed elements and
    the array after the call. *)
Definition splice (l : list A) (start deleteCount : Z) (items : list A)
    : list A * list A :=
  let len := Z.of_nat (length l) in
  let s := Z.to_nat (clampStart len start) in
  let d := Z.to_nat (Z.min (Z.max deleteCount 0) (len - Z.of_nat s)) in
  (take d (drop s l), take s l ++ items ++ drop (s + d) l).
End ops.
End JsArray.
Import JsArray.

(** ** Types (blockStore.ts) *)

Record Block : Type := mkBlock {
  id : string;
  label : string;
  parentId : option string;
  children : list string;
}.

Global Instance Block_eq_dec : EqDecision Block.
Proof. solve_decision. Defined.

Inductive Axis : Type := row | column.

Record BlockState : Type := mkState {
  rowBlocks : list Block;
  columnBlocks : list Block;
}.

Definition setChildren (b : Block) (cs : list string) : Block :=
  {| id := id b; label := label b; parentId := parentId b; children := cs |}.

Definition setLabel (b : Block) (l : string) : Block :=
  {| id := id b; label := l; parentId := parentId b; children := children b |}.

(** [axis === "row" ? state.rowBlocks : state.columnBlocks] *)
Definition blocksOf (axis : Axis) (s : BlockState) : list Block :=
  match axis with row => rowBlocks s | column => columnBlocks s end.

Definition otherAxis (axis : Axis) : Axis :=
  match axis with row => column | column => row end.

(** The draft's block list of the chosen axis replaced by [blocks]. *)
Definition withBlocks (axis : Axis) (blocks : list Block) (s : BlockState)
    : BlockState :=
  match axis with
  | row => {| rowBlocks := blocks; columnBlocks := columnBlocks s |}
  | column => {| rowBlocks := rowBlocks s; columnBlocks := blocks |}
  end.

(** [blocks.findIndex(b => b.id === bid)] together with [blocks[idx]]. *)
Definition findIndex (bid : string) (blocks : list Block)
    : option (nat * Block) :=
  list_find (λ b, id b = bid) blocks.

(** [blocks.find(b => b.id === bid)] *)
Definition findBlock (bid : string) (blocks : list Block) : option Block :=
  snd <$> findIndex bid blocks.

(** Truthiness of a [string | null] in a condition: [null] and the empty
    string are falsy. *)
Definition truthy (s : option string) : bool :=
  match s with
  | Some s => negb (String.eqb s "")
  | None => false
  end.

(** ** Store actions (blockStore.ts) *)

Definition reorderChildren (cs : list string) (activeId overId : string)
    : option (list string) :=
  let from := indexOf activeId cs in
  let to := indexOf overId cs in
  if ((from =? -1) || (to =? -1))%Z then None
  else
    let cs1 := (splice cs from 1 []).2 in
    Some (splice cs1 to 0 [activeId]).2.

Definition reorderBlocks (parentId activeId overId : string)
    (blocks : list Block) : list Block :=
  match findIndex parentId blocks with
  | None => blocks
  | Some (i, parent) =>
      match reorderChildren (children parent) activeId overId with
      | None => blocks
      | Some cs => <[i := setChildren parent cs]> blocks
      end
  end.

Definition reorderBlock (axis : Axis) (parentId activeId overId : string)
    (s : BlockState) : BlockState :=
  withBlocks axis (reorderBlocks parentId activeId overId (blocksOf axis s)) s.

Definition updateLabels (bid newLabel : string) (blocks : list Block)
    : list Block :=
  match findIndex bid blocks with
  | None => blocks
  | Some (i, block) => <[i := setLabel block newLabel]> blocks
  end.

Definition updateLabel (axis : Axis) (bid newLabel : string) (s : BlockState)
    : BlockState :=
  withBlocks axis (updateLabels bid newLabel (blocksOf axis s)) s.

Definition addBlocks (parentId : string) (block : Block)
    (blocks : list Block) : list Block :=
  match findIndex parentId blocks with
  | None => blocks
  | Some (i, parent) =>
      <[i := setChildren parent (children parent ++ [id block])]> blocks
        ++ [block]
  end.

Definition addBlock (axis : Axis) (parentId : string) (block : Block)
    (s : BlockState) : BlockState :=
  withBlocks axis (addBlocks parentId block (blocksOf axis s)) s.

(** Step 1 of [removeBlock]: [if (block.parentId) { parent?.children.splice(
    parent.children.indexOf(id), 1) }]. *)
Definition detach (bid : string) (block : Block) (blocks : list Block)
    : list Block :=
  match parentId block with
  | Some pid =>
      if truthy (Some pid) then
        match findIndex pid blocks with
        | None => blocks
        | Some (i, parent) =>
            let cs := children parent in
            <[i := setChildren parent (splice cs (indexOf bid cs) 1 []).2]>
              blocks
        end
      else blocks
  | None => blocks
  end.

(** [children.forEach(f)], [f] threading the set of collected identifiers. *)
Fixpoint forEach (f : string → gset string → outcome (gset string))
    (cs : list string) (removeIds : gset string) : outcome (gset string) :=
  match cs with
  | [] => Done removeIds
  | c :: cs' => r ←o f c removeIds; forEach f cs' r
  end.

(** Step 2: the depth-first collection into [removeIds]. *)
Fixpoint dfs (fuel : nat) (blocks : list Block) (bid : string)
    (removeIds : gset string) : outcome (gset string) :=
  match fuel with
  | O => OutOfFuel
  | S fuel' =>
      let removeIds := {[bid]} ∪ removeIds in
      match findBlock bid blocks with
      | None => Done removeIds
      | Some b => forEach (dfs fuel' blocks) (children b) removeIds
      end
  end.

(** The closing loop: [for (i = n - 1; i >= 0; i--) if (removeIds.has(
    blocks[i].id)) blocks.splice(i, 1)]; [n] counts the indices still to
    visit. *)
Fixpoint sweep (n : nat) (removeIds : gset string) (blocks : list Block)
    : list Block :=
  match n with
  | O => blocks
  | S i =>
      sweep i removeIds
        (match blocks !! i with
         | Some b =>
             if decide (id b ∈ removeIds)
             then (splice blocks (Z.of_nat i) 1 []).2
             else blocks
         | None => blocks
         end)
  end.

Definition removeBlocks (fuel : nat) (bid : string) (blocks : list Block)
    : outcome (list Block) :=
  match findIndex bid blocks with
  | None => Done blocks
  | Some (idx, block) =>
      let blocks1 := detach bid block blocks in
      removeIds ←o dfs fuel blocks1 bid ∅;
      Done (sweep (length blocks1) removeIds blocks1)
  end.

Definition removeBlock (fuel : nat) (axis : Axis) (bid : string)
    (s : BlockState) : outcome BlockState :=
  omap (λ blocks, withBlocks axis blocks s)
       (removeBlocks fuel bid (blocksOf axis s)).

(** The store's initial state. *)
Definition initialState : BlockState :=
  {| rowBlocks :=
       [ mkBlock "ROW_ROOT" "RowRoot" None ["ROW_A"; "ROW_B"];
         mkBlock "ROW_A" "Row-A" (Some "ROW_ROOT") ["ROW_A1"; "ROW_A2"];
         mkBlock "ROW_B" "Row-B" (Some "ROW_ROOT") ["ROW_B1"];
         mkBlock "ROW_A1" "row-a1" (Some "ROW_A") [];
         mkBlock "ROW_A2" "row-a2" (Some "ROW_A") [];
         mkBlock "ROW_B1" "row-b1" (Some "ROW_B") [] ];
     columnBlocks :=
       [ mkBlock "COL_ROOT" "ColRoot" None ["COL_X"; "COL_Y"];
         mkBlock "COL_X" "Col-X" (Some "COL_ROOT") ["X1"; "X2"];
         mkBlock "COL_Y" "Col-Y" (Some "COL_ROOT") ["Y1"];
         mkBlock "X1" "x1" (Some "COL_X") [];
         mkBlock "X2" "x2" (Some "COL_X") [];
         mkBlock "Y1" "y1" (Some "COL_Y") [] ] |}.

(** ** Helpers (page.tsx) *)

(** [new Map(blocks.map(b => [b.id, b]))]: entries are set in list order, so
    a later block replaces an earlier one with the same identifier. *)
Definition buildMap (blocks : list Block) : gmap string Block :=
  foldl (λ m b, <[id b := b]> m) ∅ blocks.

(** [array.reduce((s, c) => f(s, c), init)] with a callback that may fail. *)
Fixpoint reduce {A B} (f : B → A → outcome B) (l : list A) (init : B)
    : outcome B :=
  match l with
  | [] => Done init
  | c :: l' => s ←o f init c; reduce f l' s
  end.

(** [array.flatMap(f)] with a callback that may fail. *)
Fixpoint flatMap {A B} (f : A → outcome (list B)) (l : list A)
    : outcome (list B) :=
  match l with
  | [] => Done []
  | c :: l' => x ←o f c; r ←o flatMap f l'; Done (x ++ r)
  end.

Fixpoint leafCount (fuel : nat) (bid : string) (map : gmap string Block)
    : outcome nat :=
  match fuel with
  | O => OutOfFuel
  | S fuel' =>
      match map !! bid with
      | None => TypeError
      | Some b =>
          if decide (length (children b) = 0) then Done 1
          else reduce (λ s c, n ←o leafCount fuel' c map; Done (s + n))
                      (children b) 0
      end
  end.

Fixpoint flattenLeaves (fuel : nat) (bid : string) (map : gmap string Block)
    : outcome (list string) :=
  match fuel with
  | O => OutOfFuel
  | S fuel' =>
      match map !! bid with
      | None => TypeError
      | Some b =>
          if decide (length (children b) = 0) then Done [bid]
          else flatMap (λ c, flattenLeaves fuel' c map) (children b)
      end
  end.

(** [arrayMove] comes from the drag-and-drop library, not from this
    repository.  The library builds it from two splices on a copy:
    [newArray.splice(to < 0 ? newArray.length + to : to, 0,
    newArray.splice(from, 1)[0])], the target index being computed before the
    removal.  On an empty array the library inserts [undefined]; a list of
    strings has no such value and the model inserts nothing there. *)
Definition arrayMove_splice {A} (array : list A) (from to : Z) : list A :=
  let target := if (to <? 0)%Z then (Z.of_nat (length array) + to)%Z else to in
  let removed := JsArray.splice array from 1 [] in
  (JsArray.splice removed.2 target 0 (take 1 removed.1)).2.

Section page_reorder.
(** The page's [reorder], over whichever [arrayMove] the library gives. *)
Variable arrayMove : list string → Z → Z → list string.

Definition reorder (blocks : list Block) (aId bId : string)
    : outcome (list Block) :=
  let map := buildMap blocks in
  match map !! aId, map !! bId with
  | Some a, Some b =>
      if decide (parentId a = parentId b) then
        (* [map.get(a.parentId!)!]: a missing parent is [undefined] and
           reading [parent.children] throws *)
        match parentId a ≫= (λ pid, map !! pid) with
        | None => TypeError
        | Some parent =>
            let next :=
              arrayMove (children parent)
                        (indexOf (id a) (children parent))
                        (indexOf (id b) (children parent)) in
            Done ((λ bl, if decide (id bl = id parent)
                         then setChildren bl next else bl) <$> blocks)
        end
      else Done blocks
  | _, _ => Done blocks
  end.
End page_reorder.

(** ** The store's actions as data *)

Inductive Action : Type :=
  | ReorderBlock (axis : Axis) (parentId activeId overId : string)
  | UpdateLabel (axis : Axis) (bid newLabel : string)
  | AddBlock (axis : Axis) (parentId : string) (block : Block)
  | RemoveBlock (axis : Axis) (bid : string).

Definition run (fuel : nat) (a : Action) (s : BlockState)
    : outcome BlockState :=
  match a with
  | ReorderBlock axis p x y => Done (reorderBlock axis p x y s)
  | UpdateLabel axis b l => Done (updateLabel axis b l s)
  | AddBlock axis p b => Done (addBlock axis p b s)
  | RemoveBlock axis b => removeBlock fuel axis b s
  end.

(** ** The forest invariant *)

(** [edge blocks x y]: [y] is a child identifier of the block [blocks.find]
    returns for [x]. *)
Definition edge (blocks : list Block) (x y : string) : Prop :=
  ∃ b, findBlock x blocks = Some b ∧ y ∈ children b.

(** [reach blocks x y]: [y] is in the subtree of [x] ([x] itself or one of
    its descendants). *)
Definition reach (blocks : list Block) : string → string → Prop :=
  rtc (edge blocks).

Record forest (blocks : list Block) : Prop := mkForest {
  (* identifiers are unique *)
  forest_ids : NoDup (id <$> blocks);
  (* exactly one root *)
  forest_root :
    ∃ r, r ∈ blocks ∧ parentId r = None ∧
         ∀ b, b ∈ blocks → parentId b = None → id b = id r;
  (* a child sequence lists an identifier once *)
  forest_children : ∀ b, b ∈ blocks → NoDup (children b);
  (* a child identifier is a node of the list whose parent is the lister *)
  forest_down :
    ∀ b c, b ∈ blocks → c ∈ children b →
      ∃ cb, cb ∈ blocks ∧ id cb = c ∧ parentId cb = Some (id b);
  (* a non-root node is listed by its parent, a node of the list *)
  forest_up :
    ∀ b p, b ∈ blocks → parentId b = Some p →
      ∃ pb, pb ∈ blocks ∧ id pb = p ∧ id b ∈ children pb;
  (* no cycles: children sit strictly lower than their parent *)
  forest_acyclic :
    ∃ h : string → nat,
      ∀ b c, b ∈ blocks → c ∈ children b → h c < h (id b);
}.

Definition forestState (s : BlockState) : Prop :=
  forest (rowBlocks s) ∧ forest (columnBlocks s).

(** The same conditions on a block map, as [leafCount] and [flattenLeaves]
    see it. *)
Definition mapClosed (map : gmap string Block) : Prop :=
  ∀ k b c, map !! k = Some b → c ∈ children b → is_Some (map !! c).

Definition mapEdge (map : gmap string Block) (x y : string) : Prop :=
  ∃ b, map !! x = Some b ∧ y ∈ children b.

Definition mapAcyclicBelow (map : gmap string Block) (top : string) : Prop :=
  ∃ h : string → nat,
    ∀ x y, rtc (mapEdge map) top x → mapEdge map x y → h y < h x.

Definition mapAcyclic (map : gmap string Block) : Prop :=
  ∃ h : string → nat, ∀ x y, mapEdge map x y → h y < h x.

(** No cycles in a block list, as [dfs] walks it. *)
Definition acyclic (blocks : list Block) : Prop :=
  ∃ h : string → nat, ∀ x y, edge blocks x y → h y < h x.

(** Removing at an index then inserting at an index, on a list. *)
Definition moveItem {A} (i j : nat) (l : list A) : list A :=
  match l !! i with
  | Some x => take j (delete i l) ++ x :: drop j (delete i l)
  | None => l
  end.

(** ** Predicates and sample states used by the statements *)

(** [related keep x' x]: [x'] is [x] with, for children, the children of [x]
    that satisfy [keep], in some order and without repetition. *)
Definition related (keep : string → Prop) (x' x : Block) : Prop :=
  id x' = id x ∧ parentId x' = parentId x ∧ NoDup (children x') ∧
  ∀ c, c ∈ children x' ↔ c ∈ children x ∧ keep c.

(** A block that can be added under [pid]: a new identifier, no children,
    and [pid] as its parent. *)
Definition fresh (pid : string) (block : Block) (blocks : list Block) : Prop :=
  (id block ∉ id <$> blocks) ∧ children block = [] ∧
  parentId block = Some pid.

(** The identifier an action looks up is missing: the parent (reorder, add),
    one of the two children (reorder) or the node itself (rename, delete). *)
Definition targetsAbsent (a : Action) (s : BlockState) : Prop :=
  match a with
  | ReorderBlock axis pid activeId overId =>
      match findBlock pid (blocksOf axis s) with
      | None => True
      | Some p => activeId ∉ children p ∨ overId ∉ children p
      end
  | UpdateLabel axis bid _ => findBlock bid (blocksOf axis s) = None
  | AddBlock axis pid _ => findBlock pid (blocksOf axis s) = None
  | RemoveBlock axis bid => findBlock bid (blocksOf axis s) = None
  end.

(** The arguments under which an action is shown to keep the forest: any for
    reorder and rename; for insert a missing parent or a fresh block; for
    delete a missing identifier or a node with a non-empty parent
    identifier. *)
Definition admissible (a : Action) (s : BlockState) : Prop :=
  match a with
  | ReorderBlock _ _ _ _ => True
  | UpdateLabel _ _ _ => True
  | AddBlock axis pid block =>
      findBlock pid (blocksOf axis s) = None
      ∨ fresh pid block (blocksOf axis s)
  | RemoveBlock axis bid =>
      match findBlock bid (blocksOf axis s) with
      | None => True
      | Some b => ∃ pid, parentId b = Some pid ∧ pid ≠ ""
      end
  end.

(** [forestCheck h blocks] decides the forest conditions for a given height
    function [h]. *)
Definition forestCheck (h : string → nat) (blocks : list Block) : bool :=
  bool_decide (NoDup (id <$> blocks))
  && match filter (λ b, parentId b = None) blocks with
     | [_] => true
     | _ => false
     end
  && forallb (λ b,
       bool_decide (NoDup (children b))
       && forallb (λ c,
            match findBlock c blocks with
            | Some cb =>
                bool_decide (parentId cb = Some (id b)) && (h c <? h (id b))
            | None => false
            end) (children b)
       && match parentId b with
          | None => true
          | Some p =>
              match findBlock p blocks with
              | Some pb => bool_decide (id b ∈ children pb)
              | None => false
              end
          end) blocks.

(** The height function used for the initial trees. *)
Definition initialHeight (x : string) : nat :=
  if decide (x ∈ ["ROW_ROOT"; "COL_ROOT"]) then 2
  else if decide (x ∈ ["ROW_A"; "ROW_B"; "COL_X"; "COL_Y"]) then 1
  else 0.

(** Two inserts through the store's own action, from the initial state: a
    block named by the empty string under the row root, then a block ["N"]
    under it. *)
Definition blankBlock : Block := mkBlock "" "blank" (Some "ROW_ROOT") [].
Definition underBlank : Block := mkBlock "N" "n" (Some "") [].

Definition blankState : BlockState :=
  addBlock row "ROW_ROOT" blankBlock initialState.

Definition underBlankState : BlockState :=
  addBlock row "" underBlank blankState.

Definition blankHeight (x : string) : nat :=
  if decide (x = "ROW_ROOT") then 3
  else if decide (x = "") then 1
  else initialHeight x.

(** ** Getters (blockStore.ts) *)

(** [new Map(get().rowBlocks.map(b => [b.id, b]))] *)
Definition getRowMap (s : BlockState) : gmap string Block :=
  buildMap (rowBlocks s).

Definition getColumnMap (s : BlockState) : gmap string Block :=
  buildMap (columnBlocks s).

(** ** The page component (page.tsx) *)

(** [array.map(f)] with a callback that may fail and that also receives the
    index; [i] is the index of the head. *)
Fixpoint mapIndexed {A B} (f : nat → A → outcome B) (i : nat) (l : list A)
    : outcome (list B) :=
  match l with
  | [] => Done []
  | x :: l' => y ←o f i x; r ←o mapIndexed f (S i) l'; Done (y :: r)
  end.

(** [map.get(k)!] followed by a property read. *)
Definition getBang {V} (map : gmap string V) (k : string) : outcome V :=
  match map !! k with
  | Some v => Done v
  | None => TypeError
  end.

Module Page.

(** The two [useState] cells of [App]. *)
Record State : Type := mkState {
  rowBlocks : list Block;
  colBlocks : list Block;
}.

(** What [onDragEnd] reads of the event: [active.id] and the identifier of
    [over], which may be [null].  Every sortable header of the page is
    registered under a string identifier. *)
Record DragEndEvent : Type := mkEvent {
  active : string;
  over : option string;
}.

Record DataItem : Type := mkData {
  rowLeafId : string;
  colLeafId : string;
  value : string;
}.

Definition initialRowBlocks : list Block :=
  [ mkBlock "ROW_ROOT" "RowRoot" None ["ROW_A"; "ROW_B"];
    mkBlock "ROW_A" "Row-A" (Some "ROW_ROOT") ["ROW_A1"; "ROW_A2"];
    mkBlock "ROW_B" "Row-B" (Some "ROW_ROOT") ["ROW_B1"; "ROW_B2"];
    mkBlock "ROW_A1" "row-a1" (Some "ROW_A") [];
    mkBlock "ROW_A2" "row-a2" (Some "ROW_A") [];
    mkBlock "ROW_B1" "row-b1" (Some "ROW_B") [];
    mkBlock "ROW_B2" "row-b2" (Some "ROW_B") [] ].

Definition initialColBlocks : list Block :=
  [ mkBlock "COL_ROOT" "ColRoot" None ["COL_X"; "COL_Y"];
    mkBlock "COL_X" "Col-X" (Some "COL_ROOT") ["X1"; "X2"];
    mkBlock "COL_Y" "Col-Y" (Some "COL_ROOT") ["Y1"; "Y2"];
    mkBlock "X1" "x1" (Some "COL_X") [];
    mkBlock "X2" "x2" (Some "COL_X") [];
    mkBlock "Y1" "y1" (Some "COL_Y") [];
    mkBlock "Y2" "y2" (Some "COL_Y") [] ].

Definition initial : State :=
  {| rowBlocks := initialRowBlocks; colBlocks := initialColBlocks |}.

(** The template [`${r}:${c}`]. *)
Definition cellKey (r c : string) : string := (r ++ ":" ++ c)%string.

(** The mock data: one item per pair of a row leaf and a column leaf. *)
Definition data : list DataItem :=
  r ← ["ROW_A1"; "ROW_A2"; "ROW_B1"; "ROW_B2"];
  (λ c, mkData r c (cellKey r c)) <$> ["X1"; "X2"; "Y1"; "Y2"].

(** [new Map(data.map(d => [`${d.rowLeafId}:${d.colLeafId}`, d.value]))] *)
Definition dataMap : gmap string string :=
  foldl (λ m d, <[cellKey (rowLeafId d) (colLeafId d) := value d]> m) ∅ data.

Section handlers.
Variable arrayMove : list string → Z → Z → list string.

(** [onDragEnd]; each [setState(prev => reorder(prev, id, target))] runs its
    updater on the cell's current value, and a throwing updater is the
    outcome of the whole step. *)
Definition onDragEnd (e : DragEndEvent) (st : State) : outcome State :=
  match over e with
  | None => Done st
  | Some target =>
      if decide (active e = target) then Done st
      else
        let aid := active e in
        st1 ←o (if String.prefix "ROW" aid then
                  rows ←o reorder arrayMove (rowBlocks st) aid target;
                  Done {| rowBlocks := rows; colBlocks := colBlocks st |}
                else Done st);
        if String.prefix "COL" aid || String.prefix "X" aid
           || String.prefix "Y" aid then
          cols ←o reorder arrayMove (colBlocks st1) aid target;
          Done {| rowBlocks := rowBlocks st1; colBlocks := cols |}
        else Done st1
  end.

(** A sequence of drags, oldest first. *)
Fixpoint drags (es : list DragEndEvent) (st : State) : outcome State :=
  match es with
  | [] => Done st
  | e :: es' => st' ←o onDragEnd e st; drags es' st'
  end.
End handlers.

(** What the returned markup holds. *)

(** A [SortableTH] with a span: its [id], its [rowSpan] or [colSpan] and its
    text. *)
Record GroupCell : Type := mkGroupCell {
  groupId : string;
  span : nat;
  groupText : string;
}.

(** A [SortableTH] without span: its [id] and its text. *)
Record LeafCell : Type := mkLeafCell {
  leafId : string;
  leafText : string;
}.

(** One [<tr>] of the body: the [RowRoot] header with its [rowSpan] (first
    row of the first group only), the group header (first row of a group
    only), the leaf header and one [<td>] per column leaf. *)
Record BodyRow : Type := mkBodyRow {
  rootSpan : option nat;
  groupCell : option GroupCell;
  leafCell : LeafCell;
  cells : list (option string);
}.

Record Table : Type := mkTable {
  groupRow : list GroupCell;
  leafRow : list LeafCell;
  bodyRows : list BodyRow;
}.

Definition groupHeader (fuel : nat) (map : gmap string Block) (cid : string)
    : outcome GroupCell :=
  g ←o getBang map cid;
  n ←o leafCount fuel (id g) map;
  Done (mkGroupCell (id g) n (label g)).

Definition leafHeader (map : gmap string Block) (cid : string)
    : outcome LeafCell :=
  b ←o getBang map cid; Done (mkLeafCell cid (label b)).

Definition bodyRow (fuel : nat) (rowMap : gmap string Block)
    (colLeaves : list string) (gi : nat) (group : Block) (li : nat)
    (leaf : string) : outcome BodyRow :=
  root ←o (if decide (gi = 0 ∧ li = 0)
           then n ←o leafCount fuel "ROW_ROOT" rowMap; Done (Some n)
           else Done None);
  grp ←o (if decide (li = 0)
          then n ←o leafCount fuel (id group) rowMap;
               Done (Some (mkGroupCell (id group) n (label group)))
          else Done None);
  lf ←o leafHeader rowMap leaf;
  Done (mkBodyRow root grp lf
          ((λ cid, dataMap !! cellKey leaf cid) <$> colLeaves)).

(** The body of [App] from the maps to the returned table. *)
Definition render (fuel : nat) (st : State) : outcome Table :=
  let rowMap := buildMap (rowBlocks st) in
  let colMap := buildMap (colBlocks st) in
  rowRoot ←o getBang rowMap "ROW_ROOT";
  colRoot ←o getBang colMap "COL_ROOT";
  let rowGroups := children rowRoot in
  let colGroups := children colRoot in
  colLeaves ←o flattenLeaves fuel "COL_ROOT" colMap;
  groups ←o mapIndexed (λ _ cid, groupHeader fuel colMap cid) 0 colGroups;
  leaves ←o mapIndexed (λ _ cid, leafHeader colMap cid) 0 colLeaves;
  body ←o mapIndexed (λ gi gid,
            group ←o getBang rowMap gid;
            mapIndexed (bodyRow fuel rowMap colLeaves gi group) 0
                       (children group)) 0 rowGroups;
  Done (mkTable groups leaves (concat body)).

End Page.

(** Two block lists with, index by index, the same identifier, label and
    parent and the same children up to order. *)
Definition sameBlocks (blocks' blocks : list Block) : Prop :=
  Forall2 (λ x' x, id x' = id x ∧ label x' = label x ∧
                   parentId x' = parentId x ∧ children x' ≡ₚ children x)
          blocks' blocks.

(** Three drags: a row group onto its sibling, a column leaf onto its
    sibling, and a drag that ends nowhere. *)
Definition sampleDrags : list Page.DragEndEvent :=
  [ Page.mkEvent "ROW_B" (Some "ROW_A");
    Page.mkEvent "X1" (Some "X2");
    Page.mkEvent "Y1" None ].

(** A tree of depth two below [root], as the page's body walks it: [root]
    has children (the groups), every group is in the map and has children,
    and every child of a group is a childless node of the map. *)
Definition twoLevel (map : gmap string Block) (root : Block) : Prop :=
  children root ≠ [] ∧
  ∀ gid, gid ∈ children root →
    ∃ group, map !! gid = Some group ∧ children group ≠ [] ∧
      ∀ leaf, leaf ∈ children group →
        ∃ lb, map !! leaf = Some lb ∧ children lb = [].

(** ** Array primitives: basic facts *)

Section js_array_facts.
Context {A : Type} `{EqDecision A}.
Implicit Types (l : list A) (x : A).

Lemma indexOf_elem x l :
  x ∈ l →
  ∃ i, indexOf x l = Z.of_nat i ∧ l !! i = Some x ∧
       ∀ j, j < i → l !! j ≠ Some x.
Proof.
  intros Hx. unfold indexOf.
  destruct (list_find_elem_of (λ y, y = x) l x Hx eq_refl) as [[i y] Hf].
  rewrite Hf. apply list_find_Some in Hf as (Hi & -> & Hmin).
  exists i. split_and!; [done..|].
  intros j Hj Hlj. by apply (Hmin j x).
Qed.

Lemma indexOf_not_elem x l : x ∉ l → indexOf x l = (-1)%Z.
Proof.
  intros Hx. unfold indexOf.
  destruct (list_find _ l) as [[i y]|] eqn:Hf; [|done].
  apply list_find_Some in Hf as (Hi & -> & _).
  destruct Hx. by eapply list_elem_of_lookup_2.
Qed.

Lemma indexOf_minus_one x l : indexOf x l = (-1)%Z ↔ x ∉ l.
Proof.
  split; [|apply indexOf_not_elem].
  intros Hi Hx. destruct (indexOf_elem x l Hx) as (i & Hi' & _). lia.
Qed.

Lemma indexOf_unique x l i :
  NoDup l → l !! i = Some x → indexOf x l = Z.of_nat i.
Proof.
  intros Hnd Hi.
  destruct (indexOf_elem x l) as (j & -> & Hj & _).
  { by eapply list_elem_of_lookup_2. }
  f_equal. by eapply NoDup_lookup.
Qed.

(** [splice(i, 1)] deletes index [i]; past the end it deletes nothing. *)
Lemma splice_delete l (i : nat) :
  (splice l (Z.of_nat i) 1 []).2 = delete i l.
Proof.
  unfold splice, clampStart. cbn [snd].
  destruct (Z.ltb_spec (Z.of_nat i) 0) as [?|_]; [lia|].
  destruct (decide (i < length l)) as [Hlt|Hge].
  - replace (Z.to_nat (Z.min (Z.of_nat i) (Z.of_nat (length l)))) with i by lia.
    replace (Z.to_nat (Z.min (Z.max 1 0) (Z.of_nat (length l) - Z.of_nat i)))
      with 1 by lia.
    rewrite app_nil_l, delete_take_drop. by replace (i + 1) with (S i) by lia.
  - replace (Z.to_nat (Z.min (Z.of_nat i) (Z.of_nat (length l))))
      with (length l) by lia.
    replace (Z.to_nat (Z.min (Z.max 1 0)
               (Z.of_nat (length l) - Z.of_nat (length l)))) with 0 by lia.
    rewrite app_nil_l, Nat.add_0_r, take_drop.
    rewrite delete_take_drop, take_ge, drop_ge by lia. by rewrite app_nil_r.
Qed.

(** [splice(-1, 1)] deletes the last element. *)
Lemma splice_minus_one l :
  (splice l (-1) 1 []).2 = take (length l - 1) l.
Proof.
  unfold splice, clampStart. cbn [snd].
  destruct (Z.ltb_spec (-1) 0) as [_|?]; [|lia].
  destruct l as [|x l]; [done|]. cbn [length].
  replace (Z.to_nat (Z.max (Z.of_nat (S (length l)) + -1) 0))
    with (length l) by lia.
  replace (Z.to_nat (Z.min (Z.max 1 0)
             (Z.of_nat (S (length l)) - Z.of_nat (length l)))) with 1 by lia.
  rewrite app_nil_l. replace (S (length l) - 1) with (length l) by lia.
  rewrite drop_ge by (cbn [length]; lia). by rewrite app_nil_r.
Qed.

(** [splice(i, 0, x)] inserts [x] before index [i]. *)
Lemma splice_insert l (i : nat) x :
  i ≤ length l →
  (splice l (Z.of_nat i) 0 [x]).2 = take i l ++ x :: drop i l.
Proof.
  intros Hi. unfold splice, clampStart. cbn [snd].
  destruct (Z.ltb_spec (Z.of_nat i) 0) as [?|_]; [lia|].
  replace (Z.to_nat (Z.min (Z.of_nat i) (Z.of_nat (length l)))) with i by lia.
  replace (Z.to_nat (Z.min (Z.max 0 0) (Z.of_nat (length l) - Z.of_nat i)))
    with 0 by lia.
  by rewrite Nat.add_0_r.
Qed.

Lemma moveItem_Permutation (i j : nat) l :
  moveItem i j l ≡ₚ l.
Proof.
  unfold moveItem. destruct (l !! i) as [x|] eqn:Hi; [|done].
  rewrite <-Permutation_middle, take_drop.
  symmetry. by apply delete_Permutation.
Qed.

Lemma moveItem_lookup (i j : nat) l x :
  l !! i = Some x → j < length l → moveItem i j l !! j = Some x.
Proof.
  intros Hi Hj. unfold moveItem. rewrite Hi.
  assert (length (delete i l) = length l - 1) as Hlen.
  { rewrite length_delete; [done|]. by eexists. }
  rewrite lookup_app_r; rewrite length_take; [|lia].
  by replace (j - j `min` length (delete i l)) with 0 by lia.
Qed.

Lemma moveItem_same (i : nat) l : moveItem i i l = l.
Proof.
  unfold moveItem. destruct (l !! i) as [x|] eqn:Hi; [|done].
  rewrite delete_take_drop.
  pose proof (lookup_lt_Some _ _ _ Hi) as Hlt.
  rewrite take_app_le, drop_app_ge by (rewrite length_take; lia).
  rewrite take_take, length_take.
  replace (i `min` i) with i by lia.
  replace (i - i `min` length l) with 0 by lia.
  rewrite drop_0. rewrite <-(take_drop_middle l i x) at 3 by done. done.
Qed.
End js_array_facts.

(** The library's [arrayMove] moves the item when both indices are in
    range. *)
Lemma arrayMove_splice_moveItem {A} (l : list A) (i j : nat) :
  i < length l → j < length l →
  arrayMove_splice l (Z.of_nat i) (Z.of_nat j) = moveItem i j l.
Proof.
  intros Hi Hj. unfold arrayMove_splice, moveItem.
  destruct (Z.ltb_spec (Z.of_nat j) 0) as [?|_]; [lia|].
  destruct (lookup_lt_is_Some_2 l i Hi) as [x Hx]. rewrite Hx.
  assert ((JsArray.splice l (Z.of_nat i) 1 []).1 = [x]) as Hrem.
  { unfold JsArray.splice, JsArray.clampStart. cbn [fst].
    destruct (Z.ltb_spec (Z.of_nat i) 0) as [?|_]; [lia|].
    replace (Z.to_nat (Z.min (Z.of_nat i) (Z.of_nat (length l)))) with i by lia.
    replace (Z.to_nat (Z.min (Z.max 1 0) (Z.of_nat (length l) - Z.of_nat i)))
      with 1 by lia.
    by rewrite (drop_S l x i Hx). }
  assert ((JsArray.splice l (Z.of_nat i) 1 []).2 = delete i l) as Hdel.
  { unfold JsArray.splice, JsArray.clampStart. cbn [snd].
    destruct (Z.ltb_spec (Z.of_nat i) 0) as [?|_]; [lia|].
    replace (Z.to_nat (Z.min (Z.of_nat i) (Z.of_nat (length l)))) with i by lia.
    replace (Z.to_nat (Z.min (Z.max 1 0) (Z.of_nat (length l) - Z.of_nat i)))
      with 1 by lia.
    rewrite app_nil_l, delete_take_drop. by replace (i + 1) with (S i) by lia. }
  rewrite Hrem, Hdel. cbn [take].
  assert (length (delete i l) = length l - 1) as Hlen.
  { rewrite length_delete; [done|]. by eexists. }
  unfold JsArray.splice, JsArray.clampStart. cbn [snd].
  destruct (Z.ltb_spec (Z.of_nat j) 0) as [?|_]; [lia|].
  rewrite Hlen.
  replace (Z.to_nat (Z.min (Z.of_nat j) (Z.of_nat (length l - 1)))) with j by lia.
  replace (Z.to_nat (Z.min (Z.max 0 0) (Z.of_nat (length l - 1) - Z.of_nat j)))
    with 0 by lia.
  by rewrite Nat.add_0_r.
Qed.

(** ** Finding blocks *)

Lemma withBlocks_same axis s : withBlocks axis (blocksOf axis s) s = s.
Proof. by destruct s, axis. Qed.

Lemma blocksOf_withBlocks axis blocks s :
  blocksOf axis (withBlocks axis blocks s) = blocks.
Proof. by destruct axis. Qed.

Lemma blocksOf_withBlocks_other axis blocks s :
  blocksOf (otherAxis axis) (withBlocks axis blocks s)
  = blocksOf (otherAxis axis) s.
Proof. by destruct axis. Qed.

Lemma findIndex_Some bid blocks i b :
  findIndex bid blocks = Some (i, b) →
  blocks !! i = Some b ∧ id b = bid ∧ b ∈ blocks.
Proof.
  intros (Hi & Hid & _)%list_find_Some. split_and!; [done..|].
  by eapply list_elem_of_lookup_2.
Qed.

Lemma findIndex_None bid blocks :
  findIndex bid blocks = None ↔ ∀ b, b ∈ blocks → id b ≠ bid.
Proof.
  unfold findIndex. rewrite list_find_None, Forall_forall. done.
Qed.

Lemma findBlock_Some bid blocks b :
  findBlock bid blocks = Some b → id b = bid ∧ b ∈ blocks.
Proof.
  unfold findBlock. destruct (findIndex bid blocks) as [[i b']|] eqn:Hf; [|done].
  cbn. intros Heq. assert (b' = b) as -> by congruence.
  apply findIndex_Some in Hf. tauto.
Qed.

Lemma findBlock_None bid blocks :
  findBlock bid blocks = None ↔ ∀ b, b ∈ blocks → id b ≠ bid.
Proof.
  rewrite <-findIndex_None. unfold findBlock.
  by destruct (findIndex bid blocks) as [[??]|].
Qed.

Lemma findBlock_findIndex bid blocks b :
  findBlock bid blocks = Some b ↔ ∃ i, findIndex bid blocks = Some (i, b).
Proof.
  unfold findBlock. destruct (findIndex bid blocks) as [[i b']|]; cbn.
  - split; [intros Heq; exists i; congruence|intros [j Heq]; congruence].
  - split; [done|by intros [??]].
Qed.

(** With unique identifiers, [find] returns the one block of that name. *)
Lemma NoDup_ids_lookup blocks i j b b' :
  NoDup (id <$> blocks) →
  blocks !! i = Some b → blocks !! j = Some b' → id b = id b' → i = j.
Proof.
  intros Hnd Hi Hj Hid.
  eapply NoDup_lookup; [exact Hnd| |].
  - by rewrite list_lookup_fmap, Hi.
  - by rewrite list_lookup_fmap, Hj, Hid.
Qed.

Lemma NoDup_ids_eq blocks b b' :
  NoDup (id <$> blocks) → b ∈ blocks → b' ∈ blocks → id b = id b' → b = b'.
Proof.
  intros Hnd [i Hi]%list_elem_of_lookup [j Hj]%list_elem_of_lookup Hid.
  assert (i = j) as -> by eauto using NoDup_ids_lookup. congruence.
Qed.

Lemma findIndex_unique blocks i b :
  NoDup (id <$> blocks) → blocks !! i = Some b →
  findIndex (id b) blocks = Some (i, b).
Proof.
  intros Hnd Hi. apply list_find_Some. split_and!; [done..|].
  intros j y Hj Hlt Hid.
  assert (j = i) by eauto using NoDup_ids_lookup. lia.
Qed.

Lemma findBlock_unique blocks b :
  NoDup (id <$> blocks) → b ∈ blocks → findBlock (id b) blocks = Some b.
Proof.
  intros Hnd [i Hi]%list_elem_of_lookup.
  apply findBlock_findIndex. exists i. by apply findIndex_unique.
Qed.

(** ** reorderBlock *)

Lemma reorderChildren_elem cs a o :
  a ∈ cs → o ∈ cs →
  ∃ from to : nat,
    indexOf a cs = Z.of_nat from ∧ indexOf o cs = Z.of_nat to ∧
    cs !! from = Some a ∧ cs !! to = Some o ∧
    reorderChildren cs a o = Some (moveItem from to cs).
Proof.
  intros Ha Ho.
  destruct (indexOf_elem a cs Ha) as (from & Hfrom & Hla & _).
  destruct (indexOf_elem o cs Ho) as (to & Hto & Hlo & _).
  exists from, to. split_and!; [done..|].
  unfold reorderChildren. rewrite Hfrom, Hto.
  destruct (Z.eqb_spec (Z.of_nat from) (-1)) as [?|_]; [lia|].
  destruct (Z.eqb_spec (Z.of_nat to) (-1)) as [?|_]; [lia|].
  cbn [orb]. rewrite splice_delete.
  pose proof (lookup_lt_Some _ _ _ Hla) as Hlt1.
  pose proof (lookup_lt_Some _ _ _ Hlo) as Hlt2.
  rewrite splice_insert.
  - unfold moveItem. by rewrite Hla.
  - rewrite length_delete by eauto. lia.
Qed.

Lemma reorderChildren_not_elem cs a o :
  a ∉ cs ∨ o ∉ cs → reorderChildren cs a o = None.
Proof.
  intros Habs. unfold reorderChildren.
  destruct Habs as [Ha|Ho].
  - by rewrite (indexOf_not_elem _ _ Ha).
  - rewrite (indexOf_not_elem _ _ Ho).
    by destruct (indexOf a cs =? -1)%Z.
Qed.

Lemma reorderChildren_Some cs a o cs' :
  reorderChildren cs a o = Some cs' →
  ∃ from to : nat,
    cs !! from = Some a ∧ cs !! to = Some o ∧ cs' = moveItem from to cs.
Proof.
  intros Hr.
  destruct (decide (a ∈ cs)) as [Ha|Ha];
    [|by rewrite reorderChildren_not_elem in Hr by auto].
  destruct (decide (o ∈ cs)) as [Ho|Ho];
    [|by rewrite reorderChildren_not_elem in Hr by auto].
  destruct (reorderChildren_elem cs a o Ha Ho)
    as (from & to & _ & _ & Hla & Hlo & Heq).
  exists from, to. split_and!; [done..|]. congruence.
Qed.

Lemma reorderBlock_absent s axis pid a o :
  match findBlock pid (blocksOf axis s) with
  | None => True
  | Some p => a ∉ children p ∨ o ∉ children p
  end →
  reorderBlock axis pid a o s = s.
Proof.
  unfold reorderBlock, reorderBlocks, findBlock.
  destruct (findIndex pid (blocksOf axis s)) as [[i p]|]; cbn.
  - intros Habs. rewrite (reorderChildren_not_elem _ _ _ Habs).
    apply withBlocks_same.
  - intros _. apply withBlocks_same.
Qed.

(** C4: with the parent found and both identifiers among its children,
    [reorderBlock] removes [activeId] at its index and inserts it at the
    index [overId] had, so [activeId] ends at that position; with the parent
    absent, or either identifier absent from its children, the state is
    unchanged. *)
Theorem reorderBlock_moves (s : BlockState) (axis : Axis)
    (pid activeId overId : string) :
  (∀ i p,
     findIndex pid (blocksOf axis s) = Some (i, p) →
     activeId ∈ children p → overId ∈ children p →
     ∃ from to : nat,
       indexOf activeId (children p) = Z.of_nat from ∧
       indexOf overId (children p) = Z.of_nat to ∧
       children p !! from = Some activeId ∧
       children p !! to = Some overId ∧
       reorderBlock axis pid activeId overId s
       = withBlocks axis
           (<[i := setChildren p (moveItem from to (children p))]>
              (blocksOf axis s)) s ∧
       moveItem from to (children p) !! to = Some activeId) ∧
  (findBlock pid (blocksOf axis s) = None →
     reorderBlock axis pid activeId overId s = s) ∧
  (∀ p, findBlock pid (blocksOf axis s) = Some p →
     activeId ∉ children p ∨ overId ∉ children p →
     reorderBlock axis pid activeId overId s = s).
Proof.
  split_and!.
  - intros i p Hf Ha Ho.
    destruct (reorderChildren_elem _ _ _ Ha Ho)
      as (from & to & Hfrom & Hto & Hla & Hlo & Hr).
    exists from, to. split_and!; [done..| |].
    + unfold reorderBlock, reorderBlocks. by rewrite Hf, Hr.
    + apply moveItem_lookup; [done|]. by eapply lookup_lt_Some.
  - intros Hf. apply reorderBlock_absent. by rewrite Hf.
  - intros p Hf Habs. apply reorderBlock_absent. by rewrite Hf.
Qed.

(** C5: [reorderBlock] keeps every block's identifier, label and parent, and
    keeps the parent's children up to order; every block other than the one
    found for the parent identifier is unchanged, and so is the other
    axis. *)
Theorem reorderBlock_frame (s : BlockState) (axis : Axis)
    (pid activeId overId : string) :
  let blocks := blocksOf axis s in
  let blocks' := blocksOf axis (reorderBlock axis pid activeId overId s) in
  blocksOf (otherAxis axis) (reorderBlock axis pid activeId overId s)
  = blocksOf (otherAxis axis) s ∧
  length blocks' = length blocks ∧
  ∀ j b, blocks !! j = Some b →
    ∃ b', blocks' !! j = Some b' ∧
          id b' = id b ∧ label b' = label b ∧ parentId b' = parentId b ∧
          children b' ≡ₚ children b ∧
          (∀ c, c ∈ children b' ↔ c ∈ children b) ∧
          (findIndex pid blocks ≠ Some (j, b) → b' = b).
Proof.
  intros blocks blocks'. subst blocks'.
  unfold reorderBlock. rewrite blocksOf_withBlocks, blocksOf_withBlocks_other.
  fold blocks. split; [done|].
  unfold reorderBlocks.
  destruct (findIndex pid blocks) as [[i p]|] eqn:Hf;
    [|split; [done|]; intros j b Hj; exists b; by split_and!].
  destruct (reorderChildren (children p) activeId overId) as [cs|] eqn:Hr;
    [|split; [done|]; intros j b Hj; exists b; by split_and!].
  apply reorderChildren_Some in Hr as (from & to & _ & _ & ->).
  apply findIndex_Some in Hf as Hp. destruct Hp as (Hi & _ & _).
  split; [by rewrite length_insert|].
  intros j b Hj. destruct (decide (j = i)) as [->|Hne].
  - assert (b = p) as -> by congruence.
    eexists. split; [apply list_lookup_insert_eq; by eapply lookup_lt_Some|].
    cbn. split_and!; [done..|apply moveItem_Permutation| |done].
    intros c. by rewrite moveItem_Permutation.
  - exists b. rewrite list_lookup_insert_ne by done. by split_and!.
Qed.

(** ** addBlock *)

Lemma addBlock_absent s axis pid block :
  findBlock pid (blocksOf axis s) = None → addBlock axis pid block s = s.
Proof.
  unfold addBlock, addBlocks, findBlock.
  destruct (findIndex pid (blocksOf axis s)) as [[??]|]; [done|].
  intros _. apply withBlocks_same.
Qed.

(** C8: with the parent found at index [i], [addBlock] appends the new
    identifier to that block's children, appends the block to the end of the
    list and changes nothing else; with the parent absent the state is
    unchanged. *)
Theorem addBlock_appends (s : BlockState) (axis : Axis) (pid : string)
    (block : Block) :
  let blocks := blocksOf axis s in
  let blocks' := blocksOf axis (addBlock axis pid block s) in
  (∀ i p,
     findIndex pid blocks = Some (i, p) →
     blocks' = <[i := setChildren p (children p ++ [id block])]> blocks
               ++ [block] ∧
     length blocks' = S (length blocks) ∧
     blocks' !! length blocks = Some block ∧
     blocks' !! i = Some (setChildren p (children p ++ [id block])) ∧
     (∀ j, j ≠ i → j < length blocks → blocks' !! j = blocks !! j) ∧
     blocksOf (otherAxis axis) (addBlock axis pid block s)
     = blocksOf (otherAxis axis) s) ∧
  (findBlock pid blocks = None → addBlock axis pid block s = s).
Proof.
  intros blocks blocks'. subst blocks'.
  unfold addBlock. rewrite blocksOf_withBlocks, blocksOf_withBlocks_other.
  fold blocks. unfold addBlocks. split.
  - intros i p Hf. rewrite Hf.
    apply findIndex_Some in Hf as (Hi & _ & _).
    pose proof (lookup_lt_Some _ _ _ Hi) as Hlt.
    split_and!; [done| | | | |done].
    + rewrite length_app, length_insert. cbn. lia.
    + rewrite lookup_app_r; rewrite length_insert; [|lia].
      by rewrite Nat.sub_diag.
    + rewrite lookup_app_l by (rewrite length_insert; lia).
      by apply list_lookup_insert_eq.
    + intros j Hne Hj. rewrite lookup_app_l by (rewrite length_insert; lia).
      by apply list_lookup_insert_ne.
  - apply addBlock_absent.
Qed.

(** ** No-ops on missing identifiers *)

(** C7: an action whose target is missing returns, whatever the fuel, the
    state it was given: both block lists unchanged. *)
Theorem missing_target_noop (a : Action) (s : BlockState) (fuel : nat) :
  targetsAbsent a s → run fuel a s = Done s.
Proof.
  destruct a as [axis pid x y|axis bid l|axis pid b|axis bid]; cbn; intros Habs.
  - f_equal. by apply reorderBlock_absent.
  - f_equal. unfold updateLabel, updateLabels.
    unfold findBlock in Habs.
    destruct (findIndex bid (blocksOf axis s)) as [[??]|]; [done|].
    apply withBlocks_same.
  - f_equal. by apply addBlock_absent.
  - unfold removeBlock, removeBlocks. unfold findBlock in Habs.
    destruct (findIndex bid (blocksOf axis s)) as [[??]|]; [done|].
    cbn. by rewrite withBlocks_same.
Qed.

(** ** Leaf count and leaf list (page.tsx) *)

Lemma omap_Done {A B} (f : A → B) (x : outcome A) b :
  omap f x = Done b ↔ ∃ a, x = Done a ∧ b = f a.
Proof.
  destruct x; cbn; split; try done; try (by intros (? & ? & ?)).
  - intros [= <-]. eauto.
  - intros (a' & [= <-] & ->). done.
Qed.

Section leaves.
Variable map : gmap string Block.

(** The count follows the list step for step, failures included. *)
Lemma reduce_flatMap fuel cs init :
  (∀ c, leafCount fuel c map = omap length (flattenLeaves fuel c map)) →
  reduce (λ s c, n ←o leafCount fuel c map; Done (s + n)) cs init
  = omap (λ l, init + length l)
      (flatMap (λ c, flattenLeaves fuel c map) cs).
Proof.
  intros IH. revert init. induction cs as [|c cs IHcs]; intros init; cbn.
  - by rewrite Nat.add_0_r.
  - rewrite IH. destruct (flattenLeaves fuel c map) as [l| |]; cbn; [|done..].
    rewrite IHcs.
    destruct (flatMap _ cs) as [r| |]; cbn; [|done..].
    rewrite length_app. f_equal. lia.
Qed.

Lemma leafCount_as_length fuel bid :
  leafCount fuel bid map = omap length (flattenLeaves fuel bid map).
Proof.
  revert bid. induction fuel as [|fuel IH]; intros bid; cbn; [done|].
  destruct (map !! bid) as [b|]; [|done].
  destruct (decide (length (children b) = 0)); [done|].
  by rewrite reduce_flatMap.
Qed.

Lemma flatMap_Done_all {A B} (f : A → outcome (list B)) cs :
  (∀ c, c ∈ cs → ∃ l, f c = Done l) → ∃ l, flatMap f cs = Done l.
Proof.
  induction cs as [|c cs IH]; intros Hall; cbn; [by eexists|].
  destruct (Hall c) as [x ->]; [by left|].
  destruct IH as [r ->]; [intros; apply Hall; by right|].
  cbn. by eexists.
Qed.

Lemma flatMap_mono {A B} (f g : A → outcome (list B)) cs l :
  (∀ c x, c ∈ cs → f c = Done x → g c = Done x) →
  flatMap f cs = Done l → flatMap g cs = Done l.
Proof.
  revert l. induction cs as [|c cs IH]; intros l Hfg; cbn; [done|].
  destruct (f c) as [x| |] eqn:Hc; cbn; [|done..].
  rewrite (Hfg c x) by (done || by left). cbn.
  destruct (flatMap f cs) as [r| |] eqn:Hr; cbn; [|done..].
  rewrite (IH r); [done| |done]. intros; apply Hfg; [by right|done].
Qed.

(** More fuel never changes a result. *)
Lemma flattenLeaves_mono fuel fuel' bid l :
  fuel ≤ fuel' →
  flattenLeaves fuel bid map = Done l → flattenLeaves fuel' bid map = Done l.
Proof.
  revert fuel' bid l. induction fuel as [|fuel IH]; intros fuel' bid l Hle;
    [done|].
  destruct fuel' as [|fuel']; [lia|]. cbn.
  destruct (map !! bid) as [b|]; [|done].
  destruct (decide (length (children b) = 0)); [done|].
  apply flatMap_mono. intros c x _. apply IH. lia.
Qed.

(** On a closed map, acyclic below [top], flattening any node of the
    subtree of [top] returns once the fuel exceeds the node's height. *)
Lemma flattenLeaves_total top (h : string → nat) :
  mapClosed map →
  (∀ x y, rtc (mapEdge map) top x → mapEdge map x y → h y < h x) →
  ∀ fuel bid,
    rtc (mapEdge map) top bid → is_Some (map !! bid) → h bid < fuel →
    ∃ l, flattenLeaves fuel bid map = Done l.
Proof.
  intros Hclosed Hh. induction fuel as [|fuel IH]; intros bid Hreach [b Hb] Hlt;
    [lia|].
  cbn. rewrite Hb.
  destruct (decide (length (children b) = 0)); [by eexists|].
  apply flatMap_Done_all. intros c Hc.
  assert (mapEdge map bid c) as Hedge by (by exists b).
  apply IH.
  - by eapply rtc_r.
  - by eapply Hclosed.
  - specialize (Hh bid c Hreach Hedge). lia.
Qed.
End leaves.

Lemma leaves_result map top (h : string → nat) :
  mapClosed map →
  (∀ x y, rtc (mapEdge map) top x → mapEdge map x y → h y < h x) →
  is_Some (map !! top) →
  ∃ leaves, ∀ fuel, h top < fuel →
    flattenLeaves fuel top map = Done leaves ∧
    leafCount fuel top map = Done (length leaves).
Proof.
  intros Hclosed Hh Htop.
  destruct (flattenLeaves_total map top h Hclosed Hh (S (h top)) top)
    as [leaves Hl]; [done|done|lia|].
  exists leaves. intros fuel Hfuel.
  assert (flattenLeaves fuel top map = Done leaves) as Hl'.
  { eapply flattenLeaves_mono; [|done]. lia. }
  split; [done|]. by rewrite leafCount_as_length, Hl'.
Qed.

(** C6: on a map where every child identifier resolves and the subtree below
    [top] has no cycle, for a node [top] of the map, [flattenLeaves] returns
    a list and [leafCount] returns its length, for all fuel from some bound
    on. *)
Theorem leafCount_flattenLeaves (map : gmap string Block) (top : string) :
  mapClosed map → mapAcyclicBelow map top → is_Some (map !! top) →
  ∃ fuel0 leaves, ∀ fuel, fuel0 ≤ fuel →
    flattenLeaves fuel top map = Done leaves ∧
    leafCount fuel top map = Done (length leaves).
Proof.
  intros Hclosed [h Hh] Htop.
  destruct (leaves_result map top h Hclosed Hh Htop) as [leaves Hl].
  exists (S (h top)), leaves. intros fuel Hfuel. apply Hl. lia.
Qed.

(** ** The depth-first collection of removeBlock *)

Lemma reach_inv blocks x y :
  reach blocks x y ↔ y = x ∨ ∃ c, edge blocks x c ∧ reach blocks c y.
Proof.
  split.
  - intros Hr. apply rtc_inv in Hr as [->|(c & ? & ?)]; eauto.
  - intros [->|(c & ? & ?)]; [apply rtc_refl|by eapply rtc_l].
Qed.

Section dfs_facts.
Variable blocks : list Block.
Variable h : string → nat.
Hypothesis h_edge : ∀ x y, edge blocks x y → h y < h x.

Lemma forEach_dfs fuel cs acc :
  (∀ c acc', h c < fuel →
     ∃ S, dfs fuel blocks c acc' = Done S ∧
          ∀ y, y ∈ S ↔ y ∈ acc' ∨ reach blocks c y) →
  (∀ c, c ∈ cs → h c < fuel) →
  ∃ S, forEach (dfs fuel blocks) cs acc = Done S ∧
       ∀ y, y ∈ S ↔ y ∈ acc ∨ ∃ c, c ∈ cs ∧ reach blocks c y.
Proof.
  intros IH. revert acc. induction cs as [|c cs IHcs]; intros acc Hcs; cbn.
  - exists acc. split; [done|]. intros y. split; [auto|].
    intros [?|(c & Hc & _)]; [done|]. by apply elem_of_nil in Hc.
  - destruct (IH c acc) as (S1 & -> & HS1); [apply Hcs; by left|]. cbn.
    destruct (IHcs S1) as (S2 & -> & HS2); [intros; apply Hcs; by right|].
    exists S2. split; [done|]. intros y. rewrite HS2, HS1. split.
    + intros [[?|?]|(c' & ? & ?)]; [by left|right..].
      * exists c. split; [by left|done].
      * exists c'. split; [by right|done].
    + intros [?|(c' & [->|?]%elem_of_cons & ?)]; [by left; left| |].
      * left. by right.
      * right. by exists c'.
Qed.

(** Without cycles the collection ends as soon as the fuel exceeds the
    height of the start, and it adds exactly the subtree of the start. *)
Lemma dfs_collects fuel bid acc :
  h bid < fuel →
  ∃ S, dfs fuel blocks bid acc = Done S ∧
       ∀ y, y ∈ S ↔ y ∈ acc ∨ reach blocks bid y.
Proof.
  revert bid acc. induction fuel as [|fuel IH]; intros bid acc Hlt; [lia|].
  cbn. destruct (findBlock bid blocks) as [b|] eqn:Hb.
  - destruct (forEach_dfs fuel (children b) ({[bid]} ∪ acc)) as (S & -> & HS).
    { intros c acc' ?. by apply IH. }
    { intros c Hc. assert (edge blocks bid c) as He by (by exists b).
      apply h_edge in He. lia. }
    exists S. split; [done|]. intros y. rewrite HS, reach_inv. split.
    + intros [[->%elem_of_singleton|?]%elem_of_union|(c & Hc & Hr)].
      * right. by left.
      * by left.
      * right. right. exists c. split; [by exists b|done].
    + intros [?|[->|(c & (b' & Hb' & Hc) & Hr)]].
      * left. apply elem_of_union. by right.
      * left. apply elem_of_union. left. by apply elem_of_singleton.
      * right. exists c. split; [congruence|done].
  - exists ({[bid]} ∪ acc). split; [done|]. intros y.
    rewrite reach_inv. split.
    + intros [->%elem_of_singleton|?]%elem_of_union; [right; by left|by left].
    + intros [?|[->|(c & (b' & Hb' & _) & _)]]; [| |congruence].
      * apply elem_of_union. by right.
      * apply elem_of_union. left. by apply elem_of_singleton.
Qed.
End dfs_facts.

(** The collected set does not depend on the fuel, once there is enough. *)
Lemma dfs_result blocks (h : string → nat) bid acc :
  (∀ x y, edge blocks x y → h y < h x) →
  ∃ S, (∀ y, y ∈ S ↔ y ∈ acc ∨ reach blocks bid y) ∧
       ∀ fuel, h bid < fuel → dfs fuel blocks bid acc = Done S.
Proof.
  intros Hh.
  destruct (dfs_collects blocks h Hh (S (h bid)) bid acc) as (S0 & _ & HS0);
    [lia|].
  exists S0. split; [done|]. intros fuel Hfuel.
  destruct (dfs_collects blocks h Hh fuel bid acc Hfuel) as (S1 & -> & HS1).
  f_equal. apply set_eq. intros y. by rewrite HS0, HS1.
Qed.

(** C10: on a map where every child identifier resolves and no cycle exists,
    and on a block list without cycles, [leafCount], [flattenLeaves] (from a
    node of the map) and the collection [dfs] of [removeBlock] (from any
    identifier) all return a value, the same for all fuel from some bound on:
    no lookup fails and no recursion runs away. *)
Theorem helpers_terminate (map : gmap string Block) (blocks : list Block)
    (top bid : string) :
  mapClosed map → mapAcyclic map → is_Some (map !! top) → acyclic blocks →
  ∃ fuel0 n leaves removeIds, ∀ fuel, fuel0 ≤ fuel →
    leafCount fuel top map = Done n ∧
    flattenLeaves fuel top map = Done leaves ∧
    dfs fuel blocks bid ∅ = Done removeIds.
Proof.
  intros Hclosed [h Hh] Htop [g Hg].
  destruct (leaves_result map top h Hclosed) as [leaves Hl]; [auto|done|].
  destruct (dfs_result blocks g bid ∅ Hg) as (S0 & _ & HS0).
  exists (S (h top `max` g bid)), (length leaves), leaves, S0.
  intros fuel Hfuel.
  destruct (Hl fuel) as [H1 H2]; [lia|].
  split_and!; [done..|]. apply HS0. lia.
Qed.

(** ** The closing loop of removeBlock is a filter *)

Lemma sweep_take_drop (removeIds : gset string) n blocks :
  n ≤ length blocks →
  sweep n removeIds blocks
  = filter (λ b, id b ∉ removeIds) (take n blocks) ++ drop n blocks.
Proof.
  revert blocks. induction n as [|i IH]; intros blocks Hn; [done|].
  cbn [sweep].
  destruct (lookup_lt_is_Some_2 blocks i) as [b Hb]; [lia|].
  rewrite Hb, (take_S_r _ _ _ Hb), filter_app.
  destruct (decide (id b ∈ removeIds)) as [Hin|Hout].
  - rewrite splice_delete, IH by (rewrite length_delete by eauto; lia).
    rewrite (filter_cons_False _ b []) by tauto.
    rewrite app_nil_r, delete_take_drop.
    rewrite take_app_le, drop_app_ge by (rewrite length_take; lia).
    rewrite take_take, length_take.
    replace (i `min` i) with i by lia.
    replace (i - i `min` length blocks) with 0 by lia.
    by rewrite drop_0.
  - rewrite IH by lia. rewrite (filter_cons_True _ b []) by done.
    rewrite <-app_assoc. cbn. by rewrite <-(drop_S _ _ _ Hb).
Qed.

Lemma sweep_filter (removeIds : gset string) blocks :
  sweep (length blocks) removeIds blocks
  = filter (λ b, id b ∉ removeIds) blocks.
Proof.
  rewrite sweep_take_drop by done.
  by rewrite firstn_all, drop_all, app_nil_r.
Qed.

(** ** Blocks that keep their identity *)

Lemma related_ids keep blocks' blocks :
  Forall2 (related keep) blocks' blocks → id <$> blocks' = id <$> blocks.
Proof.
  induction 1 as [|x' x l' l Hx _ IH]; [done|].
  cbn. f_equal; [apply Hx|exact IH].
Qed.

Lemma related_old keep blocks' blocks x' :
  Forall2 (related keep) blocks' blocks →
  x' ∈ blocks' → ∃ x, x ∈ blocks ∧ related keep x' x.
Proof.
  intros rel [i Hi]%list_elem_of_lookup.
  destruct (Forall2_lookup_l _ _ _ _ _ rel Hi) as (x & Hx & Hr).
  exists x. split; [by eapply list_elem_of_lookup_2|done].
Qed.

Lemma related_new keep blocks' blocks x :
  Forall2 (related keep) blocks' blocks →
  x ∈ blocks → ∃ x', x' ∈ blocks' ∧ related keep x' x.
Proof.
  intros rel [i Hi]%list_elem_of_lookup.
  destruct (Forall2_lookup_r _ _ _ _ _ rel Hi) as (x' & Hx & Hr).
  exists x'. split; [by eapply list_elem_of_lookup_2|done].
Qed.

Lemma related_edge keep blocks' blocks x y :
  Forall2 (related keep) blocks' blocks → NoDup (id <$> blocks) →
  edge blocks' x y → edge blocks x y ∧ keep y.
Proof.
  intros rel Hnd (xb' & [Hid Hin]%findBlock_Some & Hy).
  destruct (related_old _ _ _ xb' rel Hin) as (xb & Hxb & Hi & _ & _ & Hc).
  destruct (proj1 (Hc y) Hy) as [Hy' Hk]. split; [|done].
  exists xb. split; [|done].
  rewrite <-Hid, Hi. by apply findBlock_unique.
Qed.

Lemma related_edge_new keep blocks' blocks x y :
  Forall2 (related keep) blocks' blocks → NoDup (id <$> blocks) →
  edge blocks x y → keep y → edge blocks' x y.
Proof.
  intros rel Hnd (xb & [Hid Hin]%findBlock_Some & Hy) Hk.
  destruct (related_new _ _ _ xb rel Hin) as (xb' & Hxb & Hi & _ & _ & Hc).
  exists xb'. split; [|apply Hc; by split].
  rewrite <-Hid, <-Hi. apply findBlock_unique; [|done].
  by rewrite (related_ids _ _ _ rel).
Qed.

(** Replacing one block by a related one relates the lists. *)
Lemma related_refl keep x :
  NoDup (children x) → (∀ c, c ∈ children x → keep c) → related keep x x.
Proof.
  intros Hnd Hk. split_and!; [done..|].
  intros c. split; [intros Hc; split; [done|by apply Hk]|by intros [Hc _]].
Qed.

Lemma related_insert keep blocks i p p' :
  (∀ j x, j ≠ i → blocks !! j = Some x → related keep x x) →
  blocks !! i = Some p → related keep p' p →
  Forall2 (related keep) (<[i := p']> blocks) blocks.
Proof.
  intros Hrefl Hi Hp. apply Forall2_same_length_lookup_2.
  - by rewrite length_insert.
  - intros j x' x Hx' Hx. destruct (decide (j = i)) as [->|Hne].
    + rewrite list_lookup_insert_eq in Hx' by (by eapply lookup_lt_Some).
      congruence.
    + rewrite list_lookup_insert_ne in Hx' by done.
      assert (x' = x) as -> by congruence.
      by apply (Hrefl j).
Qed.

(** The forest conditions only read identifiers, parents and the set of
    children. *)
Lemma forest_related blocks' blocks :
  Forall2 (related (λ _, True)) blocks' blocks → forest blocks →
  forest blocks'.
Proof.
  intros Hrel [Hids (r & Hr & Hrp & Hru) Hch Hdown Hup (h & Hh)].
  pose proof (λ x, related_old _ _ _ x Hrel) as Hold.
  pose proof (λ x, related_new _ _ _ x Hrel) as Hnew.
  split.
  - by rewrite (related_ids _ _ _ Hrel).
  - destruct (Hnew r Hr) as (r' & Hr' & Hri & Hrpar & _).
    exists r'. split_and!; [done|congruence|].
    intros b' Hb' Hpar. destruct (Hold b' Hb') as (b & Hb & Hbi & Hbp & _).
    rewrite Hbi, Hri. apply Hru; [done|congruence].
  - intros b' Hb'. destruct (Hold b' Hb') as (b & _ & _ & _ & Hnd & _). done.
  - intros b' c Hb' Hc. destruct (Hold b' Hb') as (b & Hb & Hbi & _ & _ & Hbc).
    destruct (proj1 (Hbc c) Hc) as [Hc' _].
    destruct (Hdown b c Hb Hc') as (cb & Hcb & Hcid & Hcp).
    destruct (Hnew cb Hcb) as (cb' & Hcb' & Hci & Hcpar & _).
    exists cb'. split_and!; [done|congruence|]. by rewrite Hcpar, Hcp, Hbi.
  - intros b' p Hb' Hp. destruct (Hold b' Hb') as (b & Hb & Hbi & Hbp & _).
    destruct (Hup b p Hb) as (pb & Hpb & Hpid & Hpc); [congruence|].
    destruct (Hnew pb Hpb) as (pb' & Hpb' & Hpi & _ & _ & Hpch).
    exists pb'. split_and!; [done|congruence|]. apply Hpch. by rewrite Hbi.
  - exists h. intros b' c Hb' Hc.
    destruct (Hold b' Hb') as (b & Hb & Hbi & _ & _ & Hbc).
    destruct (proj1 (Hbc c) Hc) as [Hc' _]. rewrite Hbi. by apply Hh.
Qed.

Lemma forest_insert blocks i p p' :
  forest blocks → blocks !! i = Some p →
  id p' = id p → parentId p' = parentId p → children p' ≡ₚ children p →
  forest (<[i := p']> blocks).
Proof.
  intros Hf Hi Hid Hpar Hperm.
  eapply forest_related; [|done].
  eapply related_insert; [|done|].
  - intros j x _ Hx%list_elem_of_lookup_2.
    apply related_refl; [by apply (forest_children _ Hf)|done].
  - split_and!; [done..| |].
    + rewrite Hperm. apply (forest_children _ Hf). by eapply list_elem_of_lookup_2.
    + intros c. rewrite Hperm. tauto.
Qed.

Lemma reorderBlocks_forest pid a o blocks :
  forest blocks → forest (reorderBlocks pid a o blocks).
Proof.
  intros Hf. unfold reorderBlocks.
  destruct (findIndex pid blocks) as [[i p]|] eqn:Hfind; [|done].
  destruct (reorderChildren (children p) a o) as [cs|] eqn:Hr; [|done].
  apply reorderChildren_Some in Hr as (from & to & _ & _ & ->).
  apply findIndex_Some in Hfind as (Hi & _ & _).
  eapply forest_insert; [done..|]. apply moveItem_Permutation.
Qed.

Lemma updateLabels_forest bid l blocks :
  forest blocks → forest (updateLabels bid l blocks).
Proof.
  intros Hf. unfold updateLabels.
  destruct (findIndex bid blocks) as [[i b]|] eqn:Hfind; [|done].
  apply findIndex_Some in Hfind as (Hi & _ & _).
  by eapply forest_insert.
Qed.

(** ** addBlock keeps the forest, for a fresh block *)

Lemma related_insert_r keep blocks i p p' :
  (∀ x, x ∈ blocks → related keep x x) →
  blocks !! i = Some p → related keep p p' →
  Forall2 (related keep) blocks (<[i := p']> blocks).
Proof.
  intros Hrefl Hi Hp. apply Forall2_same_length_lookup_2.
  - by rewrite length_insert.
  - intros j x x' Hx Hx'. destruct (decide (j = i)) as [->|Hne].
    + rewrite list_lookup_insert_eq in Hx' by (by eapply lookup_lt_Some).
      congruence.
    + rewrite list_lookup_insert_ne in Hx' by done.
      assert (x' = x) as -> by congruence.
      apply Hrefl. by eapply list_elem_of_lookup_2.
Qed.

Lemma forest_child_id blocks b c :
  forest blocks → b ∈ blocks → c ∈ children b → c ∈ (id <$> blocks).
Proof.
  intros Hf Hb Hc.
  destruct (forest_down _ Hf b c Hb Hc) as (cb & Hcb & <- & _).
  by apply list_elem_of_fmap_2.
Qed.

Lemma addBlocks_forest pid block blocks :
  forest blocks → fresh pid block blocks →
  forest (addBlocks pid block blocks).
Proof.
  intros Hf (Hfresh & Hnochild & Hpar). unfold addBlocks.
  destruct (findIndex pid blocks) as [[i p]|] eqn:Hfind; [|done].
  apply findIndex_Some in Hfind as (Hi & Hpid & Hp).
  set (p' := setChildren p (children p ++ [id block])).
  set (keep := λ c : string, c ≠ id block).
  assert (∀ x c, x ∈ blocks → c ∈ children x → keep c) as Hkeep.
  { intros x c Hx Hc ->. apply Hfresh. by eapply forest_child_id. }
  assert (Forall2 (related keep) blocks (<[i := p']> blocks)) as Hrel.
  { apply related_insert_r with p; [|done|].
    - intros x Hx. apply related_refl; [by apply (forest_children _ Hf)|].
      intros c. by apply Hkeep.
    - split_and!; [done|done|by apply (forest_children _ Hf)|].
      intros c. cbn. rewrite elem_of_app, list_elem_of_singleton. split.
      + intros Hc. split; [by left|by eapply Hkeep].
      + by intros [[?|?] ?]. }
  pose proof (λ x, related_new _ _ _ x Hrel) as Hold.
  pose proof (λ x, related_old _ _ _ x Hrel) as Hnew.
  assert (p' ∈ <[i := p']> blocks) as Hp'.
  { apply list_elem_of_insert. by eapply lookup_lt_Some. }
  destruct Hf as [Hids (r & Hr & Hrp & Hru) Hch Hdown Hup (h & Hh)].
  split.
  - rewrite fmap_app, <-(related_ids _ _ _ Hrel). cbn.
    apply NoDup_app. split_and!; [done| |apply NoDup_singleton].
    intros x Hx ->%list_elem_of_singleton. done.
  - destruct (Hnew r Hr) as (r' & Hr' & Hri & Hrpar & _).
    exists r'. split_and!.
    + apply elem_of_app. by left.
    + congruence.
    + intros b [Hb | ->%list_elem_of_singleton]%elem_of_app Hbp; [|congruence].
      destruct (Hold b Hb) as (b0 & Hb0 & Hbi & Hbpar & _).
      rewrite <-Hbi, <-Hri. apply Hru; [done|congruence].
  - intros b [Hb | ->%list_elem_of_singleton]%elem_of_app;
      [|rewrite Hnochild; apply NoDup_nil_2].
    apply list_elem_of_lookup in Hb as [j Hj].
    destruct (decide (j = i)) as [->|Hne].
    + rewrite list_lookup_insert_eq in Hj by (by eapply lookup_lt_Some).
      assert (b = p') as -> by congruence. cbn.
      apply NoDup_app. split_and!; [by apply Hch| |apply NoDup_singleton].
      intros c Hc ->%list_elem_of_singleton. by eapply (Hkeep p (id block)).
    + rewrite list_lookup_insert_ne in Hj by done.
      apply Hch. by eapply list_elem_of_lookup_2.
  - intros b c [Hb | ->%list_elem_of_singleton]%elem_of_app Hc;
      [|rewrite Hnochild in Hc; by apply elem_of_nil in Hc].
    destruct (decide (c = id block)) as [->|Hne].
    + exists block. split_and!; [apply elem_of_app; right; by left|done|].
      rewrite Hpar. f_equal.
      apply list_elem_of_lookup in Hb as [j Hj].
      destruct (decide (j = i)) as [->|Hji].
      * rewrite list_lookup_insert_eq in Hj by (by eapply lookup_lt_Some).
        assert (b = p') as -> by congruence. done.
      * rewrite list_lookup_insert_ne in Hj by done.
        destruct (Hkeep b (id block)); [by eapply list_elem_of_lookup_2|done..].
    + destruct (Hold b Hb) as (b0 & Hb0 & Hbi & _ & _ & Hbc).
      assert (c ∈ children b0) as Hc0 by (apply Hbc; by split).
      destruct (Hdown b0 c Hb0 Hc0) as (cb & Hcb & Hcid & Hcp).
      destruct (Hnew cb Hcb) as (cb' & Hcb' & Hci & Hcpar & _).
      exists cb'. split_and!; [apply elem_of_app; by left|congruence|].
      by rewrite <-Hcpar, Hcp, Hbi.
  - intros b q [Hb | ->%list_elem_of_singleton]%elem_of_app Hq.
    + destruct (Hold b Hb) as (b0 & Hb0 & Hbi & Hbpar & _).
      destruct (Hup b0 q Hb0) as (qb & Hqb & Hqid & Hqc); [congruence|].
      destruct (Hnew qb Hqb) as (qb' & Hqb' & Hqi & _ & _ & Hqch).
      exists qb'. split_and!; [apply elem_of_app; by left|congruence|].
      rewrite <-Hbi. by apply Hqch.
    + exists p'. split_and!; [apply elem_of_app; by left|cbn; congruence|].
      cbn. apply elem_of_app. right. by left.
  - exists (λ x, if decide (x = id block) then 0 else S (h x)).
    intros b c [Hb | ->%list_elem_of_singleton]%elem_of_app Hc;
      [|rewrite Hnochild in Hc; by apply elem_of_nil in Hc].
    destruct (Hold b Hb) as (b0 & Hb0 & Hbi & _ & _ & Hbc).
    destruct (decide (id b = id block)) as [Heq|_].
    { destruct Hfresh. rewrite <-Heq, <-Hbi. by apply list_elem_of_fmap_2. }
    destruct (decide (c = id block)) as [_|Hne]; [lia|].
    assert (c ∈ children b0) as Hc0 by (apply Hbc; by split).
    rewrite <-Hbi. specialize (Hh b0 c Hb0 Hc0). lia.
Qed.

(** ** removeBlock keeps the forest, below the root *)

Lemma forest_edge_height blocks (h : string → nat) x y :
  (∀ b c, b ∈ blocks → c ∈ children b → h c < h (id b)) →
  edge blocks x y → h y < h x.
Proof.
  intros Hh (b & [<- Hb]%findBlock_Some & Hy). by apply Hh.
Qed.

(** In a forest the block of a child identifier names the lister as its
    parent. *)
Lemma edge_parent blocks z y yb :
  forest blocks → edge blocks z y → yb ∈ blocks → id yb = y →
  parentId yb = Some z.
Proof.
  intros Hf (zb & [<- Hzb]%findBlock_Some & Hy) Hyb Hid.
  destruct (forest_down _ Hf zb y Hzb Hy) as (cb & Hcb & Hcid & Hcp).
  assert (cb = yb) as <-; [|done].
  eapply NoDup_ids_eq; [apply (forest_ids _ Hf)|done..|congruence].
Qed.

Lemma elem_of_delete_NoDup (cs : list string) k x c :
  NoDup cs → cs !! k = Some x → c ∈ delete k cs ↔ c ∈ cs ∧ c ≠ x.
Proof.
  intros Hnd Hk. pose proof (delete_Permutation cs k x Hk) as Hperm.
  rewrite Hperm in Hnd. apply NoDup_cons in Hnd as [Hx _].
  assert (c ∈ cs ↔ c ∈ x :: delete k cs) as -> by (by rewrite <-Hperm).
  rewrite elem_of_cons. split.
  - intros Hc. split; [by right|]. by intros ->.
  - by intros [[?|?] ?].
Qed.

Lemma truthy_Some pid : pid ≠ "" → truthy (Some pid) = true.
Proof. intros Hne. cbn. by apply negb_true_iff, String.eqb_neq. Qed.

(** Step 1 under the invariant: the block loses [bid] from its parent's
    children and from nowhere else, nothing else changes. *)
Lemma detach_related blocks bid b :
  forest blocks → b ∈ blocks → id b = bid → parentId b ≠ Some "" →
  Forall2 (related (λ c, c ≠ bid)) (detach bid b blocks) blocks.
Proof.
  intros Hf Hb Hid Hpar. unfold detach.
  destruct (parentId b) as [pid|] eqn:Hp.
  - rewrite truthy_Some by congruence.
    destruct (forest_up _ Hf b pid Hb Hp) as (p & Hpb & Hpid & Hc).
    apply list_elem_of_lookup in Hpb as [i Hi].
    rewrite <-Hpid, (findIndex_unique _ _ _ (forest_ids _ Hf) Hi). cbn zeta.
    rewrite Hid in Hc.
    destruct (indexOf_elem bid (children p) Hc) as (k & -> & Hk & _).
    rewrite splice_delete.
    assert (NoDup (children p)) as Hnd.
    { apply (forest_children _ Hf). by eapply list_elem_of_lookup_2. }
    apply related_insert with p; [|done|].
    + intros j x Hne Hj. apply related_refl.
      * apply (forest_children _ Hf). by eapply list_elem_of_lookup_2.
      * intros c Hcx ->. apply Hne.
        assert (parentId b = Some (id x)) as Hbx.
        { eapply edge_parent; [done| |done..].
          exists x. split; [|done].
          apply findBlock_unique; [apply (forest_ids _ Hf)|].
          by eapply list_elem_of_lookup_2. }
        eapply NoDup_ids_lookup; [apply (forest_ids _ Hf)|done..|congruence].
    + split_and!; [done..| |].
      * cbn. eapply sublist_NoDup; [done|apply sublist_delete].
      * intros c. cbn. by apply elem_of_delete_NoDup.
  - apply Forall2_same_length_lookup_2; [done|].
    intros j x' x Hx' Hx. assert (x' = x) as -> by congruence.
    apply related_refl.
    + apply (forest_children _ Hf). by eapply list_elem_of_lookup_2.
    + intros c Hcx ->.
      assert (parentId b = Some (id x)) as Hbx; [|congruence].
      eapply edge_parent; [done| |done..].
      exists x. split; [|done].
      apply findBlock_unique; [apply (forest_ids _ Hf)|].
      by eapply list_elem_of_lookup_2.
Qed.

(** Dropping the subtree of a non-root node from the detached list leaves a
    forest. *)
Lemma forest_prune blocks blocks1 bid b pid (S : gset string) :
  forest blocks → b ∈ blocks → id b = bid → parentId b = Some pid →
  Forall2 (related (λ c, c ≠ bid)) blocks1 blocks →
  (∀ y, y ∈ S ↔ reach blocks1 bid y) →
  forest (filter (λ x, id x ∉ S) blocks1).
Proof.
  intros Hf Hb Hid Hpar Hrel HS.
  pose proof (λ x, related_old _ _ _ x Hrel) as Hold.
  pose proof (λ x, related_new _ _ _ x Hrel) as Hnew.
  pose proof (forest_ids _ Hf) as Hids.
  assert (bid ∈ S) as Hbid by (apply HS, rtc_refl).
  assert (∀ y, y ∈ S → y ≠ bid → ∃ z, z ∈ S ∧ edge blocks z y) as Hstep.
  { intros y Hy%HS Hne. apply rtc_inv_r in Hy as [->|(z & Hz & He)]; [done|].
    exists z. split; [by apply HS|].
    by destruct (related_edge _ _ _ _ _ Hrel Hids He). }
  assert (∀ x, x ∈ blocks → id x ∈ S → id x ≠ bid →
               ∃ z, z ∈ S ∧ parentId x = Some z) as Hparent.
  { intros x Hx HxS Hne. destruct (Hstep _ HxS Hne) as (z & Hz & He).
    exists z. split; [done|]. by eapply edge_parent. }
  destruct Hf as [_ (r & Hr & Hrp & Hru) Hch Hdown Hup (h & Hh)].
  split.
  - eapply sublist_NoDup; [|apply fmap_sublist, sublist_filter].
    by rewrite (related_ids _ _ _ Hrel).
  - destruct (Hnew r Hr) as (r' & Hr' & Hri & Hrpar & _).
    exists r'. split_and!.
    + apply list_elem_of_filter. split; [|done]. rewrite Hri. intros HrS.
      destruct (decide (id r = bid)) as [Heq|Hne].
      * assert (r = b) as -> by (eapply NoDup_ids_eq; [done..|congruence]).
        congruence.
      * destruct (Hparent r Hr HrS Hne) as (z & _ & Hz). congruence.
    + congruence.
    + intros x' [_ Hx']%list_elem_of_filter Hxp.
      destruct (Hold x' Hx') as (x & Hx & Hxi & Hxpar & _).
      rewrite Hxi, Hri. apply Hru; [done|congruence].
  - intros x' [_ Hx']%list_elem_of_filter.
    destruct (Hold x' Hx') as (x & _ & _ & _ & Hnd & _). done.
  - intros x' c [HxS Hx']%list_elem_of_filter Hc.
    destruct (Hold x' Hx') as (x & Hx & Hxi & _ & _ & Hxc).
    destruct (proj1 (Hxc c) Hc) as [Hc0 Hcne].
    destruct (Hdown x c Hx Hc0) as (cb & Hcb & Hcid & Hcp).
    destruct (Hnew cb Hcb) as (cb' & Hcb' & Hci & Hcpar & _).
    exists cb'. split_and!; [|congruence|by rewrite Hcpar, Hcp, Hxi].
    apply list_elem_of_filter. split; [|done]. rewrite Hci. intros HcS.
    destruct (Hparent cb Hcb HcS) as (z & Hz & Hzp); [congruence|].
    apply HxS. rewrite Hxi. congruence.
  - intros x' q [HxS Hx']%list_elem_of_filter Hq.
    destruct (Hold x' Hx') as (x & Hx & Hxi & Hxpar & _).
    destruct (Hup x q Hx) as (qb & Hqb & Hqid & Hqc); [congruence|].
    destruct (Hnew qb Hqb) as (qb' & Hqb' & Hqi & _ & _ & Hqch).
    assert (id x' ∈ children qb') as Hin.
    { apply Hqch. rewrite Hxi. split; [done|]. intros Heq.
      apply HxS. by rewrite Hxi, Heq. }
    exists qb'. split_and!; [|congruence|done].
    apply list_elem_of_filter. split; [|done]. intros HqS.
    apply HxS, HS. eapply rtc_r; [by apply HS|].
    exists qb'. split; [|done].
    apply findBlock_unique; [|done]. by rewrite (related_ids _ _ _ Hrel).
  - exists h. intros x' c [_ Hx']%list_elem_of_filter Hc.
    destruct (Hold x' Hx') as (x & Hx & Hxi & _ & _ & Hxc).
    destruct (proj1 (Hxc c) Hc) as [Hc0 _]. rewrite Hxi. by apply Hh.
Qed.

(** What [removeBlock] returns on a forest, for a node whose parent field
    reads as present or is [null]: the detached list without the blocks the
    collection reached. *)
Lemma removeBlocks_result blocks bid idx b :
  forest blocks → findIndex bid blocks = Some (idx, b) →
  parentId b ≠ Some "" →
  ∃ (S : gset string) fuel0,
    (∀ y, y ∈ S ↔ reach (detach bid b blocks) bid y) ∧
    ∀ fuel, fuel0 ≤ fuel →
      removeBlocks fuel bid blocks
      = Done (filter (λ x, id x ∉ S) (detach bid b blocks)).
Proof.
  intros Hf Hfind Hpar.
  pose proof (findIndex_Some _ _ _ _ Hfind) as (_ & Hid & Hb).
  pose proof (detach_related _ _ _ Hf Hb Hid Hpar) as Hrel.
  destruct (forest_acyclic _ Hf) as (h & Hh).
  destruct (dfs_result (detach bid b blocks) h bid ∅) as (S & HS & Hdfs).
  { intros x y He. eapply forest_edge_height; [done|].
    by destruct (related_edge _ _ _ _ _ Hrel (forest_ids _ Hf) He). }
  exists S, (Datatypes.S (h bid)). split.
  - intros y. rewrite HS. split; [by intros [?%not_elem_of_empty|?]|by right].
  - intros fuel Hfuel. unfold removeBlocks. rewrite Hfind. cbn zeta.
    rewrite Hdfs by lia. cbn. by rewrite sweep_filter.
Qed.

Lemma removeBlocks_forest blocks bid idx b pid :
  forest blocks → findIndex bid blocks = Some (idx, b) →
  parentId b = Some pid → pid ≠ "" →
  ∃ fuel0 blocks',
    (∀ fuel, fuel0 ≤ fuel → removeBlocks fuel bid blocks = Done blocks') ∧
    forest blocks'.
Proof.
  intros Hf Hfind Hpar Hne.
  destruct (removeBlocks_result blocks bid idx b Hf Hfind)
    as (S & fuel0 & HS & Hrun); [congruence|].
  pose proof (findIndex_Some _ _ _ _ Hfind) as (_ & Hid & Hb).
  exists fuel0, (filter (λ x, id x ∉ S) (detach bid b blocks)).
  split; [done|].
  eapply forest_prune; [done..| |done].
  apply detach_related; [done..|congruence].
Qed.

(** ** A checker for the invariant *)

Lemma forestCheck_sound h blocks : forestCheck h blocks = true → forest blocks.
Proof.
  unfold forestCheck.
  intros [[Hids%bool_decide_eq_true Hroot]%andb_true_iff Hall]%andb_true_iff.
  assert (∀ b, b ∈ blocks →
            NoDup (children b) ∧
            (∀ c, c ∈ children b →
               ∃ cb, findBlock c blocks = Some cb ∧
                     parentId cb = Some (id b) ∧ h c < h (id b)) ∧
            (∀ p, parentId b = Some p →
               ∃ pb, findBlock p blocks = Some pb ∧ id b ∈ children pb))
    as Hb.
  { intros b Hb%list_elem_of_In.
    rewrite forallb_forall in Hall. specialize (Hall b Hb).
    apply andb_true_iff in Hall as [[Hnd%bool_decide_eq_true Hcs]%andb_true_iff Hp].
    split_and!; [done| |].
    - intros c Hc%list_elem_of_In.
      rewrite forallb_forall in Hcs. specialize (Hcs c Hc).
      destruct (findBlock c blocks) as [cb|]; [|done].
      apply andb_true_iff in Hcs as [Hpar%bool_decide_eq_true Hlt%Nat.ltb_lt].
      by exists cb.
    - intros p Hpar. rewrite Hpar in Hp.
      destruct (findBlock p blocks) as [pb|]; [|done].
      apply bool_decide_eq_true in Hp. by exists pb. }
  split.
  - done.
  - destruct (filter _ blocks) as [|r [|]] eqn:Hfilter; [done| |done].
    assert (∀ x, x ∈ blocks → parentId x = None → x = r) as Hr.
    { intros x Hx Hxp.
      assert (x ∈ filter (λ b, parentId b = None) blocks) as Hin
        by (by apply list_elem_of_filter).
      rewrite Hfilter in Hin. by apply list_elem_of_singleton in Hin. }
    assert (r ∈ filter (λ b, parentId b = None) blocks) as Hin
      by (rewrite Hfilter; by left).
    apply list_elem_of_filter in Hin as [Hrp Hrin].
    exists r. split_and!; [done..|]. intros b ? ?. f_equal. by apply Hr.
  - intros b Hin. by apply Hb.
  - intros b c Hin Hc. destruct (Hb b Hin) as (_ & Hdown & _).
    destruct (Hdown c Hc) as (cb & [??]%findBlock_Some & ? & _).
    by exists cb.
  - intros b p Hin Hp. destruct (Hb b Hin) as (_ & _ & Hup).
    destruct (Hup p Hp) as (pb & [??]%findBlock_Some & ?).
    by exists pb.
  - exists h. intros b c Hin Hc. destruct (Hb b Hin) as (_ & Hdown & _).
    by destruct (Hdown c Hc) as (cb & _ & _ & ?).
Qed.

(** ** Maps built from a forest *)

Lemma buildMap_snoc blocks b :
  buildMap (blocks ++ [b]) = <[id b := b]> (buildMap blocks).
Proof. unfold buildMap. by rewrite foldl_app. Qed.

Lemma buildMap_lookup_Some blocks k b :
  NoDup (id <$> blocks) →
  buildMap blocks !! k = Some b ↔ b ∈ blocks ∧ id b = k.
Proof.
  revert k b. induction blocks as [|x blocks IH] using rev_ind; intros k b Hnd.
  - unfold buildMap. cbn. rewrite lookup_empty. split; [done|].
    intros [[]%elem_of_nil _].
  - rewrite fmap_app in Hnd. apply NoDup_app in Hnd as (Hnd & Hx & _).
    rewrite buildMap_snoc, elem_of_app, list_elem_of_singleton.
    destruct (decide (id x = k)) as [<-|Hne].
    + rewrite lookup_insert_eq. split.
      * intros [= ->]. split; [by right|done].
      * intros [[Hb| ->] Hid]; [|done].
        destruct (Hx (id x)); [|by left].
        rewrite <-Hid. by apply list_elem_of_fmap_2.
    + rewrite lookup_insert_ne by done. rewrite IH by done. split.
      * intros [??]. split; [by left|done].
      * intros [[?| ->] ?]; [done|congruence].
Qed.

Lemma buildMap_lookup blocks k :
  NoDup (id <$> blocks) → buildMap blocks !! k = findBlock k blocks.
Proof.
  intros Hnd. apply option_eq. intros b.
  rewrite buildMap_lookup_Some by done. split.
  - intros [Hb <-]. by apply findBlock_unique.
  - intros [??]%findBlock_Some. done.
Qed.

Lemma buildMap_edge blocks x y :
  NoDup (id <$> blocks) → mapEdge (buildMap blocks) x y ↔ edge blocks x y.
Proof.
  intros Hnd. unfold mapEdge, edge. by setoid_rewrite buildMap_lookup.
Qed.

(** The page's maps inherit closure and acyclicity from the forest. *)
Lemma forest_mapClosed blocks : forest blocks → mapClosed (buildMap blocks).
Proof.
  intros Hf k b c [Hb _]%buildMap_lookup_Some Hc; [|apply (forest_ids _ Hf)].
  destruct (forest_down _ Hf b c Hb Hc) as (cb & Hcb & Hid & _).
  exists cb. apply buildMap_lookup_Some; [apply (forest_ids _ Hf)|done].
Qed.

Lemma forest_acyclic_list blocks : forest blocks → acyclic blocks.
Proof.
  intros Hf. destruct (forest_acyclic _ Hf) as (h & Hh).
  exists h. intros x y. by apply forest_edge_height.
Qed.

Lemma forest_mapAcyclic blocks : forest blocks → mapAcyclic (buildMap blocks).
Proof.
  intros Hf. destruct (forest_acyclic_list _ Hf) as (h & Hh).
  exists h. intros x y He. apply Hh.
  by apply buildMap_edge; [apply (forest_ids _ Hf)|].
Qed.

(** ** The invariant along the store's actions *)

Lemma forestState_withBlocks axis blocks s :
  forestState s → forest blocks → forestState (withBlocks axis blocks s).
Proof. intros [Hr Hc] Hb. by destruct axis; split. Qed.

Lemma forestState_blocksOf axis s : forestState s → forest (blocksOf axis s).
Proof. intros [Hr Hc]. by destruct axis. Qed.

Lemma initialState_forest : forestState initialState.
Proof.
  split; apply (forestCheck_sound initialHeight); vm_compute; reflexivity.
Qed.

(** C3, as the code has it: from a state satisfying the forest invariant,
    [reorderBlock] and [updateLabel] with any arguments, [addBlock] with a
    missing parent or a fresh block, and [removeBlock] with a missing
    identifier or a node whose parent identifier is a non-empty string, return
    (given enough fuel) a state that satisfies the invariant. *)
Theorem actions_keep_forest (a : Action) (s : BlockState) :
  forestState s → admissible a s →
  ∃ fuel0 s',
    (∀ fuel, fuel0 ≤ fuel → run fuel a s = Done s') ∧ forestState s'.
Proof.
  intros Hs Hadm.
  destruct a as [axis pid x y|axis bid l|axis pid b|axis bid]; cbn in *.
  - exists 0, (reorderBlock axis pid x y s). split; [done|].
    apply forestState_withBlocks; [done|].
    by apply reorderBlocks_forest, forestState_blocksOf.
  - exists 0, (updateLabel axis bid l s). split; [done|].
    apply forestState_withBlocks; [done|].
    by apply updateLabels_forest, forestState_blocksOf.
  - exists 0, (addBlock axis pid b s). split; [done|].
    destruct Hadm as [Habs|Hfresh].
    + by rewrite addBlock_absent.
    + apply forestState_withBlocks; [done|].
      apply addBlocks_forest; [by apply forestState_blocksOf|done].
  - destruct (findIndex bid (blocksOf axis s)) as [[idx b]|] eqn:Hfind.
    + assert (findBlock bid (blocksOf axis s) = Some b) as Hb
        by (apply findBlock_findIndex; eauto).
      rewrite Hb in Hadm. destruct Hadm as (pid & Hpar & Hne).
      destruct (removeBlocks_forest (blocksOf axis s) bid idx b pid)
        as (fuel0 & blocks' & Hrun & Hf');
        [by apply forestState_blocksOf|done..|].
      exists fuel0, (withBlocks axis blocks' s). split.
      * intros fuel Hfuel. unfold removeBlock. by rewrite Hrun.
      * by apply forestState_withBlocks.
    + exists 0, s. split; [|done].
      intros fuel _. unfold removeBlock, removeBlocks.
      rewrite Hfind. cbn. by rewrite withBlocks_same.
Qed.

Lemma actions_keep_forest_witness :
  forestState initialState ∧
  admissible (RemoveBlock row "ROW_A") initialState ∧
  ∃ fuel0 s',
    (∀ fuel, fuel0 ≤ fuel →
       run fuel (RemoveBlock row "ROW_A") initialState = Done s') ∧
    forestState s'.
Proof.
  assert (admissible (RemoveBlock row "ROW_A") initialState) as Hadm.
  { exists "ROW_ROOT". split; [reflexivity|discriminate]. }
  split; [exact initialState_forest|]. split; [exact Hadm|].
  exact (actions_keep_forest (RemoveBlock row "ROW_A") initialState
           initialState_forest Hadm).
Defined.

(** The invariant does not survive every call: deleting the root empties the
    axis, and inserting a block whose identifier is taken duplicates it. *)
Lemma actions_break_forest :
  forestState initialState ∧
  (∃ s', (∀ fuel, 3 ≤ fuel →
            run fuel (RemoveBlock row "ROW_ROOT") initialState = Done s') ∧
         ¬ forestState s') ∧
  (∃ s', (∀ fuel,
            run fuel (AddBlock row "ROW_ROOT"
                        (mkBlock "ROW_A" "again" (Some "ROW_ROOT") []))
                initialState = Done s') ∧
         ¬ forestState s').
Proof.
  split; [exact initialState_forest|]. split.
  - exists (withBlocks row [] initialState). split.
    + intros fuel Hfuel. do 3 (destruct fuel as [|fuel]; [lia|]).
      vm_compute. reflexivity.
    + intros [[_ (r & Hr & _) _ _ _ _] _]. by apply elem_of_nil in Hr.
  - eexists. split; [intros fuel; cbn; reflexivity|].
    intros [[Hids _ _ _ _ _] _]. revert Hids. vm_compute.
    intros Hids. apply NoDup_cons in Hids as [_ Hids].
    apply NoDup_cons in Hids as [Hin _]. apply Hin.
    do 4 right. left.
Qed.

(** ** The page's reorder against the store's *)

Lemma fmap_replace_unique blocks i p (f : Block → Block) :
  NoDup (id <$> blocks) → blocks !! i = Some p →
  (λ bl, if decide (id bl = id p) then f bl else bl) <$> blocks
  = <[i := f p]> blocks.
Proof.
  intros Hnd Hi. apply list_eq. intros j.
  rewrite list_lookup_fmap. destruct (decide (j = i)) as [->|Hne].
  - rewrite list_lookup_insert_eq by (by eapply lookup_lt_Some).
    rewrite Hi. cbn. by rewrite decide_True.
  - rewrite list_lookup_insert_ne by done.
    destruct (blocks !! j) as [x|] eqn:Hj; [|done]. cbn.
    rewrite decide_False; [done|]. intros Heq. apply Hne.
    by eapply NoDup_ids_lookup.
Qed.

Section reorder_agreement.
Variable arrayMove : list string → Z → Z → list string.

(** What the library promises of [arrayMove] for indices in range: the item
    at [from] is taken out and put back at [to]. *)
Hypothesis arrayMove_moves :
  ∀ (l : list string) (i j : nat),
    i < length l → j < length l →
    arrayMove l (Z.of_nat i) (Z.of_nat j) = moveItem i j l.

(** C9: on a forest, for two children [activeId] and [overId] of a block [p],
    the page's [reorder] returns the block list the store's [reorderBlock]
    leaves on that axis; in particular both give [p] the same children. *)
Theorem reorder_agrees (s : BlockState) (axis : Axis) (p : Block)
    (activeId overId : string) :
  forest (blocksOf axis s) → p ∈ blocksOf axis s →
  activeId ∈ children p → overId ∈ children p →
  let stored := blocksOf axis (reorderBlock axis (id p) activeId overId s) in
  reorder arrayMove (blocksOf axis s) activeId overId = Done stored ∧
  ∃ paged p1 p2,
    reorder arrayMove (blocksOf axis s) activeId overId = Done paged ∧
    findBlock (id p) paged = Some p1 ∧
    findBlock (id p) stored = Some p2 ∧
    children p1 = children p2.
Proof.
  intros Hf Hp Ha Ho stored. subst stored.
  unfold reorderBlock. rewrite blocksOf_withBlocks.
  set (blocks := blocksOf axis s) in *.
  pose proof (forest_ids _ Hf) as Hids.
  destruct (forest_down _ Hf p activeId Hp Ha) as (ab & Hab & Haid & Hapar).
  destruct (forest_down _ Hf p overId Hp Ho) as (ob & Hob & Hoid & Hopar).
  destruct (reorderChildren_elem _ _ _ Ha Ho)
    as (from & to & Hfrom & Hto & Hla & Hlo & Hr).
  apply list_elem_of_lookup in Hp as [i Hi].
  assert (reorderBlocks (id p) activeId overId blocks
          = <[i := setChildren p (moveItem from to (children p))]> blocks)
    as Hstore.
  { unfold reorderBlocks. by rewrite (findIndex_unique _ _ _ Hids Hi), Hr. }
  assert (reorder arrayMove blocks activeId overId
          = Done (<[i := setChildren p (moveItem from to (children p))]> blocks))
    as Hpage.
  { assert (findBlock activeId blocks = Some ab) as Hfa
      by (rewrite <-Haid; by apply findBlock_unique).
    assert (findBlock overId blocks = Some ob) as Hfo
      by (rewrite <-Hoid; by apply findBlock_unique).
    assert (findBlock (id p) blocks = Some p) as Hfp
      by (apply findBlock_unique; [done|by eapply list_elem_of_lookup_2]).
    unfold reorder. cbn zeta. rewrite !buildMap_lookup by done.
    rewrite Hfa, Hfo, decide_True by congruence.
    rewrite Hapar. cbn [mbind option_bind].
    rewrite buildMap_lookup, Hfp by done.
    rewrite Haid, Hoid, Hfrom, Hto.
    rewrite arrayMove_moves by (by eapply lookup_lt_Some).
    f_equal. by apply fmap_replace_unique. }
  rewrite Hstore. split; [done|].
  assert (findBlock (id p)
            (<[i := setChildren p (moveItem from to (children p))]> blocks)
          = Some (setChildren p (moveItem from to (children p)))) as Hfound.
  { apply (findBlock_unique _ (setChildren p _)).
    - by rewrite list_fmap_insert, list_insert_id
        by (by rewrite list_lookup_fmap, Hi).
    - apply list_elem_of_insert. by eapply lookup_lt_Some. }
  eexists _, _, _. split_and!; [exact Hpage|exact Hfound..|done].
Qed.
End reorder_agreement.

Lemma reorder_agrees_witness :
  forest (blocksOf column initialState) ∧
  let p := mkBlock "COL_X" "Col-X" (Some "COL_ROOT") ["X1"; "X2"] in
  let stored :=
    blocksOf column (reorderBlock column (id p) "X2" "X1" initialState) in
  reorder arrayMove_splice (blocksOf column initialState) "X2" "X1"
  = Done stored ∧
  ∃ paged p1 p2,
    reorder arrayMove_splice (blocksOf column initialState) "X2" "X1"
    = Done paged ∧
    findBlock (id p) paged = Some p1 ∧
    findBlock (id p) stored = Some p2 ∧
    children p1 = children p2.
Proof.
  split; [apply initialState_forest|].
  apply (reorder_agrees arrayMove_splice
           (λ l i j, arrayMove_splice_moveItem l i j) initialState column
           (mkBlock "COL_X" "Col-X" (Some "COL_ROOT") ["X1"; "X2"])
           "X2" "X1").
  - apply initialState_forest.
  - cbn. right. left.
  - cbn. right. left.
  - cbn. left.
Defined.

(** ** Insert then delete *)

Lemma setChildren_same p : setChildren p (children p) = p.
Proof. by destruct p. Qed.

Lemma findIndex_insert_same blocks i p p' :
  findIndex (id p) blocks = Some (i, p) → id p' = id p →
  findIndex (id p) (<[i := p']> blocks) = Some (i, p').
Proof.
  intros (Hi & _ & Hmin)%list_find_Some Hid. apply list_find_Some.
  split_and!; [|done|].
  - apply list_lookup_insert_eq. by eapply lookup_lt_Some.
  - intros j x Hj Hlt. rewrite list_lookup_insert_ne in Hj by lia.
    by eapply Hmin.
Qed.

Lemma filter_ids_fresh (x : string) (blocks : list Block) :
  x ∉ id <$> blocks →
  filter (λ b, id b ∉ ({[x]} ∪ ∅ : gset string)) blocks = blocks.
Proof.
  induction blocks as [|b blocks IH]; intros Hx; [done|].
  cbn in Hx. apply not_elem_of_cons in Hx as [Hne Hx].
  rewrite filter_cons_True, IH; [done..|].
  by intros [?%elem_of_singleton|?%not_elem_of_empty]%elem_of_union.
Qed.

(** X10.  On a forest, inserting a fresh block under a parent with a non-empty
    identifier and deleting it again gives back the very list: the parent's
    children and every block are as before. *)
Lemma addBlocks_removeBlocks blocks pid block fuel :
  forest blocks → is_Some (findBlock pid blocks) → fresh pid block blocks →
  pid ≠ "" → 1 ≤ fuel →
  removeBlocks fuel (id block) (addBlocks pid block blocks) = Done blocks.
Proof.
  intros Hf [p [i Hfind]%findBlock_findIndex] (Hfresh & Hnochild & Hpar)
    Hne Hfuel.
  pose proof (findIndex_Some _ _ _ _ Hfind) as (Hi & Hpid & Hp).
  unfold addBlocks. rewrite Hfind.
  set (p' := setChildren p (children p ++ [id block])).
  assert (findIndex (id block) (<[i := p']> blocks ++ [block])
          = Some (length blocks, block)) as Hfn.
  { apply list_find_Some. split_and!; [|done|].
    - rewrite lookup_app_r; rewrite length_insert; [|lia].
      by rewrite Nat.sub_diag.
    - intros j x Hj Hlt Hid. apply Hfresh.
      rewrite lookup_app_l in Hj by (by rewrite length_insert).
      rewrite <-Hid.
      assert (id x ∈ id <$> <[i := p']> blocks) as Hin.
      { apply list_elem_of_fmap_2. by eapply list_elem_of_lookup_2. }
      by rewrite list_fmap_insert, list_insert_id in Hin
        by (by rewrite list_lookup_fmap, Hi). }
  assert (id block ∉ children p) as Hnc.
  { intros Hc. apply Hfresh. by eapply forest_child_id. }
  assert (detach (id block) block (<[i := p']> blocks ++ [block])
          = blocks ++ [block]) as Hdetach.
  { unfold detach. rewrite Hpar, truthy_Some by done.
    rewrite <-Hpid.
    assert (findIndex (id p) (<[i := p']> blocks ++ [block]) = Some (i, p'))
      as ->.
    { unfold findIndex. apply list_find_app_l.
      apply findIndex_insert_same; [by rewrite Hpid|done]. }
    cbn zeta.
    assert (indexOf (id block) (children p')
            = Z.of_nat (length (children p))) as ->.
    { unfold indexOf. cbn.
      rewrite list_find_app_r
        by (apply list_find_None, Forall_forall; by intros c Hc ->).
      cbn. rewrite decide_True by done. cbn. f_equal. }
    rewrite splice_delete. cbn [children p' setChildren].
    rewrite delete_middle, app_nil_r.
    assert (setChildren p' (children p) = p) as -> by (by destruct p).
    rewrite insert_app_l by (rewrite length_insert; by eapply lookup_lt_Some).
    by rewrite list_insert_insert_eq, list_insert_id. }
  unfold removeBlocks. rewrite Hfn. cbn zeta. rewrite Hdetach.
  destruct fuel as [|fuel]; [lia|]. cbn [dfs].
  assert (findBlock (id block) (blocks ++ [block]) = Some block) as ->.
  { apply findBlock_findIndex. exists (length blocks).
    apply list_find_Some. split_and!; [|done|].
    - by rewrite lookup_app_r, Nat.sub_diag.
    - intros j x Hj Hlt Hid. apply Hfresh.
      rewrite lookup_app_l in Hj by done. rewrite <-Hid.
      apply list_elem_of_fmap_2. by eapply list_elem_of_lookup_2. }
  rewrite Hnochild. cbn. f_equal.
  rewrite sweep_filter, filter_app, filter_ids_fresh by done.
  rewrite filter_cons_False, app_nil_r; [done|].
  intros Hout. apply Hout, elem_of_union. left. by apply elem_of_singleton.
Qed.

(** ** What removeBlock deletes *)

Lemma reach_height blocks (h : string → nat) x y :
  (∀ x y, edge blocks x y → h y < h x) → reach blocks x y → h y ≤ h x.
Proof.
  intros Hh. induction 1 as [x|x c y He _ IH]; [done|].
  specialize (Hh x c He). lia.
Qed.

Lemma reach_detached_below blocks blocks1 bid x y :
  forest blocks → Forall2 (related (λ c, c ≠ bid)) blocks1 blocks →
  reach blocks x y → reach blocks bid x → reach blocks1 x y.
Proof.
  intros Hf Hrel. pose proof (forest_ids _ Hf) as Hids.
  destruct (forest_acyclic_list _ Hf) as (h & Hh).
  induction 1 as [x|x c y He _ IH]; intros Hx; [apply rtc_refl|].
  eapply rtc_l; [|apply IH; by eapply rtc_r].
  eapply related_edge_new; [done..|]. intros ->.
  pose proof (reach_height _ h _ _ Hh Hx). specialize (Hh _ _ He). lia.
Qed.

(** Detaching [bid] from its parent does not change the subtree of [bid]. *)
Lemma reach_detached blocks blocks1 bid y :
  forest blocks → Forall2 (related (λ c, c ≠ bid)) blocks1 blocks →
  reach blocks1 bid y ↔ reach blocks bid y.
Proof.
  intros Hf Hrel. split.
  - apply rtc_subrel. intros x c He.
    by destruct (related_edge _ _ _ _ _ Hrel (forest_ids _ Hf) He).
  - intros Hr. eapply reach_detached_below; [done..|apply rtc_refl].
Qed.

(** X9.  On a forest, for a node whose parent identifier is not the empty string,
    [removeBlock] drops from the list exactly the identifiers of the node's
    subtree and keeps the order of the rest; every remaining block keeps its
    identifier, parent and children, except that no child sequence lists the
    node any more; the node's parent remains. *)
Lemma removeBlocks_subtree blocks bid idx b :
  forest blocks → findIndex bid blocks = Some (idx, b) →
  parentId b ≠ Some "" →
  ∃ fuel0 blocks',
    (∀ fuel, fuel0 ≤ fuel → removeBlocks fuel bid blocks = Done blocks') ∧
    (id <$> blocks') `sublist_of` (id <$> blocks) ∧
    (∀ x, x ∈ id <$> blocks' ↔ x ∈ id <$> blocks ∧ ¬ reach blocks bid x) ∧
    (∀ x', x' ∈ blocks' →
       (bid ∉ children x') ∧
       ∃ x, x ∈ blocks ∧ related (λ c, c ≠ bid) x' x) ∧
    (∀ pid, parentId b = Some pid → is_Some (findBlock pid blocks')).
Proof.
  intros Hf Hfind Hpar.
  destruct (removeBlocks_result blocks bid idx b Hf Hfind Hpar)
    as (S & fuel0 & HS & Hrun).
  pose proof (findIndex_Some _ _ _ _ Hfind) as (_ & Hid & Hb).
  pose proof (detach_related _ _ _ Hf Hb Hid Hpar) as Hrel.
  exists fuel0, (filter (λ x, id x ∉ S) (detach bid b blocks)).
  split_and!; [done| | | |].
  - rewrite <-(related_ids _ _ _ Hrel). apply fmap_sublist, sublist_filter.
  - intros x. rewrite <-(related_ids _ _ _ Hrel), !list_elem_of_fmap.
    setoid_rewrite list_elem_of_filter.
    setoid_rewrite HS. setoid_rewrite (reach_detached _ _ _ _ Hf Hrel).
    split.
    + intros (x' & -> & Hout & Hin). split; [by exists x'|done].
    + intros [(x' & -> & Hin) Hout]. by exists x'.
  - intros x' [_ Hx']%list_elem_of_filter.
    destruct (related_old _ _ _ x' Hrel Hx') as (x & Hx & Hr).
    split; [|by exists x].
    destruct Hr as (_ & _ & _ & Hc). intros Hin.
    by destruct (proj1 (Hc bid) Hin).
  - intros pid Hp.
    destruct (forest_up _ Hf b pid Hb Hp) as (p & Hpin & Hpid & Hc).
    destruct (related_new _ _ _ p Hrel Hpin) as (p' & Hp' & Hpi & _).
    assert (p' ∈ filter (λ x, id x ∉ S) (detach bid b blocks)) as Hkept.
    { apply list_elem_of_filter. split; [|done].
      rewrite HS, (reach_detached _ _ _ _ Hf Hrel), Hpi. intros Hr.
      destruct (forest_acyclic_list _ Hf) as (h & Hh).
      pose proof (reach_height _ h _ _ Hh Hr).
      assert (edge blocks (id p) bid) as He.
      { exists p. split; [|by rewrite <-Hid].
        apply findBlock_unique; [apply (forest_ids _ Hf)|done]. }
      specialize (Hh _ _ He). lia. }
    destruct (findBlock pid (filter (λ x, id x ∉ S) (detach bid b blocks)))
      as [q|] eqn:Hq; [by eexists|].
    rewrite findBlock_None in Hq. destruct (Hq p' Hkept). congruence.
Qed.

(** ** A parent whose identifier is the empty string *)

Lemma blankState_forest : forestState blankState.
Proof.
  split; apply (forestCheck_sound blankHeight); vm_compute; reflexivity.
Qed.

Lemma underBlankState_forest : forestState underBlankState.
Proof.
  split; apply (forestCheck_sound blankHeight); vm_compute; reflexivity.
Qed.

(** C1 at a node whose parent is named by the empty string: the state is a
    forest and lists ["N"] under that parent; [removeBlock] takes ["N"] out
    of the flat list and leaves it in the parent's children. *)
Lemma removeBlock_blank_parent :
  forestState underBlankState ∧
  findBlock "N" (rowBlocks underBlankState) = Some underBlank ∧
  children <$> findBlock "" (rowBlocks underBlankState) = Some ["N"] ∧
  ∃ s',
    (∀ fuel, 1 ≤ fuel → removeBlock fuel row "N" underBlankState = Done s') ∧
    findBlock "N" (rowBlocks s') = None ∧
    children <$> findBlock "" (rowBlocks s') = Some ["N"].
Proof.
  split; [exact underBlankState_forest|].
  split; [reflexivity|]. split; [reflexivity|].
  eexists. split_and!.
  - intros fuel Hfuel. destruct fuel as [|fuel]; [lia|].
    vm_compute. reflexivity.
  - reflexivity.
  - reflexivity.
Qed.

(** C2 under a parent named by the empty string: the state is a forest, the
    parent has no children, the block is fresh; after [addBlock] and
    [removeBlock] the parent's children are [["N"]], not the empty sequence
    they were. *)
Lemma addBlock_removeBlock_blank_parent :
  forestState blankState ∧
  fresh "" underBlank (rowBlocks blankState) ∧
  children <$> findBlock "" (rowBlocks blankState) = Some [] ∧
  ∃ s',
    (∀ fuel, 1 ≤ fuel →
       removeBlock fuel row "N" (addBlock row "" underBlank blankState)
       = Done s') ∧
    children <$> findBlock "" (rowBlocks s') = Some ["N"] ∧
    s' ≠ blankState.
Proof.
  split; [exact blankState_forest|]. split.
  { split_and!; [|reflexivity..]. vm_compute.
    intros Hin. repeat (apply elem_of_cons in Hin as [Heq|Hin]; [done|]).
    by apply elem_of_nil in Hin. }
  split; [reflexivity|].
  eexists. split_and!.
  - intros fuel Hfuel. destruct fuel as [|fuel]; [lia|].
    vm_compute. reflexivity.
  - reflexivity.
  - discriminate.
Qed.

(** ** The theorems at the store's initial state *)

Lemma mapAcyclic_below map top : mapAcyclic map → mapAcyclicBelow map top.
Proof. intros (h & Hh). exists h. intros x y _. apply Hh. Qed.

Lemma reorderBlock_moves_witness :
  let p := mkBlock "ROW_ROOT" "RowRoot" None ["ROW_A"; "ROW_B"] in
  findIndex "ROW_ROOT" (blocksOf row initialState) = Some (0, p) ∧
  ∃ from to : nat,
    indexOf "ROW_A" (children p) = Z.of_nat from ∧
    indexOf "ROW_B" (children p) = Z.of_nat to ∧
    children p !! from = Some "ROW_A" ∧
    children p !! to = Some "ROW_B" ∧
    reorderBlock row "ROW_ROOT" "ROW_A" "ROW_B" initialState
    = withBlocks row
        (<[0 := setChildren p (moveItem from to (children p))]>
           (blocksOf row initialState)) initialState ∧
    moveItem from to (children p) !! to = Some "ROW_A".
Proof.
  split; [reflexivity|].
  apply (proj1 (reorderBlock_moves initialState row "ROW_ROOT" "ROW_A" "ROW_B")
           0 (mkBlock "ROW_ROOT" "RowRoot" None ["ROW_A"; "ROW_B"])).
  - reflexivity.
  - cbn. left.
  - cbn. right. left.
Defined.

Lemma reorderBlock_frame_witness :
  let b := mkBlock "ROW_A" "Row-A" (Some "ROW_ROOT") ["ROW_A1"; "ROW_A2"] in
  blocksOf row initialState !! 1 = Some b ∧
  ∃ b',
    blocksOf row (reorderBlock row "ROW_A" "ROW_A2" "ROW_A1" initialState) !! 1
    = Some b' ∧
    id b' = id b ∧ label b' = label b ∧ parentId b' = parentId b ∧
    children b' ≡ₚ children b ∧
    (∀ c, c ∈ children b' ↔ c ∈ children b) ∧
    (findIndex "ROW_A" (blocksOf row initialState) ≠ Some (1, b) → b' = b).
Proof.
  split; [reflexivity|].
  apply (proj2 (proj2
           (reorderBlock_frame initialState row "ROW_A" "ROW_A2" "ROW_A1"))
           1 (mkBlock "ROW_A" "Row-A" (Some "ROW_ROOT") ["ROW_A1"; "ROW_A2"])).
  reflexivity.
Defined.

Lemma addBlock_appends_witness :
  let p := mkBlock "COL_Y" "Col-Y" (Some "COL_ROOT") ["Y1"] in
  let n := mkBlock "Y2" "y2" (Some "COL_Y") [] in
  let blocks := blocksOf column initialState in
  let blocks' := blocksOf column (addBlock column "COL_Y" n initialState) in
  findIndex "COL_Y" blocks = Some (2, p) ∧
  blocks' = <[2 := setChildren p (children p ++ [id n])]> blocks ++ [n] ∧
  length blocks' = S (length blocks) ∧
  blocks' !! length blocks = Some n ∧
  blocks' !! 2 = Some (setChildren p (children p ++ [id n])) ∧
  (∀ j, j ≠ 2 → j < length blocks → blocks' !! j = blocks !! j) ∧
  blocksOf (otherAxis column) (addBlock column "COL_Y" n initialState)
  = blocksOf (otherAxis column) initialState.
Proof.
  split; [reflexivity|].
  apply (proj1 (addBlock_appends initialState column "COL_Y"
                  (mkBlock "Y2" "y2" (Some "COL_Y") []))
           2 (mkBlock "COL_Y" "Col-Y" (Some "COL_ROOT") ["Y1"])).
  reflexivity.
Defined.

Lemma missing_target_noop_witness :
  targetsAbsent (RemoveBlock column "ROW_A") initialState ∧
  run 0 (RemoveBlock column "ROW_A") initialState = Done initialState.
Proof.
  split; [reflexivity|].
  apply (missing_target_noop (RemoveBlock column "ROW_A") initialState 0).
  reflexivity.
Defined.

Lemma leafCount_flattenLeaves_witness :
  ∃ fuel0 leaves, ∀ fuel, fuel0 ≤ fuel →
    flattenLeaves fuel "COL_ROOT" (buildMap (columnBlocks initialState))
    = Done leaves ∧
    leafCount fuel "COL_ROOT" (buildMap (columnBlocks initialState))
    = Done (length leaves).
Proof.
  apply (leafCount_flattenLeaves (buildMap (columnBlocks initialState))
           "COL_ROOT").
  - apply forest_mapClosed, initialState_forest.
  - apply mapAcyclic_below, forest_mapAcyclic, initialState_forest.
  - vm_compute. eexists. reflexivity.
Defined.

Lemma helpers_terminate_witness :
  ∃ fuel0 n leaves removeIds, ∀ fuel, fuel0 ≤ fuel →
    leafCount fuel "ROW_ROOT" (buildMap (rowBlocks initialState)) = Done n ∧
    flattenLeaves fuel "ROW_ROOT" (buildMap (rowBlocks initialState))
    = Done leaves ∧
    dfs fuel (rowBlocks initialState) "ROW_A" ∅ = Done removeIds.
Proof.
  apply (helpers_terminate (buildMap (rowBlocks initialState))
           (rowBlocks initialState) "ROW_ROOT" "ROW_A").
  - apply forest_mapClosed, initialState_forest.
  - apply forest_mapAcyclic, initialState_forest.
  - vm_compute. eexists. reflexivity.
  - apply forest_acyclic_list, initialState_forest.
Defined.

(** The values at the initial state: three column leaves. *)
Example initial_column_leaves :
  flattenLeaves 3 "COL_ROOT" (buildMap (columnBlocks initialState))
  = Done ["X1"; "X2"; "Y1"] ∧
  leafCount 3 "COL_ROOT" (buildMap (columnBlocks initialState)) = Done 3.
Proof. split; vm_compute; reflexivity. Qed.

(** A cycle exhausts any fuel, and a dangling child is a type error. *)
Example cyclic_map_runs_out fuel :
  leafCount fuel "A" {[ "A" := mkBlock "A" "a" None ["A"] ]} = OutOfFuel.
Proof.
  induction fuel as [|fuel IH]; [done|].
  cbn [leafCount]. rewrite lookup_singleton_eq. cbn. by rewrite IH.
Qed.

Example dangling_child_fails :
  leafCount 2 "A" {[ "A" := mkBlock "A" "a" None ["B"] ]} = TypeError.
Proof. vm_compute. reflexivity. Qed.

(** Outside the invariant: when the parent does not list the node,
    [indexOf] answers [-1] and [splice(-1, 1)] drops the parent's last
    child. *)
Example detach_unlisted_drops_last :
  let orphan := mkBlock "O" "o" (Some "P") [] in
  let blocks := [mkBlock "P" "p" None ["A"; "B"]; orphan] in
  detach "O" orphan blocks = [mkBlock "P" "p" None ["A"]; orphan].
Proof. vm_compute. reflexivity. Qed.

(** ** More on the store's actions *)

Lemma findIndex_insert_other k blocks i p p' j x :
  blocks !! i = Some p → id p' = id p → j ≠ i →
  findIndex k blocks = Some (j, x) →
  findIndex k (<[i := p']> blocks) = Some (j, x).
Proof.
  intros Hi Hid Hne (Hj & Hk & Hmin)%list_find_Some. apply list_find_Some.
  split_and!; [by rewrite list_lookup_insert_ne|done|].
  intros m y Hm Hlt. destruct (decide (m = i)) as [->|Hmi].
  - rewrite list_lookup_insert_eq in Hm by (by eapply lookup_lt_Some).
    assert (y = p') as -> by congruence. rewrite Hid. by eapply Hmin.
  - rewrite list_lookup_insert_ne in Hm by done. by eapply Hmin.
Qed.

Lemma findIndex_insert_hit k blocks i p p' :
  id p' = id p → findIndex k blocks = Some (i, p) →
  findIndex k (<[i := p']> blocks) = Some (i, p').
Proof.
  intros Hid Hf. pose proof (findIndex_Some _ _ _ _ Hf) as (_ & <- & _).
  by apply findIndex_insert_same.
Qed.

Lemma findIndex_insert_None k blocks i p p' :
  blocks !! i = Some p → id p' = id p →
  findIndex k blocks = None → findIndex k (<[i := p']> blocks) = None.
Proof.
  intros Hi Hid Hnone. apply findIndex_None. intros x Hx.
  rewrite findIndex_None in Hnone.
  apply list_elem_of_lookup in Hx as [j Hj].
  destruct (decide (j = i)) as [->|Hne].
  - rewrite list_lookup_insert_eq in Hj by (by eapply lookup_lt_Some).
    assert (x = p') as -> by congruence. rewrite Hid.
    apply Hnone. by eapply list_elem_of_lookup_2.
  - rewrite list_lookup_insert_ne in Hj by done.
    apply Hnone. by eapply list_elem_of_lookup_2.
Qed.

(** X1.  Renaming a block that is found: afterwards [find] returns that block
    with the new label and its identifier, parent and children untouched;
    every other index, the length and the other axis are unchanged. *)
Theorem updateLabel_found (s : BlockState) (axis : Axis) (bid newLabel : string)
    (i : nat) (b : Block) :
  findIndex bid (blocksOf axis s) = Some (i, b) →
  let s' := updateLabel axis bid newLabel s in
  findIndex bid (blocksOf axis s')
  = Some (i, mkBlock (id b) newLabel (parentId b) (children b)) ∧
  length (blocksOf axis s') = length (blocksOf axis s) ∧
  (∀ j, j ≠ i → blocksOf axis s' !! j = blocksOf axis s !! j) ∧
  blocksOf (otherAxis axis) s' = blocksOf (otherAxis axis) s.
Proof.
  intros Hf s'. subst s'. unfold updateLabel.
  rewrite blocksOf_withBlocks, blocksOf_withBlocks_other.
  unfold updateLabels. rewrite Hf. split_and!; [| | |done].
  - by apply (findIndex_insert_hit bid _ i b (setLabel b newLabel)).
  - by rewrite length_insert.
  - intros j Hne. by rewrite list_lookup_insert_ne.
Qed.

Lemma updateLabel_found_witness :
  let b := mkBlock "ROW_B" "Row-B" (Some "ROW_ROOT") ["ROW_B1"] in
  let s' := updateLabel row "ROW_B" "Beta" initialState in
  findIndex "ROW_B" (blocksOf row initialState) = Some (2, b) ∧
  findIndex "ROW_B" (blocksOf row s')
  = Some (2, mkBlock (id b) "Beta" (parentId b) (children b)) ∧
  length (blocksOf row s') = length (blocksOf row initialState) ∧
  (∀ j, j ≠ 2 → blocksOf row s' !! j = blocksOf row initialState !! j) ∧
  blocksOf (otherAxis row) s' = blocksOf (otherAxis row) initialState.
Proof.
  split; [reflexivity|].
  apply (updateLabel_found initialState row "ROW_B" "Beta" 2
           (mkBlock "ROW_B" "Row-B" (Some "ROW_ROOT") ["ROW_B1"])).
  reflexivity.
Defined.

Lemma updateLabels_twice bid l1 l2 blocks :
  updateLabels bid l2 (updateLabels bid l1 blocks) = updateLabels bid l2 blocks.
Proof.
  unfold updateLabels at 2 3.
  destruct (findIndex bid blocks) as [[i b]|] eqn:Hf.
  - unfold updateLabels.
    rewrite (findIndex_insert_hit bid blocks i b (setLabel b l1)) by done.
    by rewrite list_insert_insert_eq.
  - unfold updateLabels. by rewrite Hf.
Qed.

(** X2.  Renaming twice is renaming once with the last label, in any state. *)
Theorem updateLabel_last_wins (s : BlockState) (axis : Axis)
    (bid l1 l2 : string) :
  updateLabel axis bid l2 (updateLabel axis bid l1 s)
  = updateLabel axis bid l2 s.
Proof.
  unfold updateLabel. rewrite blocksOf_withBlocks, updateLabels_twice.
  by destruct axis.
Qed.

(** X3.  Dropping a header on itself: [reorderBlock] with [activeId = overId]
    leaves the state as it is, whatever the parent and the identifier. *)
Theorem reorderBlock_onto_itself (s : BlockState) (axis : Axis)
    (pid x : string) :
  reorderBlock axis pid x x s = s.
Proof.
  unfold reorderBlock, reorderBlocks.
  destruct (findIndex pid (blocksOf axis s)) as [[i p]|] eqn:Hf;
    [|apply withBlocks_same].
  destruct (reorderChildren (children p) x x) as [cs|] eqn:Hr;
    [|apply withBlocks_same].
  apply findIndex_Some in Hf as (Hi & _ & _).
  assert (cs = children p) as ->.
  { destruct (decide (x ∈ children p)) as [Hx|Hx];
      [|by rewrite reorderChildren_not_elem in Hr by auto].
    destruct (reorderChildren_elem _ _ _ Hx Hx)
      as (from & to & Hfrom & Hto & _ & _ & Hcs).
    assert (from = to) as -> by lia.
    rewrite moveItem_same in Hcs. congruence. }
  rewrite setChildren_same, list_insert_id by done. apply withBlocks_same.
Qed.

Lemma reorder_update_commute pid a o bid l blocks :
  reorderBlocks pid a o (updateLabels bid l blocks)
  = updateLabels bid l (reorderBlocks pid a o blocks).
Proof.
  unfold updateLabels at 1.
  destruct (findIndex bid blocks) as [[j b]|] eqn:Hb.
  - pose proof (findIndex_Some _ _ _ _ Hb) as (Hj & _ & _).
    unfold reorderBlocks at 2.
    destruct (findIndex pid blocks) as [[i p]|] eqn:Hp.
    + pose proof (findIndex_Some _ _ _ _ Hp) as (Hi & _ & _).
      destruct (decide (i = j)) as [->|Hne].
      * assert (p = b) as -> by congruence.
        unfold reorderBlocks.
        rewrite (findIndex_insert_hit pid blocks j b (setLabel b l)) by done.
        cbn [children setLabel].
        destruct (reorderChildren (children b) a o) as [cs|] eqn:Hr.
        -- unfold updateLabels.
           rewrite (findIndex_insert_hit bid blocks j b (setChildren b cs))
             by done.
           by rewrite !list_insert_insert_eq.
        -- unfold updateLabels. by rewrite Hb.
      * unfold reorderBlocks.
        rewrite (findIndex_insert_other pid blocks j b (setLabel b l) i p)
          by done.
        destruct (reorderChildren (children p) a o) as [cs|] eqn:Hr.
        -- unfold updateLabels.
           rewrite (findIndex_insert_other bid blocks i p (setChildren p cs) j b)
             by done.
           by apply list_insert_insert_ne.
        -- unfold updateLabels. by rewrite Hb.
    + unfold reorderBlocks.
      rewrite (findIndex_insert_None pid blocks j b (setLabel b l)) by done.
      unfold updateLabels. by rewrite Hb.
  - unfold reorderBlocks.
    destruct (findIndex pid blocks) as [[i p]|] eqn:Hp.
    + pose proof (findIndex_Some _ _ _ _ Hp) as (Hi & _ & _).
      destruct (reorderChildren (children p) a o) as [cs|] eqn:Hr.
      * unfold updateLabels.
        by rewrite (findIndex_insert_None bid blocks i p (setChildren p cs)).
      * unfold updateLabels. by rewrite Hb.
    + unfold updateLabels. by rewrite Hb.
Qed.

(** X4.  Renaming and reordering commute, on the same axis or on different ones,
    in any state. *)
Theorem updateLabel_reorderBlock_commute (s : BlockState) (ax1 ax2 : Axis)
    (pid activeId overId bid newLabel : string) :
  reorderBlock ax1 pid activeId overId (updateLabel ax2 bid newLabel s)
  = updateLabel ax2 bid newLabel (reorderBlock ax1 pid activeId overId s).
Proof.
  unfold reorderBlock, updateLabel.
  destruct ax1, ax2; cbn; f_equal; apply reorder_update_commute.
Qed.

(** ** The getters and the lists they are built from *)

Lemma findBlock_cons k b blocks :
  findBlock k (b :: blocks)
  = if decide (id b = k) then Some b else findBlock k blocks.
Proof.
  unfold findBlock, findIndex. cbn.
  destruct (decide (id b = k)); [done|].
  by destruct (list_find _ blocks) as [[??]|].
Qed.

Lemma buildMap_last_wins blocks k :
  buildMap blocks !! k = findBlock k (reverse blocks).
Proof.
  induction blocks as [|b blocks IH] using rev_ind; [done|].
  rewrite buildMap_snoc, reverse_snoc, findBlock_cons.
  destruct (decide (id b = k)) as [<-|Hne].
  - by rewrite lookup_insert_eq.
  - by rewrite lookup_insert_ne.
Qed.

(** X5.  [getRowMap] and [getColumnMap] hold, under each identifier, the last
    block of the list with that identifier (where [find] takes the first);
    a value's [id] is its key, and the keys are the identifiers of the
    list. *)
Theorem getters_last_wins (s : BlockState) (k : string) :
  getRowMap s !! k = findBlock k (reverse (rowBlocks s)) ∧
  getColumnMap s !! k = findBlock k (reverse (columnBlocks s)) ∧
  (∀ b, getRowMap s !! k = Some b ∨ getColumnMap s !! k = Some b → id b = k) ∧
  (is_Some (getRowMap s !! k) ↔ k ∈ id <$> rowBlocks s) ∧
  (is_Some (getColumnMap s !! k) ↔ k ∈ id <$> columnBlocks s).
Proof.
  unfold getRowMap, getColumnMap. rewrite !buildMap_last_wins.
  assert (∀ blocks, is_Some (findBlock k (reverse blocks))
                    ↔ k ∈ id <$> blocks) as Hdom.
  { intros blocks. rewrite list_elem_of_fmap. split.
    - intros [b [Hid Hin]%findBlock_Some]. exists b.
      split; [done|]. by apply elem_of_reverse.
    - intros (b & -> & Hin).
      destruct (findBlock (id b) (reverse blocks)) as [x|] eqn:Hf; [by eexists|].
      rewrite findBlock_None in Hf. destruct (Hf b); [|done].
      by apply elem_of_reverse. }
  split_and!; [done..| |apply Hdom|apply Hdom].
  intros b [[? _]%findBlock_Some|[? _]%findBlock_Some]; done.
Qed.

(** With one identifier used twice the two lookups differ. *)
Example getRowMap_find_differ :
  let s := mkState [mkBlock "A" "first" None []; mkBlock "A" "second" None []]
             [] in
  label <$> findBlock "A" (rowBlocks s) = Some "first" ∧
  label <$> getRowMap s !! "A" = Some "second".
Proof. split; vm_compute; reflexivity. Qed.

(** ** Lookups after insert and delete *)

(** X6.  After an insert under a parent that is found, the getters' map holds the
    new block under its identifier, taken or not; [find] reaches the new
    block, at the end of the list, exactly when no earlier block has the
    identifier. *)
Theorem addBlock_then_lookup (s : BlockState) (axis : Axis) (pid : string)
    (block : Block) :
  is_Some (findBlock pid (blocksOf axis s)) →
  let blocks := blocksOf axis s in
  let blocks' := blocksOf axis (addBlock axis pid block s) in
  buildMap blocks' !! id block = Some block ∧
  (id block ∉ id <$> blocks →
     findIndex (id block) blocks' = Some (length blocks, block)) ∧
  (id block ∈ id <$> blocks →
     ∃ j x, findIndex (id block) blocks' = Some (j, x) ∧ j < length blocks).
Proof.
  intros [p [i Hf]%findBlock_findIndex] blocks blocks'. subst blocks'.
  unfold addBlock. rewrite blocksOf_withBlocks. fold blocks in Hf |- *.
  unfold addBlocks. rewrite Hf.
  pose proof (findIndex_Some _ _ _ _ Hf) as (Hi & Hpid & _).
  set (p' := setChildren p (children p ++ [id block])).
  assert (id <$> <[i := p']> blocks = id <$> blocks) as Hids.
  { by rewrite list_fmap_insert, list_insert_id
      by (by rewrite list_lookup_fmap, Hi). }
  split_and!.
  - by rewrite buildMap_snoc, lookup_insert_eq.
  - intros Hfresh. apply list_find_Some. split_and!; [|done|].
    + rewrite lookup_app_r; rewrite length_insert; [|lia].
      by rewrite Nat.sub_diag.
    + intros j x Hj Hlt Hid. apply Hfresh.
      rewrite lookup_app_l in Hj by (by rewrite length_insert).
      rewrite <-Hid, <-Hids.
      apply list_elem_of_fmap_2. by eapply list_elem_of_lookup_2.
  - intros Htaken. rewrite <-Hids in Htaken.
    apply list_elem_of_fmap in Htaken as (x & Hid & Hx).
    destruct (list_find_elem_of (λ b, id b = id block)
                (<[i := p']> blocks) x Hx) as [[j y] Hfind]; [done|].
    exists j, y. split.
    + unfold findIndex. by apply list_find_app_l.
    + apply list_find_Some in Hfind as (Hj & _ & _).
      apply lookup_lt_Some in Hj. by rewrite length_insert in Hj.
Qed.

Lemma addBlock_then_lookup_witness :
  let n := mkBlock "Y2" "y2" (Some "COL_Y") [] in
  let blocks := blocksOf column initialState in
  let blocks' := blocksOf column (addBlock column "COL_Y" n initialState) in
  getColumnMap (addBlock column "COL_Y" n initialState) !! "Y2" = Some n ∧
  (id n ∉ id <$> blocks →
     findIndex (id n) blocks' = Some (length blocks, n)) ∧
  (id n ∈ id <$> blocks →
     ∃ j x, findIndex (id n) blocks' = Some (j, x) ∧ j < length blocks).
Proof.
  apply (addBlock_then_lookup initialState column "COL_Y"
           (mkBlock "Y2" "y2" (Some "COL_Y") [])).
  vm_compute. eexists. reflexivity.
Defined.

Lemma detach_ids bid block blocks :
  id <$> detach bid block blocks = id <$> blocks.
Proof.
  unfold detach. destruct (parentId block) as [pid|]; [|done].
  destruct (truthy (Some pid)); [|done].
  destruct (findIndex pid blocks) as [[i p]|] eqn:Hf; [|done].
  apply findIndex_Some in Hf as (Hi & _ & _).
  by rewrite list_fmap_insert, list_insert_id
    by (by rewrite list_lookup_fmap, Hi).
Qed.

Lemma forEach_grows (f : string → gset string → outcome (gset string)) cs :
  (∀ c acc S, c ∈ cs → f c acc = Done S → acc ⊆ S) →
  ∀ acc S, forEach f cs acc = Done S → acc ⊆ S.
Proof.
  induction cs as [|c cs IH]; intros Hf acc S; cbn.
  - by intros [= ->].
  - destruct (f c acc) as [S1| |] eqn:Hc; cbn; [|done..].
    intros Hrest. transitivity S1.
    + eapply Hf; [by left|done].
    + eapply IH; [|done]. intros c' acc' S' Hin. apply Hf. by right.
Qed.

(** Whatever the list, a collection that returns holds its start and all it
    was given. *)
Lemma dfs_grows fuel blocks bid acc S :
  dfs fuel blocks bid acc = Done S → bid ∈ S ∧ acc ⊆ S.
Proof.
  revert bid acc S. induction fuel as [|fuel IH]; intros bid acc S; [done|].
  cbn. destruct (findBlock bid blocks) as [b|].
  - intros Hall.
    assert ({[bid]} ∪ acc ⊆ S) as Hsub.
    { eapply forEach_grows; [|done]. intros c acc' S' _ Hc.
      by destruct (IH _ _ _ Hc). }
    split.
    + apply Hsub, elem_of_union. left. by apply elem_of_singleton.
    + intros y Hy. apply Hsub, elem_of_union. by right.
  - intros [= <-]. split.
    + apply elem_of_union. left. by apply elem_of_singleton.
    + intros y Hy. apply elem_of_union. by right.
Qed.

(** X7.  Whenever [removeBlock] returns, in any list (forest or not): no block
    with the deleted identifier is left, for [find] and for the getters'
    map alike, and the identifiers that remain are identifiers of the old
    list, in their old order. *)
Theorem removeBlock_then_lookup (fuel : nat) (bid : string)
    (blocks blocks' : list Block) :
  removeBlocks fuel bid blocks = Done blocks' →
  findBlock bid blocks' = None ∧
  buildMap blocks' !! bid = None ∧
  (id <$> blocks') `sublist_of` (id <$> blocks).
Proof.
  unfold removeBlocks.
  destruct (findIndex bid blocks) as [[idx b]|] eqn:Hf.
  - cbn zeta. destruct (dfs fuel _ bid ∅) as [S| |] eqn:Hdfs; cbn; [|done..].
    intros [= <-]. rewrite sweep_filter.
    apply dfs_grows in Hdfs as [Hin _].
    assert (findBlock bid (filter (λ x, id x ∉ S) (detach bid b blocks))
            = None) as Hnone.
    { apply findBlock_None. intros x [Hout _]%list_elem_of_filter Hid.
      apply Hout. by rewrite Hid. }
    split_and!; [done| |].
    + rewrite buildMap_last_wins. apply findBlock_None.
      intros x Hx. rewrite elem_of_reverse in Hx.
      rewrite findBlock_None in Hnone. by apply Hnone.
    + rewrite <-(detach_ids bid b blocks).
      apply fmap_sublist, sublist_filter.
  - intros [= <-].
    assert (findBlock bid blocks = None) as Hnone
      by (unfold findBlock; by rewrite Hf).
    split_and!; [done| |done].
    rewrite buildMap_last_wins. apply findBlock_None.
    intros x Hx. rewrite elem_of_reverse in Hx.
    rewrite findBlock_None in Hnone. by apply Hnone.
Qed.

Lemma removeBlock_then_lookup_witness :
  ∃ blocks',
    removeBlocks 2 "COL_X" (columnBlocks initialState) = Done blocks' ∧
    findBlock "COL_X" blocks' = None ∧
    buildMap blocks' !! "COL_X" = None ∧
    (id <$> blocks') `sublist_of` (id <$> columnBlocks initialState).
Proof.
  eexists. split; [vm_compute; reflexivity|].
  apply (removeBlock_then_lookup 2 "COL_X" (columnBlocks initialState)).
  vm_compute. reflexivity.
Defined.

(** ** The root's subtree is the whole axis *)

(** In a forest every node is the root or a descendant of it. *)
Lemma forest_connected blocks r x :
  forest blocks → r ∈ blocks → parentId r = None → x ∈ blocks →
  reach blocks (id r) (id x).
Proof.
  intros Hf Hr Hrp Hx. destruct (forest_acyclic _ Hf) as (h & Hh).
  destruct (forest_root _ Hf) as (r0 & _ & _ & Hr0).
  set (M := max_list ((λ b, h (id b)) <$> blocks)).
  assert (∀ b, b ∈ blocks → h (id b) ≤ M) as HM.
  { intros b Hb. apply max_list_elem_of_le.
    by apply (list_elem_of_fmap_2 (λ b, h (id b))). }
  assert (∀ n y, y ∈ blocks → M - h (id y) ≤ n → reach blocks (id r) (id y))
    as Hall; [|by apply (Hall (M - h (id x)))].
  induction n as [|n IH]; intros y Hy Hn.
  - destruct (parentId y) as [p|] eqn:Hp.
    + destruct (forest_up _ Hf y p Hy Hp) as (pb & Hpb & Hpid & Hc).
      specialize (Hh pb (id y) Hpb Hc). specialize (HM pb Hpb). lia.
    + rewrite (Hr0 y Hy Hp), <-(Hr0 r Hr Hrp). apply rtc_refl.
  - destruct (parentId y) as [p|] eqn:Hp.
    + destruct (forest_up _ Hf y p Hy Hp) as (pb & Hpb & Hpid & Hc).
      eapply rtc_r.
      * apply (IH pb Hpb). specialize (Hh pb (id y) Hpb Hc). lia.
      * exists pb. split; [|done].
        apply findBlock_unique; [apply (forest_ids _ Hf)|done].
    + rewrite (Hr0 y Hy Hp), <-(Hr0 r Hr Hrp). apply rtc_refl.
Qed.

(** X8.  Deleting the root of a forest deletes every block of the axis. *)
Theorem removeBlock_root_empties (s : BlockState) (axis : Axis) (r : Block) :
  forest (blocksOf axis s) → r ∈ blocksOf axis s → parentId r = None →
  ∃ fuel0, ∀ fuel, fuel0 ≤ fuel →
    removeBlock fuel axis (id r) s = Done (withBlocks axis [] s).
Proof.
  intros Hf Hr Hrp. set (blocks := blocksOf axis s) in *.
  apply list_elem_of_lookup in Hr as [i Hi].
  pose proof (findIndex_unique _ _ _ (forest_ids _ Hf) Hi) as Hfind.
  destruct (removeBlocks_result blocks (id r) i r Hf Hfind)
    as (S & fuel0 & HS & Hrun); [congruence|].
  assert (detach (id r) r blocks = blocks) as Hd
    by (unfold detach; by rewrite Hrp).
  rewrite Hd in HS, Hrun.
  exists fuel0. intros fuel Hfuel. unfold removeBlock. fold blocks.
  rewrite (Hrun fuel Hfuel). cbn. do 2 f_equal.
  assert (∀ l : list Block, (∀ x, x ∈ l → id x ∈ S) →
            filter (λ x, id x ∉ S) l = []) as Hnil.
  { induction l as [|x l IH]; intros Hl; [done|].
    rewrite filter_cons_False by (intros Hout; apply Hout, Hl; by left).
    apply IH. intros y Hy. apply Hl. by right. }
  apply Hnil. intros x Hx. apply HS.
  eapply forest_connected; [done| |done..]. by eapply list_elem_of_lookup_2.
Qed.

Lemma removeBlock_root_empties_witness :
  ∃ fuel0, ∀ fuel, fuel0 ≤ fuel →
    removeBlock fuel column "COL_ROOT" initialState
    = Done (withBlocks column [] initialState).
Proof.
  apply (removeBlock_root_empties initialState column
           (mkBlock "COL_ROOT" "ColRoot" None ["COL_X"; "COL_Y"])).
  - apply initialState_forest.
  - cbn. left.
  - reflexivity.
Defined.

(** ** What the leaf list holds *)

Lemma flatMap_Done_inv {A B} (f : A → outcome (list B)) cs l :
  flatMap f cs = Done l →
  (∀ c, c ∈ cs → ∃ lc, f c = Done lc) ∧
  (∀ y, y ∈ l ↔ ∃ c lc, c ∈ cs ∧ f c = Done lc ∧ y ∈ lc).
Proof.
  revert l. induction cs as [|c cs IH]; intros l; cbn.
  - intros [= <-]. split.
    + by intros c ?%elem_of_nil.
    + intros y. split; [by intros ?%elem_of_nil|].
      by intros (c & lc & ?%elem_of_nil & _).
  - destruct (f c) as [x| |] eqn:Hc; cbn; [|done..].
    destruct (flatMap f cs) as [r| |] eqn:Hr; cbn; [|done..].
    intros [= <-]. destruct (IH r eq_refl) as [Hall Hmem]. split.
    + intros c' [->|Hin]%elem_of_cons; [by eexists|by apply Hall].
    + intros y. rewrite elem_of_app, Hmem. split.
      * intros [Hy|(c' & lc & Hin & Hf & Hy)].
        -- exists c, x. split_and!; [by left|done..].
        -- exists c', lc. split_and!; [by right|done..].
      * intros (c' & lc & [->|Hin]%elem_of_cons & Hf & Hy).
        -- left. congruence.
        -- right. by exists c', lc.
Qed.

Lemma flattenLeaves_nonempty map fuel bid l :
  flattenLeaves fuel bid map = Done l → l ≠ [].
Proof.
  revert bid l. induction fuel as [|fuel IH]; intros bid l; [done|].
  cbn. destruct (map !! bid) as [b|]; [|done].
  destruct (decide (length (children b) = 0)) as [|Hne]; [by intros [= <-]|].
  destruct (children b) as [|c cs]; [done|]. cbn.
  destruct (flattenLeaves fuel c map) as [x| |] eqn:Hc; cbn; [|done..].
  destruct (flatMap _ cs) as [r| |]; cbn; [|done..].
  intros [= <-]. apply IH in Hc. by destruct x.
Qed.

(** X12.  A span is never zero: whenever [leafCount] returns, it returns at least
    one, and [flattenLeaves] never returns the empty list. *)
Theorem leafCount_positive (map : gmap string Block) (fuel : nat)
    (bid : string) :
  (∀ n, leafCount fuel bid map = Done n → 1 ≤ n) ∧
  (∀ l, flattenLeaves fuel bid map = Done l → l ≠ []).
Proof.
  split; [|apply flattenLeaves_nonempty].
  intros n. rewrite leafCount_as_length.
  intros (l & Hl & ->)%omap_Done.
  apply flattenLeaves_nonempty in Hl. destruct l; [done|cbn; lia].
Qed.

Lemma leafCount_positive_witness :
  leafCount 2 "COL_X" (buildMap (columnBlocks initialState)) = Done 2 ∧
  1 ≤ 2.
Proof.
  split; [vm_compute; reflexivity|].
  apply (proj1 (leafCount_positive (buildMap (columnBlocks initialState))
                  2 "COL_X") 2).
  vm_compute. reflexivity.
Defined.

Lemma flattenLeaves_holds_leaves_aux (map : gmap string Block) fuel top l :
  flattenLeaves fuel top map = Done l →
  ∀ y, y ∈ l ↔
       rtc (mapEdge map) top y ∧ ∃ b, map !! y = Some b ∧ children b = [].
Proof.
  revert top l. induction fuel as [|fuel IH]; intros top l; [done|].
  cbn. destruct (map !! top) as [b|] eqn:Hb; [|done].
  destruct (decide (length (children b) = 0)) as [Hleaf|Hinner].
  - intros [= <-] y. rewrite list_elem_of_singleton. split.
    + intros ->. split; [apply rtc_refl|].
      exists b. split; [done|]. by destruct (children b).
    + intros [[->|(c & (b' & Hb' & Hc) & _)]%rtc_inv _]; [done|].
      assert (b' = b) as -> by congruence.
      destruct (children b); [by apply elem_of_nil in Hc|done].
  - intros Hfm. destruct (flatMap_Done_inv _ _ _ Hfm) as [_ Hmem].
    intros y. rewrite Hmem. split.
    + intros (c & lc & Hc & Hlc & Hy).
      destruct (proj1 (IH c lc Hlc y) Hy) as [Hr Hl]. split; [|done].
      eapply rtc_l; [|done]. by exists b.
    + intros [[->|(c & (b' & Hb' & Hc) & Hr)]%rtc_inv (yb & Hyb & Hnil)].
      * assert (yb = b) as -> by congruence. by rewrite Hnil in Hinner.
      * assert (b' = b) as -> by congruence.
        destruct (flatMap_Done_inv _ _ _ Hfm) as [Hall _].
        destruct (Hall c Hc) as [lc Hlc].
        exists c, lc. split_and!; [done..|].
        apply (IH c lc Hlc y). split; [done|]. by exists yb.
Qed.


(** X13.  Whenever [flattenLeaves] returns, in any map, its list holds exactly the
    childless nodes of the map that the start reaches through child
    sequences. *)
Theorem flattenLeaves_holds_leaves (map : gmap string Block) (fuel : nat)
    (top : string) (l : list string) :
  flattenLeaves fuel top map = Done l →
  ∀ y, y ∈ l ↔
       rtc (mapEdge map) top y ∧ ∃ b, map !! y = Some b ∧ children b = [].
Proof. apply flattenLeaves_holds_leaves_aux. Qed.

Lemma flattenLeaves_holds_leaves_witness :
  ∃ l, flattenLeaves 3 "ROW_ROOT" (buildMap (rowBlocks initialState)) = Done l ∧
  ∀ y, y ∈ l ↔
       rtc (mapEdge (buildMap (rowBlocks initialState))) "ROW_ROOT" y ∧
       ∃ b, buildMap (rowBlocks initialState) !! y = Some b ∧ children b = [].
Proof.
  eexists. split; [vm_compute; reflexivity|].
  apply (flattenLeaves_holds_leaves (buildMap (rowBlocks initialState)) 3
           "ROW_ROOT").
  vm_compute. reflexivity.
Defined.

(** ** On a forest the leaf list has every leaf once *)

(** Two nodes that both reach [y] lie on one branch. *)
Lemma reach_comparable blocks c1 c2 y :
  forest blocks → reach blocks c1 y → reach blocks c2 y →
  reach blocks c1 c2 ∨ reach blocks c2 c1.
Proof.
  intros Hf H1. revert c2. unfold reach in *. revert y H1.
  apply (rtc_ind_r (λ y, ∀ c2, rtc (edge blocks) c2 y →
           rtc (edge blocks) c1 c2 ∨ rtc (edge blocks) c2 c1));
    [by right|].
  intros z y Hz He IH c2 H2.
  apply rtc_inv_r in H2 as [->|(z' & Hz' & He')].
  - left. by eapply rtc_r.
  - assert (z' = z) as ->; [|by apply IH].
    destruct He as (zb & [Hzid Hzb]%findBlock_Some & Hy).
    destruct (forest_down _ Hf zb y Hzb Hy) as (yb & Hyb & Hyid & _).
    pose proof (edge_parent blocks z y yb Hf) as P1.
    pose proof (edge_parent blocks z' y yb Hf He' Hyb Hyid) as P2.
    rewrite P1 in P2; [congruence| |done..].
    exists zb. split; [|done].
    rewrite <-Hzid. apply findBlock_unique; [apply (forest_ids _ Hf)|done].
Qed.

(** The subtrees of two different children of one node share nothing. *)
Lemma siblings_disjoint blocks x c1 c2 y :
  forest blocks → edge blocks x c1 → edge blocks x c2 → c1 ≠ c2 →
  reach blocks c1 y → reach blocks c2 y → False.
Proof.
  intros Hf E1 E2 Hne H1 H2.
  destruct (forest_acyclic_list _ Hf) as (h & Hh).
  assert (∀ a b, edge blocks x a → edge blocks x b → a ≠ b →
                 reach blocks a b → False) as Hno.
  { intros a b Ea Eb Hab Hr.
    apply rtc_inv_r in Hr as [->|(z & Hz & He)]; [done|].
    assert (z = x) as ->.
    { destruct Eb as (xb & [Hxid Hxb]%findBlock_Some & Hb).
      destruct (forest_down _ Hf xb b Hxb Hb) as (bb & Hbb & Hbid & Hbp).
      pose proof (edge_parent blocks z b bb Hf He Hbb Hbid). congruence. }
    pose proof (reach_height _ h _ _ Hh Hz). specialize (Hh _ _ Ea). lia. }
  destruct (reach_comparable blocks c1 c2 y Hf H1 H2) as [Hr|Hr].
  - by apply (Hno c1 c2).
  - by apply (Hno c2 c1).
Qed.

Lemma flatMap_NoDup {A B} (f : A → outcome (list B)) cs l :
  NoDup cs →
  (∀ c lc, c ∈ cs → f c = Done lc → NoDup lc) →
  (∀ c1 c2 l1 l2 y, c1 ∈ cs → c2 ∈ cs → c1 ≠ c2 →
     f c1 = Done l1 → f c2 = Done l2 → y ∈ l1 → y ∈ l2 → False) →
  flatMap f cs = Done l → NoDup l.
Proof.
  revert l. induction cs as [|c cs IH]; intros l Hnd Heach Hdisj; cbn.
  - intros [= <-]. apply NoDup_nil_2.
  - apply NoDup_cons in Hnd as [Hc Hnd].
    destruct (f c) as [x| |] eqn:Hx; cbn; [|done..].
    destruct (flatMap f cs) as [r| |] eqn:Hr; cbn; [|done..].
    intros [= <-]. apply NoDup_app. split_and!.
    + eapply Heach; [by left|done].
    + intros y Hy Hyr.
      destruct (flatMap_Done_inv _ _ _ Hr) as [_ Hmem].
      apply Hmem in Hyr as (c' & lc & Hc' & Hlc & Hylc).
      eapply (Hdisj c c'); [by left|by right| |done..].
      by intros ->.
    + apply IH; [done| | |done].
      * intros c' lc Hin. apply Heach. by right.
      * intros c1 c2 l1 l2 y H1 H2. apply Hdisj; by right.
Qed.

Lemma flattenLeaves_NoDup blocks fuel top l :
  forest blocks →
  flattenLeaves fuel top (buildMap blocks) = Done l → NoDup l.
Proof.
  intros Hf. pose proof (forest_ids _ Hf) as Hids.
  revert top l. induction fuel as [|fuel IH]; intros top l; [done|].
  cbn. destruct (buildMap blocks !! top) as [b|] eqn:Hb; [|done].
  destruct (decide (length (children b) = 0)) as [Hleaf|Hinner].
  - intros [= <-]. apply NoDup_singleton.
  - apply buildMap_lookup_Some in Hb as [Hbin Hbid]; [|done].
    assert (∀ c, c ∈ children b → edge blocks top c) as Hedge.
    { intros c Hc. exists b. split; [|done].
      rewrite <-Hbid. by apply findBlock_unique. }
    apply flatMap_NoDup.
    + by apply (forest_children _ Hf).
    + intros c lc _. apply IH.
    + intros c1 c2 l1 l2 y H1 H2 Hne Hl1 Hl2 Hy1 Hy2.
      destruct (proj1 (flattenLeaves_holds_leaves_aux _ _ _ _ Hl1 y) Hy1)
        as [R1 _].
      destruct (proj1 (flattenLeaves_holds_leaves_aux _ _ _ _ Hl2 y) Hy2)
        as [R2 _].
      eapply (siblings_disjoint blocks top c1 c2 y); [done|auto..| |].
      * eapply rtc_subrel; [|exact R1]. intros ??. by apply buildMap_edge.
      * eapply rtc_subrel; [|exact R2]. intros ??. by apply buildMap_edge.
Qed.

(** X14.  On a forest, from the root, [flattenLeaves] returns (for all fuel from a
    bound on) a list without repetition that holds exactly the identifiers
    of the childless blocks of the axis, and [leafCount] returns their
    number. *)
Theorem forest_leaves_once (blocks : list Block) (r : Block) :
  forest blocks → r ∈ blocks → parentId r = None →
  ∃ fuel0 l,
    (∀ fuel, fuel0 ≤ fuel →
       flattenLeaves fuel (id r) (buildMap blocks) = Done l ∧
       leafCount fuel (id r) (buildMap blocks) = Done (length l)) ∧
    NoDup l ∧
    ∀ y, y ∈ l ↔ ∃ b, b ∈ blocks ∧ id b = y ∧ children b = [].
Proof.
  intros Hf Hr Hrp. pose proof (forest_ids _ Hf) as Hids.
  destruct (forest_mapAcyclic _ Hf) as (h & Hh).
  destruct (leaves_result (buildMap blocks) (id r) h) as [l Hl].
  { by apply forest_mapClosed. }
  { intros x y _. apply Hh. }
  { exists r. by apply buildMap_lookup_Some. }
  destruct (Hl (S (h (id r)))) as [Hflat _]; [lia|].
  exists (S (h (id r))), l. split_and!.
  - intros fuel Hfuel. apply Hl. lia.
  - by eapply flattenLeaves_NoDup.
  - intros y. rewrite (flattenLeaves_holds_leaves_aux _ _ _ _ Hflat y). split.
    + intros [_ (b & [Hb Hid]%buildMap_lookup_Some & Hnil)]; [|done].
      by exists b.
    + intros (b & Hb & <- & Hnil). split.
      * eapply rtc_subrel; [|by apply (forest_connected blocks r b)].
        intros ??. by apply buildMap_edge.
      * exists b. split; [|done]. by apply buildMap_lookup_Some.
Qed.

Lemma forest_leaves_once_witness :
  ∃ fuel0 l,
    (∀ fuel, fuel0 ≤ fuel →
       flattenLeaves fuel "COL_ROOT" (buildMap (columnBlocks initialState))
       = Done l ∧
       leafCount fuel "COL_ROOT" (buildMap (columnBlocks initialState))
       = Done (length l)) ∧
    NoDup l ∧
    ∀ y, y ∈ l ↔
         ∃ b, b ∈ columnBlocks initialState ∧ id b = y ∧ children b = [].
Proof.
  apply (forest_leaves_once (columnBlocks initialState)
           (mkBlock "COL_ROOT" "ColRoot" None ["COL_X"; "COL_Y"])).
  - apply initialState_forest.
  - cbn. left.
  - reflexivity.
Defined.

(** ** The page's reorder and drag handler *)

Lemma sameBlocks_refl blocks : sameBlocks blocks blocks.
Proof. apply Forall2_same_length_lookup_2; [done|]. intros i x y ??.
  assert (x = y) as -> by congruence. done. Qed.

Lemma sameBlocks_trans l1 l2 l3 :
  sameBlocks l1 l2 → sameBlocks l2 l3 → sameBlocks l1 l3.
Proof.
  unfold sameBlocks. intros H12 H23.
  eapply Forall2_trans; [|done..].
  intros x y z (? & ? & ? & ?) (? & ? & ? & ?).
  split_and!; [congruence..|by etrans].
Qed.

Lemma sameBlocks_ids l1 l2 : sameBlocks l1 l2 → id <$> l1 = id <$> l2.
Proof.
  induction 1 as [|x y l k (Hid & _) _ IH]; [done|]. cbn. by rewrite Hid, IH.
Qed.

Lemma reorderBlocks_same pid a o blocks :
  sameBlocks (reorderBlocks pid a o blocks) blocks.
Proof.
  unfold reorderBlocks.
  destruct (findIndex pid blocks) as [[i p]|] eqn:Hf; [|apply sameBlocks_refl].
  destruct (reorderChildren (children p) a o) as [cs|] eqn:Hr;
    [|apply sameBlocks_refl].
  apply reorderChildren_Some in Hr as (from & to & _ & _ & ->).
  apply findIndex_Some in Hf as (Hi & _ & _).
  apply Forall2_same_length_lookup_2; [by rewrite length_insert|].
  intros j x' x Hx' Hx. destruct (decide (j = i)) as [->|Hne].
  - rewrite list_lookup_insert_eq in Hx' by (by eapply lookup_lt_Some).
    assert (x = p) as -> by congruence.
    assert (x' = setChildren p (moveItem from to (children p))) as ->
      by congruence.
    split_and!; [done..|apply moveItem_Permutation].
  - rewrite list_lookup_insert_ne in Hx' by done.
    assert (x' = x) as -> by congruence. done.
Qed.

Section page_facts.
Variable arrayMove : list string → Z → Z → list string.
Hypothesis arrayMove_moves :
  ∀ (l : list string) (i j : nat),
    i < length l → j < length l →
    arrayMove l (Z.of_nat i) (Z.of_nat j) = moveItem i j l.

(** For two children of one block of a forest the page computes what the
    store computes. *)
Lemma reorder_siblings blocks p a o :
  forest blocks → p ∈ blocks → a ∈ children p → o ∈ children p →
  reorder arrayMove blocks a o = Done (reorderBlocks (id p) a o blocks).
Proof.
  intros Hf Hp Ha Ho. pose proof (forest_ids _ Hf) as Hids.
  destruct (forest_down _ Hf p a Hp Ha) as (ab & Hab & Haid & Hapar).
  destruct (forest_down _ Hf p o Hp Ho) as (ob & Hob & Hoid & Hopar).
  destruct (reorderChildren_elem _ _ _ Ha Ho)
    as (from & to & Hfrom & Hto & Hla & Hlo & Hr).
  apply list_elem_of_lookup in Hp as [i Hi].
  unfold reorderBlocks. rewrite (findIndex_unique _ _ _ Hids Hi), Hr.
  assert (findBlock a blocks = Some ab) as Hfa
    by (rewrite <-Haid; by apply findBlock_unique).
  assert (findBlock o blocks = Some ob) as Hfo
    by (rewrite <-Hoid; by apply findBlock_unique).
  assert (findBlock (id p) blocks = Some p) as Hfp
    by (apply findBlock_unique; [done|by eapply list_elem_of_lookup_2]).
  unfold reorder. cbn zeta. rewrite !buildMap_lookup by done.
  rewrite Hfa, Hfo, decide_True by congruence.
  rewrite Hapar. cbn [mbind option_bind].
  rewrite buildMap_lookup, Hfp by done.
  rewrite Haid, Hoid, Hfrom, Hto.
  rewrite arrayMove_moves by (by eapply lookup_lt_Some).
  f_equal. by apply fmap_replace_unique.
Qed.

Lemma page_reorder_forest_aux (blocks : list Block) (aId bId : string) :
  forest blocks → aId ≠ bId →
  ∃ blocks',
    reorder arrayMove blocks aId bId = Done blocks' ∧
    forest blocks' ∧ sameBlocks blocks' blocks ∧
    ((∀ p, p ∈ blocks → ¬ (aId ∈ children p ∧ bId ∈ children p)) →
     blocks' = blocks).
Proof.
  intros Hf Hne. pose proof (forest_ids _ Hf) as Hids.
  assert (∃ blocks', Done blocks = Done blocks' ∧ forest blocks' ∧
            sameBlocks blocks' blocks ∧
            ((∀ p, p ∈ blocks → ¬ (aId ∈ children p ∧ bId ∈ children p)) →
             blocks' = blocks)) as Hnoop.
  { exists blocks. split_and!; [done..|apply sameBlocks_refl|done]. }
  destruct (findBlock aId blocks) as [ab|] eqn:Hfa;
    [|unfold reorder; cbn zeta; rewrite !buildMap_lookup, Hfa by done;
      exact Hnoop].
  destruct (findBlock bId blocks) as [bb|] eqn:Hfb;
    [|unfold reorder; cbn zeta; rewrite !buildMap_lookup, Hfa, Hfb by done;
      exact Hnoop].
  destruct (decide (parentId ab = parentId bb)) as [Heq|Hdiff];
    [|unfold reorder; cbn zeta; rewrite !buildMap_lookup, Hfa, Hfb by done;
      rewrite decide_False by done; exact Hnoop].
  apply findBlock_Some in Hfa as [Haid Hab].
  apply findBlock_Some in Hfb as [Hbid Hbb].
  destruct (parentId ab) as [pid|] eqn:Hpa.
  - destruct (forest_up _ Hf ab pid Hab Hpa) as (p & Hp & Hpid & Hac).
    destruct (forest_up _ Hf bb pid Hbb) as (p' & Hp' & Hpid' & Hbc);
      [done|].
    assert (p' = p) as -> by (eapply NoDup_ids_eq; [done..|congruence]).
    rewrite Haid in Hac. rewrite Hbid in Hbc.
    exists (reorderBlocks (id p) aId bId blocks). split_and!.
    + by apply reorder_siblings.
    + by apply reorderBlocks_forest.
    + apply reorderBlocks_same.
    + intros Hnone. by destruct (Hnone p Hp).
  - destruct (forest_root _ Hf) as (r0 & _ & _ & Hr0).
    destruct Hne. rewrite <-Haid, <-Hbid.
    rewrite (Hr0 ab Hab Hpa). symmetry. by apply Hr0.
Qed.

(** X15.  On a forest the page's [reorder] returns for every two different
    identifiers, and what it returns is again a forest with the same blocks
    up to the order of children; it is the list itself unless both
    identifiers are children of one block.  With the root given twice it
    throws. *)
Theorem page_reorder_forest (blocks : list Block) (aId bId : string) :
  forest blocks →
  (aId ≠ bId →
   ∃ blocks',
     reorder arrayMove blocks aId bId = Done blocks' ∧
     forest blocks' ∧ sameBlocks blocks' blocks ∧
     ((∀ p, p ∈ blocks → ¬ (aId ∈ children p ∧ bId ∈ children p)) →
      blocks' = blocks)) ∧
  (∀ r, r ∈ blocks → parentId r = None →
     reorder arrayMove blocks (id r) (id r) = TypeError).
Proof.
  intros Hf. split; [by apply page_reorder_forest_aux|].
  pose proof (forest_ids _ Hf) as Hids.
  intros r Hr Hrp. unfold reorder. cbn zeta.
  rewrite !buildMap_lookup, findBlock_unique by done.
  rewrite decide_True by done. by rewrite Hrp.
Qed.

(** X16.  The handler itself, in any state: an identifier that does not start with
    [ROW] leaves the rows alone, one that starts with none of [COL], [X],
    [Y] leaves the columns alone, no drag changes both lists, and a drag
    that ends nowhere or on its own header changes nothing. *)
Theorem onDragEnd_one_axis (e : Page.DragEndEvent) (st st' : Page.State) :
  Page.onDragEnd arrayMove e st = Done st' →
  (String.prefix "ROW" (Page.active e) = false →
     Page.rowBlocks st' = Page.rowBlocks st) ∧
  (String.prefix "COL" (Page.active e) = false →
   String.prefix "X" (Page.active e) = false →
   String.prefix "Y" (Page.active e) = false →
     Page.colBlocks st' = Page.colBlocks st) ∧
  (Page.rowBlocks st' = Page.rowBlocks st
   ∨ Page.colBlocks st' = Page.colBlocks st) ∧
  (Page.over e = None ∨ Page.over e = Some (Page.active e) → st' = st).
Proof.
  unfold Page.onDragEnd. destruct e as [aid [target|]]; cbn;
    [|intros [= <-]; split_and!; [done|done|by left|done]].
  destruct (decide (aid = target)) as [->|Hne];
    [intros [= <-]; split_and!; [done|done|by left|done]|].
  assert (String.prefix "ROW" aid = true →
          (String.prefix "COL" aid || String.prefix "X" aid
           || String.prefix "Y" aid) = false) as Hexcl.
  { destruct aid as [|[[] [] [] [] [] [] [] []] aid]; cbn; try done.
    all: by destruct aid as [|[[] [] [] [] [] [] [] []] ?]. }
  destruct (String.prefix "ROW" aid) eqn:Hrow.
  - rewrite Hexcl by done.
    destruct (reorder arrayMove (Page.rowBlocks st) aid target) as [rows| |];
      cbn; [|done..].
    intros [= <-]. cbn. split_and!; [done|done|by right|].
    intros [?|[= ->]]; done.
  - cbn.
    destruct (String.prefix "COL" aid || String.prefix "X" aid
              || String.prefix "Y" aid) eqn:Hcol.
    + destruct (reorder arrayMove (Page.colBlocks st) aid target) as [cols| |];
        cbn; [|done..].
      intros [= <-]. cbn. split_and!; [done| |by left|].
      * intros H1 H2 H3. by rewrite H1, H2, H3 in Hcol.
      * intros [?|[= ->]]; done.
    + intros [= <-]. split_and!; [done|done|by left|done].
Qed.

Lemma onDragEnd_forest e st :
  forest (Page.rowBlocks st) → forest (Page.colBlocks st) →
  ∃ st', Page.onDragEnd arrayMove e st = Done st' ∧
         forest (Page.rowBlocks st') ∧ forest (Page.colBlocks st') ∧
         sameBlocks (Page.rowBlocks st') (Page.rowBlocks st) ∧
         sameBlocks (Page.colBlocks st') (Page.colBlocks st).
Proof.
  intros Hrows Hcols.
  assert (∃ st', Done st = Done st' ∧
            forest (Page.rowBlocks st') ∧ forest (Page.colBlocks st') ∧
            sameBlocks (Page.rowBlocks st') (Page.rowBlocks st) ∧
            sameBlocks (Page.colBlocks st') (Page.colBlocks st)) as Hnoop.
  { exists st. split_and!; [done..|apply sameBlocks_refl|apply sameBlocks_refl]. }
  unfold Page.onDragEnd. destruct e as [aid [target|]]; cbn; [|done].
  destruct (decide (aid = target)) as [->|Hne]; [done|].
  destruct (String.prefix "ROW" aid).
  - destruct (page_reorder_forest_aux (Page.rowBlocks st) aid target Hrows Hne)
      as (rows & -> & Hf & Hsame & _). cbn.
    destruct (String.prefix "COL" aid || String.prefix "X" aid
              || String.prefix "Y" aid).
    + destruct (page_reorder_forest_aux (Page.colBlocks st) aid target Hcols Hne)
        as (cols & -> & Hf' & Hsame' & _). cbn.
      eexists. split; [done|]. by split_and!.
    + eexists. split; [done|]. cbn. split_and!; [done..|apply sameBlocks_refl].
  - cbn.
    destruct (String.prefix "COL" aid || String.prefix "X" aid
              || String.prefix "Y" aid); [|done].
    destruct (page_reorder_forest_aux (Page.colBlocks st) aid target Hcols Hne)
      as (cols & -> & Hf' & Hsame' & _). cbn.
    eexists. split; [done|]. cbn. split_and!; [done..|apply sameBlocks_refl|done].
Qed.

(** An invariant of the handler is an invariant of every sequence of
    drags. *)
Lemma drags_invariant (P : Page.State → Prop) :
  (∀ e st, P st → ∃ st', Page.onDragEnd arrayMove e st = Done st' ∧ P st') →
  ∀ es st, P st → ∃ st', Page.drags arrayMove es st = Done st' ∧ P st'.
Proof.
  intros Hstep. induction es as [|e es IH]; intros st HP; cbn.
  - by exists st.
  - destruct (Hstep e st HP) as (st1 & -> & HP1). cbn. by apply IH.
Qed.

(** The forests of the page, with the blocks they started from. *)
Lemma forests_step (st0 : Page.State) e st :
  forest (Page.rowBlocks st) ∧ forest (Page.colBlocks st) ∧
  sameBlocks (Page.rowBlocks st) (Page.rowBlocks st0) ∧
  sameBlocks (Page.colBlocks st) (Page.colBlocks st0) →
  ∃ st', Page.onDragEnd arrayMove e st = Done st' ∧
    (forest (Page.rowBlocks st') ∧ forest (Page.colBlocks st') ∧
     sameBlocks (Page.rowBlocks st') (Page.rowBlocks st0) ∧
     sameBlocks (Page.colBlocks st') (Page.colBlocks st0)).
Proof.
  intros (Hr & Hc & Hsr & Hsc).
  destruct (onDragEnd_forest e st Hr Hc) as (st' & Hrun & Hr' & Hc' & Hsr' & Hsc').
  exists st'. split; [done|].
  split_and!; [done..| |]; by eapply sameBlocks_trans.
Qed.

(** X17.  Whatever the drags, a page whose two lists are forests stays so: every
    handler call returns, both lists remain forests, and they keep their
    blocks up to the order of children. *)
Theorem drags_keep_forests (es : list Page.DragEndEvent) (st : Page.State) :
  forest (Page.rowBlocks st) → forest (Page.colBlocks st) →
  ∃ st', Page.drags arrayMove es st = Done st' ∧
         forest (Page.rowBlocks st') ∧ forest (Page.colBlocks st') ∧
         sameBlocks (Page.rowBlocks st') (Page.rowBlocks st) ∧
         sameBlocks (Page.colBlocks st') (Page.colBlocks st).
Proof.
  intros Hrows Hcols.
  apply (drags_invariant _ (forests_step st)).
  split_and!; [done..|apply sameBlocks_refl|apply sameBlocks_refl].
Qed.
End page_facts.

(** ** The rendered table *)

Lemma mapIndexed_length {A B} (f : nat → A → outcome B) i l r :
  mapIndexed f i l = Done r → length r = length l.
Proof.
  revert i r. induction l as [|x l IH]; intros i r; cbn; [by intros [= <-]|].
  destruct (f i x) as [y| |]; cbn; [|done..].
  destruct (mapIndexed f (S i) l) as [r'| |] eqn:Hr; cbn; [|done..].
  intros [= <-]. cbn. f_equal. by eapply IH.
Qed.

Lemma mapIndexed_elem {A B} (f : nat → A → outcome B) i l r y :
  mapIndexed f i l = Done r → y ∈ r → ∃ j x, x ∈ l ∧ f j x = Done y.
Proof.
  revert i r. induction l as [|x l IH]; intros i r; cbn.
  - intros [= <-] Hy. by apply elem_of_nil in Hy.
  - destruct (f i x) as [y'| |] eqn:Hx; cbn; [|done..].
    destruct (mapIndexed f (S i) l) as [r'| |] eqn:Hr; cbn; [|done..].
    intros [= <-] [->|Hy]%elem_of_cons.
    + exists i, x. split; [by left|done].
    + destruct (IH _ _ Hr Hy) as (j & x' & Hin & Hj).
      exists j, x'. split; [by right|done].
Qed.

Lemma mapIndexed_mono {A B} (f g : nat → A → outcome B) i l r :
  (∀ j x y, x ∈ l → f j x = Done y → g j x = Done y) →
  mapIndexed f i l = Done r → mapIndexed g i l = Done r.
Proof.
  revert i r. induction l as [|x l IH]; intros i r Hfg; cbn; [done|].
  destruct (f i x) as [y| |] eqn:Hx; cbn; [|done..].
  rewrite (Hfg i x y) by (done || by left). cbn.
  destruct (mapIndexed f (S i) l) as [r'| |] eqn:Hr; cbn; [|done..].
  rewrite (IH (S i) r'); [done| |done].
  intros j x' y' Hin. apply Hfg. by right.
Qed.

Lemma mapIndexed_total {A B} (f : nat → A → outcome B) i l :
  (∀ j x, x ∈ l → ∃ y, f j x = Done y) → ∃ r, mapIndexed f i l = Done r.
Proof.
  revert i. induction l as [|x l IH]; intros i Hall; cbn; [by eexists|].
  destruct (Hall i x) as [y ->]; [by left|]. cbn.
  destruct (IH (S i)) as [r ->]; [intros; apply Hall; by right|].
  cbn. by eexists.
Qed.

Lemma elem_of_concat {A} (x : A) (ls : list (list A)) :
  x ∈ concat ls ↔ ∃ l, x ∈ l ∧ l ∈ ls.
Proof.
  induction ls as [|l ls IH]; cbn.
  - split; [by intros ?%elem_of_nil|by intros (l & _ & ?%elem_of_nil)].
  - rewrite elem_of_app, IH. split.
    + intros [?|(l' & ? & ?)]; [exists l; split; [done|by left]|].
      exists l'. split; [done|by right].
    + intros (l' & ? & [->|?]%elem_of_cons); [by left|]. right. by exists l'.
Qed.

Lemma getBang_Done {V} (map : gmap string V) k v :
  getBang map k = Done v ↔ map !! k = Some v.
Proof. unfold getBang. destruct (map !! k); naive_solver. Qed.

Lemma buildMap_lookup_id blocks k b : buildMap blocks !! k = Some b → id b = k.
Proof. rewrite buildMap_last_wins. by intros [? _]%findBlock_Some. Qed.

Lemma leafCount_mono map fuel fuel' bid n :
  fuel ≤ fuel' →
  leafCount fuel bid map = Done n → leafCount fuel' bid map = Done n.
Proof.
  intros Hle. rewrite !leafCount_as_length.
  intros (l & Hl & ->)%omap_Done.
  by rewrite (flattenLeaves_mono map fuel fuel' bid l).
Qed.


Lemma leafHeaders_ids map i cs leaves :
  mapIndexed (λ _ cid, Page.leafHeader map cid) i cs = Done leaves →
  Page.leafId <$> leaves = cs.
Proof.
  revert i leaves. induction cs as [|c cs IH]; intros i leaves; cbn.
  - by intros [= <-].
  - unfold Page.leafHeader at 1.
    destruct (getBang map c) as [b| |]; cbn; [|done..].
    destruct (mapIndexed _ (S i) cs) as [ls| |] eqn:Hls; cbn; [|done..].
    intros [= <-]. cbn. f_equal. by eapply IH.
Qed.


Lemma groupHeader_mono map fuel fuel' cid g :
  fuel ≤ fuel' →
  Page.groupHeader fuel map cid = Done g →
  Page.groupHeader fuel' map cid = Done g.
Proof.
  intros Hle. unfold Page.groupHeader.
  destruct (getBang map cid) as [b| |]; cbn -[leafCount]; [|done..].
  destruct (leafCount fuel (id b) map) as [n| |] eqn:Hn; cbn -[leafCount];
    [|done..].
  by rewrite (leafCount_mono map fuel fuel' (id b) n).
Qed.

Lemma bodyRow_mono fuel fuel' rowMap colLeaves gi group li leaf row :
  fuel ≤ fuel' →
  Page.bodyRow fuel rowMap colLeaves gi group li leaf = Done row →
  Page.bodyRow fuel' rowMap colLeaves gi group li leaf = Done row.
Proof.
  intros Hle. unfold Page.bodyRow.
  destruct (decide (gi = 0 ∧ li = 0)).
  - destruct (leafCount fuel "ROW_ROOT" rowMap) as [n| |] eqn:Hn;
      cbn -[leafCount Page.dataMap]; [|done..].
    rewrite (leafCount_mono rowMap fuel fuel' "ROW_ROOT" n) by done.
    cbn -[leafCount Page.dataMap].
    destruct (decide (li = 0)); [|done].
    destruct (leafCount fuel (id group) rowMap) as [m| |] eqn:Hm;
      cbn -[leafCount Page.dataMap]; [|done..].
    by rewrite (leafCount_mono rowMap fuel fuel' (id group) m).
  - cbn -[leafCount Page.dataMap].
    destruct (decide (li = 0)); [|done].
    destruct (leafCount fuel (id group) rowMap) as [m| |] eqn:Hm;
      cbn -[leafCount Page.dataMap]; [|done..].
    by rewrite (leafCount_mono rowMap fuel fuel' (id group) m).
Qed.

(** More fuel never changes the rendered table. *)
Lemma render_mono fuel fuel' st t :
  fuel ≤ fuel' → Page.render fuel st = Done t → Page.render fuel' st = Done t.
Proof.
  intros Hle. unfold Page.render. cbn zeta.
  set (rowMap := buildMap (Page.rowBlocks st)).
  set (colMap := buildMap (Page.colBlocks st)).
  destruct (getBang rowMap "ROW_ROOT") as [rowRoot| |]; cbn [obind]; [|done..].
  destruct (getBang colMap "COL_ROOT") as [colRoot| |]; cbn [obind]; [|done..].
  destruct (flattenLeaves fuel "COL_ROOT" colMap) as [colLeaves| |] eqn:Hfl;
    cbn [obind]; [|done..].
  rewrite (flattenLeaves_mono _ fuel fuel' _ _ Hle Hfl). cbn [obind].
  destruct (mapIndexed (λ _ cid, Page.groupHeader fuel colMap cid) 0
              (children colRoot)) as [groups| |] eqn:Hgroups;
    cbn [obind]; [|done..].
  assert (mapIndexed (λ _ cid, Page.groupHeader fuel' colMap cid) 0
            (children colRoot) = Done groups) as ->.
  { eapply mapIndexed_mono; [|exact Hgroups].
    intros j x y _. by apply groupHeader_mono. }
  cbn [obind].
  destruct (mapIndexed (λ _ cid, Page.leafHeader colMap cid) 0 colLeaves)
    as [leaves| |] eqn:Hleaves; cbn [obind]; [|done..].
  destruct (mapIndexed
              (λ gi gid, group ←o getBang rowMap gid;
                 mapIndexed (Page.bodyRow fuel rowMap colLeaves gi group) 0
                            (children group)) 0 (children rowRoot))
    as [body| |] eqn:Hbody; cbn [obind]; [|done..].
  assert (mapIndexed
            (λ gi gid, group ←o getBang rowMap gid;
               mapIndexed (Page.bodyRow fuel' rowMap colLeaves gi group) 0
                          (children group)) 0 (children rowRoot)
          = Done body) as ->; [|done].
  eapply mapIndexed_mono; [|exact Hbody].
  intros gi gid rows _. cbn beta.
  destruct (getBang rowMap gid) as [group| |]; cbn [obind]; [|done..].
  apply mapIndexed_mono. intros li leaf row _. by apply bodyRow_mono.
Qed.

Lemma leafCount_total blocks (h : string → nat) fuel x :
  forest blocks →
  (∀ x y, mapEdge (buildMap blocks) x y → h y < h x) →
  is_Some (buildMap blocks !! x) → h x < fuel →
  ∃ n, leafCount fuel x (buildMap blocks) = Done n.
Proof.
  intros Hf Hh Hx Hfuel.
  destruct (leaves_result (buildMap blocks) x h) as [l Hl];
    [by apply forest_mapClosed|by intros ???; apply Hh|done|].
  exists (length l). by apply Hl.
Qed.

(** A page whose two lists are forests holding [ROW_ROOT] and [COL_ROOT]
    renders: no lookup fails and no recursion runs away. *)
Lemma render_total st :
  forest (Page.rowBlocks st) → forest (Page.colBlocks st) →
  "ROW_ROOT" ∈ id <$> Page.rowBlocks st →
  "COL_ROOT" ∈ id <$> Page.colBlocks st →
  ∃ fuel0 t, ∀ fuel, fuel0 ≤ fuel → Page.render fuel st = Done t.
Proof.
  intros Hrows Hcols Hrr Hcr.
  set (rowMap := buildMap (Page.rowBlocks st)).
  set (colMap := buildMap (Page.colBlocks st)).
  pose proof (forest_mapClosed _ Hrows) as Hrclosed.
  pose proof (forest_mapClosed _ Hcols) as Hcclosed.
  destruct (forest_mapAcyclic _ Hrows) as (hr & Hhr).
  destruct (forest_mapAcyclic _ Hcols) as (hc & Hhc).
  set (Mr := max_list ((λ b, hr (id b)) <$> Page.rowBlocks st)).
  set (Mc := max_list ((λ b, hc (id b)) <$> Page.colBlocks st)).
  assert (∀ x, is_Some (rowMap !! x) → hr x ≤ Mr) as HMr.
  { intros x [b [Hb <-]%buildMap_lookup_Some]; [|apply (forest_ids _ Hrows)].
    apply max_list_elem_of_le.
    by apply (list_elem_of_fmap_2 (λ b, hr (id b))). }
  assert (∀ x, is_Some (colMap !! x) → hc x ≤ Mc) as HMc.
  { intros x [b [Hb <-]%buildMap_lookup_Some]; [|apply (forest_ids _ Hcols)].
    apply max_list_elem_of_le.
    by apply (list_elem_of_fmap_2 (λ b, hc (id b))). }
  set (fuel0 := S (Mr `max` Mc)).
  assert (∀ x, is_Some (rowMap !! x) →
               ∃ n, leafCount fuel0 x rowMap = Done n) as Hrcount.
  { intros x Hx. apply (leafCount_total _ hr); [done..|].
    specialize (HMr x Hx). unfold fuel0. lia. }
  assert (∀ x, is_Some (colMap !! x) →
               ∃ n, leafCount fuel0 x colMap = Done n) as Hccount.
  { intros x Hx. apply (leafCount_total _ hc); [done..|].
    specialize (HMc x Hx). unfold fuel0. lia. }
  assert (is_Some (rowMap !! "ROW_ROOT")) as [rowRoot Hrowroot].
  { apply list_elem_of_fmap in Hrr as (b & -> & Hb). exists b.
    apply buildMap_lookup_Some; [apply (forest_ids _ Hrows)|done]. }
  assert (is_Some (colMap !! "COL_ROOT")) as [colRoot Hcolroot].
  { apply list_elem_of_fmap in Hcr as (b & -> & Hb). exists b.
    apply buildMap_lookup_Some; [apply (forest_ids _ Hcols)|done]. }
  assert (∃ t, Page.render fuel0 st = Done t) as [t Ht].
  { unfold Page.render. cbn zeta. fold rowMap colMap.
    rewrite (proj2 (getBang_Done rowMap _ _) Hrowroot).
    rewrite (proj2 (getBang_Done colMap _ _) Hcolroot).
    cbn -[flattenLeaves fuel0].
    destruct (Hccount "COL_ROOT") as [n Hn]; [by eexists|].
    rewrite leafCount_as_length in Hn.
    apply omap_Done in Hn as (colLeaves & Hfl & _).
    rewrite Hfl. cbn -[fuel0].
    destruct (mapIndexed_total
                (λ _ cid, Page.groupHeader fuel0 colMap cid) 0
                (children colRoot)) as [groups ->].
    { intros _ cid Hcid. unfold Page.groupHeader.
      destruct (Hcclosed _ _ cid Hcolroot Hcid) as [g Hg].
      rewrite (proj2 (getBang_Done colMap _ _) Hg). cbn -[leafCount fuel0].
      destruct (Hccount (id g)) as [m ->]; [|by eexists].
      rewrite (buildMap_lookup_id _ _ _ Hg). by eexists. }
    cbn -[fuel0].
    destruct (mapIndexed_total (λ _ cid, Page.leafHeader colMap cid) 0
                colLeaves) as [leaves ->].
    { intros _ cid Hcid. unfold Page.leafHeader.
      apply (flattenLeaves_holds_leaves_aux _ _ _ _ Hfl) in Hcid
        as [_ (b & Hb & _)].
      rewrite (proj2 (getBang_Done colMap _ _) Hb). by eexists. }
    cbn -[fuel0].
    destruct (mapIndexed_total
                (λ gi gid, group ←o getBang rowMap gid;
                   mapIndexed (Page.bodyRow fuel0 rowMap colLeaves gi group) 0
                              (children group)) 0
                (children rowRoot)) as [body ->]; [|by eexists].
    intros gi gid Hgid.
    destruct (Hrclosed _ _ gid Hrowroot Hgid) as [group Hgroup].
    rewrite (proj2 (getBang_Done rowMap _ _) Hgroup). cbn -[fuel0].
    apply mapIndexed_total. intros li leaf Hleaf.
    unfold Page.bodyRow.
    destruct (Hrcount "ROW_ROOT") as [n1 ->]; [by eexists|].
    destruct (Hrcount (id group)) as [n2 ->].
    { rewrite (buildMap_lookup_id _ _ _ Hgroup). by eexists. }
    destruct (Hrclosed _ _ leaf Hgroup Hleaf) as [lb Hlb].
    unfold Page.leafHeader.
    rewrite (proj2 (getBang_Done rowMap _ _) Hlb).
    destruct (decide (gi = 0 ∧ li = 0)), (decide (li = 0));
      cbn -[Page.dataMap]; by eexists. }
  exists fuel0, t. intros fuel Hfuel. by eapply render_mono.
Qed.

Section page_session.
Variable arrayMove : list string → Z → Z → list string.
Hypothesis arrayMove_moves :
  ∀ (l : list string) (i j : nat),
    i < length l → j < length l →
    arrayMove l (Z.of_nat i) (Z.of_nat j) = moveItem i j l.

(** X18.  From a page whose two lists are forests holding [ROW_ROOT] and
    [COL_ROOT], every sequence of drags is handled without an exception and
    ends in a state that renders to a table (the same for all fuel from a
    bound on). *)
Theorem page_renders_after_drags (es : list Page.DragEndEvent)
    (st : Page.State) :
  forest (Page.rowBlocks st) → forest (Page.colBlocks st) →
  "ROW_ROOT" ∈ id <$> Page.rowBlocks st →
  "COL_ROOT" ∈ id <$> Page.colBlocks st →
  ∃ st', Page.drags arrayMove es st = Done st' ∧
    ∃ fuel0 t, ∀ fuel, fuel0 ≤ fuel → Page.render fuel st' = Done t.
Proof.
  intros Hrows Hcols Hrr Hcr.
  destruct (drags_invariant arrayMove _
              (forests_step arrayMove arrayMove_moves st) es st)
    as (st' & Hrun & Hr' & Hc' & Hsr & Hsc).
  { split_and!; [done..|apply sameBlocks_refl|apply sameBlocks_refl]. }
  exists st'. split; [done|].
  apply render_total; [done..| |].
  - by rewrite (sameBlocks_ids _ _ Hsr).
  - by rewrite (sameBlocks_ids _ _ Hsc).
Qed.
End page_session.

(** ** The page theorems at the page's initial state *)

Lemma pageInitial_forest :
  forest (Page.rowBlocks Page.initial) ∧ forest (Page.colBlocks Page.initial).
Proof.
  split; apply (forestCheck_sound initialHeight); vm_compute; reflexivity.
Qed.

Lemma page_reorder_forest_witness :
  (("ROW_B" : string) ≠ "ROW_A" →
   ∃ blocks',
     reorder arrayMove_splice Page.initialRowBlocks "ROW_B" "ROW_A"
     = Done blocks' ∧
     forest blocks' ∧ sameBlocks blocks' Page.initialRowBlocks ∧
     ((∀ p, p ∈ Page.initialRowBlocks →
            ¬ ("ROW_B" ∈ children p ∧ "ROW_A" ∈ children p)) →
      blocks' = Page.initialRowBlocks)) ∧
  (∀ r, r ∈ Page.initialRowBlocks → parentId r = None →
     reorder arrayMove_splice Page.initialRowBlocks (id r) (id r) = TypeError).
Proof.
  apply (page_reorder_forest arrayMove_splice
           (λ l i j, arrayMove_splice_moveItem l i j)
           Page.initialRowBlocks "ROW_B" "ROW_A").
  apply pageInitial_forest.
Defined.

Lemma onDragEnd_one_axis_witness :
  let e := Page.mkEvent "ROW_B" (Some "ROW_A") in
  ∃ st',
    Page.onDragEnd arrayMove_splice e Page.initial = Done st' ∧
    (String.prefix "ROW" (Page.active e) = false →
       Page.rowBlocks st' = Page.rowBlocks Page.initial) ∧
    (String.prefix "COL" (Page.active e) = false →
     String.prefix "X" (Page.active e) = false →
     String.prefix "Y" (Page.active e) = false →
       Page.colBlocks st' = Page.colBlocks Page.initial) ∧
    (Page.rowBlocks st' = Page.rowBlocks Page.initial
     ∨ Page.colBlocks st' = Page.colBlocks Page.initial) ∧
    (Page.over e = None ∨ Page.over e = Some (Page.active e) →
     st' = Page.initial).
Proof.
  eexists. split; [vm_compute; reflexivity|].
  apply (onDragEnd_one_axis arrayMove_splice
           (Page.mkEvent "ROW_B" (Some "ROW_A")) Page.initial).
  vm_compute. reflexivity.
Defined.

Lemma drags_keep_forests_witness :
  ∃ st', Page.drags arrayMove_splice sampleDrags Page.initial = Done st' ∧
         forest (Page.rowBlocks st') ∧ forest (Page.colBlocks st') ∧
         sameBlocks (Page.rowBlocks st') (Page.rowBlocks Page.initial) ∧
         sameBlocks (Page.colBlocks st') (Page.colBlocks Page.initial).
Proof.
  apply (drags_keep_forests arrayMove_splice
           (λ l i j, arrayMove_splice_moveItem l i j)
           sampleDrags Page.initial); apply pageInitial_forest.
Defined.

Lemma page_renders_after_drags_witness :
  ∃ st', Page.drags arrayMove_splice sampleDrags Page.initial = Done st' ∧
    ∃ fuel0 t, ∀ fuel, fuel0 ≤ fuel → Page.render fuel st' = Done t.
Proof.
  apply (page_renders_after_drags arrayMove_splice
           (λ l i j, arrayMove_splice_moveItem l i j)
           sampleDrags Page.initial).
  - apply pageInitial_forest.
  - apply pageInitial_forest.
  - cbn. left.
  - cbn. left.
Defined.


(** The initial page: two column groups of span two over four leaves, and
    four body rows of four cells, the first carrying the root span four. *)
Example initial_table_shape :
  ∃ t, Page.render 3 Page.initial = Done t ∧
       Page.span <$> Page.groupRow t = [2; 2] ∧
       Page.leafId <$> Page.leafRow t = ["X1"; "X2"; "Y1"; "Y2"] ∧
       Page.rootSpan <$> Page.bodyRows t = [Some 4; None; None; None] ∧
       Page.cells <$> head (Page.bodyRows t)
       = Some [Some "ROW_A1:X1"; Some "ROW_A1:X2";
               Some "ROW_A1:Y1"; Some "ROW_A1:Y2"].
Proof. eexists. split; [vm_compute; reflexivity|]. by split_and!. Qed.

(** ** The body rows of a two-level tree *)

Lemma flatMap_childless map fuel cs l :
  (∀ c, c ∈ cs → ∃ lb, map !! c = Some lb ∧ children lb = []) →
  flatMap (λ c, flattenLeaves fuel c map) cs = Done l → l = cs.
Proof.
  revert l. induction cs as [|c cs IH]; intros l Hall; cbn -[flattenLeaves].
  - by intros [= <-].
  - destruct (flattenLeaves fuel c map) as [x| |] eqn:Hx;
      cbn -[flattenLeaves]; [|done..].
    destruct (flatMap _ cs) as [r| |] eqn:Hr; cbn -[flattenLeaves]; [|done..].
    intros [= <-]. rewrite (IH r); [|intros; apply Hall; by right|done].
    destruct (Hall c) as (lb & Hlb & Hnil); [by left|].
    destruct fuel as [|fuel]; [done|]. cbn in Hx. rewrite Hlb, Hnil in Hx.
    cbn in Hx. by injection Hx as <-.
Qed.

Lemma flatten_one_level map fuel gid group l :
  map !! gid = Some group → children group ≠ [] →
  (∀ c, c ∈ children group → ∃ lb, map !! c = Some lb ∧ children lb = []) →
  flattenLeaves fuel gid map = Done l → l = children group.
Proof.
  intros Hg Hne Hall. destruct fuel as [|fuel]; [done|]. cbn -[flattenLeaves].
  cbn. rewrite Hg.
  destruct (decide (length (children group) = 0)) as [Hz|_].
  { by destruct (children group). }
  by apply flatMap_childless.
Qed.

Lemma mapIndexed_elem_ge {A B} (f : nat → A → outcome B) i l r y :
  mapIndexed f i l = Done r → y ∈ r →
  ∃ j x, i ≤ j ∧ x ∈ l ∧ f j x = Done y.
Proof.
  revert i r. induction l as [|x l IH]; intros i r; cbn.
  - intros [= <-] Hy. by apply elem_of_nil in Hy.
  - destruct (f i x) as [y'| |] eqn:Hx; cbn; [|done..].
    destruct (mapIndexed f (S i) l) as [r'| |] eqn:Hr; cbn; [|done..].
    intros [= <-] [->|Hy]%elem_of_cons.
    + exists i, x. split_and!; [lia|by left|done].
    + destruct (IH _ _ Hr Hy) as (j & x' & Hj & Hin & Hf).
      exists j, x'. split_and!; [lia|by right|done].
Qed.

Lemma mapIndexed_cons_inv {A B} (f : nat → A → outcome B) i x l r :
  mapIndexed f i (x :: l) = Done r →
  ∃ y r', r = y :: r' ∧ f i x = Done y ∧ mapIndexed f (S i) l = Done r'.
Proof.
  cbn. destruct (f i x) as [y| |]; cbn; [|done..].
  destruct (mapIndexed f (S i) l) as [r'| |]; cbn; [|done..].
  intros [= <-]. by exists y, r'.
Qed.

Lemma bodyRow_inv fuel rowMap colLeaves gi group li leaf r :
  Page.bodyRow fuel rowMap colLeaves gi group li leaf = Done r →
  (gi = 0 ∧ li = 0 →
     ∃ n, leafCount fuel "ROW_ROOT" rowMap = Done n ∧
          Page.rootSpan r = Some n) ∧
  (¬ (gi = 0 ∧ li = 0) → Page.rootSpan r = None) ∧
  (∀ gc, Page.groupCell r = Some gc →
     Page.groupId gc = id group ∧
     leafCount fuel (id group) rowMap = Done (Page.span gc)).
Proof.
  unfold Page.bodyRow.
  destruct (decide (gi = 0 ∧ li = 0)) as [H00|H00].
  - destruct (leafCount fuel "ROW_ROOT" rowMap) as [n| |];
      cbn -[leafCount Page.dataMap]; [|done..].
    destruct (decide (li = 0)) as [_|?]; [|lia].
    destruct (leafCount fuel (id group) rowMap) as [m| |];
      cbn -[leafCount Page.dataMap]; [|done..].
    destruct (Page.leafHeader rowMap leaf) as [lf| |];
      cbn -[leafCount Page.dataMap]; [|done..].
    intros [= <-]. cbn. split_and!; [by eexists|done|].
    by intros gc [= <-].
  - cbn -[leafCount Page.dataMap].
    destruct (decide (li = 0)) as [_|?].
    + destruct (leafCount fuel (id group) rowMap) as [m| |];
        cbn -[leafCount Page.dataMap]; [|done..].
      destruct (Page.leafHeader rowMap leaf) as [lf| |];
        cbn -[leafCount Page.dataMap]; [|done..].
      intros [= <-]. cbn. split_and!; [done|done|]. by intros gc [= <-].
    + cbn -[leafCount Page.dataMap].
      destruct (Page.leafHeader rowMap leaf) as [lf| |];
        cbn -[leafCount Page.dataMap]; [|done..].
      intros [= <-]. cbn. by split_and!.
Qed.

(** One body row per child of each group, against the leaves below the
    groups. *)
Lemma body_count fuel fuel' rowMap colLeaves i gids body l :
  (∀ gid, gid ∈ gids →
     ∃ group, rowMap !! gid = Some group ∧ children group ≠ [] ∧
       ∀ leaf, leaf ∈ children group →
         ∃ lb, rowMap !! leaf = Some lb ∧ children lb = []) →
  mapIndexed (λ gi gid, group ←o getBang rowMap gid;
                mapIndexed (Page.bodyRow fuel rowMap colLeaves gi group) 0
                           (children group)) i gids = Done body →
  flatMap (λ gid, flattenLeaves fuel' gid rowMap) gids = Done l →
  length (concat body) = length l.
Proof.
  revert i body l. induction gids as [|gid gids IH]; intros i body l Hall.
  - cbn. by intros [= <-] [= <-].
  - intros (rows & body' & -> & Hrows & Hrest)%mapIndexed_cons_inv.
    cbn [flatMap].
    destruct (flattenLeaves fuel' gid rowMap) as [x| |] eqn:Hx;
      cbn [obind]; [|done..].
    destruct (flatMap _ gids) as [r| |] eqn:Hr; cbn [obind]; [|done..].
    intros [= <-].
    destruct (Hall gid) as (group & Hg & Hne & Hleaves); [by left|].
    rewrite (proj2 (getBang_Done rowMap _ _) Hg) in Hrows. cbn [obind] in Hrows.
    apply mapIndexed_length in Hrows.
    rewrite (flatten_one_level _ _ _ _ _ Hg Hne Hleaves Hx).
    cbn [concat]. rewrite !length_app, Hrows. f_equal.
    eapply IH; [|done..]. intros; apply Hall; by right.
Qed.

(** X20.  On a two-level row tree the spans fit the body: the first row carries
    the root header, whose [rowSpan] is the number of body rows, no other
    row carries one, and every group header's [rowSpan] is the number of
    children of its group. *)
Theorem render_rows_align (fuel : nat) (st : Page.State) (t : Page.Table)
    (rowRoot : Block) :
  Page.render fuel st = Done t →
  buildMap (Page.rowBlocks st) !! "ROW_ROOT" = Some rowRoot →
  twoLevel (buildMap (Page.rowBlocks st)) rowRoot →
  (∃ first rest,
     Page.bodyRows t = first :: rest ∧
     Page.rootSpan first = Some (length (Page.bodyRows t)) ∧
     Forall (λ r, Page.rootSpan r = None) rest) ∧
  Forall (λ r, ∀ gc, Page.groupCell r = Some gc →
            ∃ group, buildMap (Page.rowBlocks st) !! Page.groupId gc = Some group ∧
                     Page.span gc = length (children group))
         (Page.bodyRows t).
Proof.
  unfold Page.render. cbn zeta.
  set (rowMap := buildMap (Page.rowBlocks st)).
  set (colMap := buildMap (Page.colBlocks st)).
  intros Hrender Hroot [Hgroups Htwo].
  rewrite (proj2 (getBang_Done rowMap _ _) Hroot) in Hrender.
  cbn [obind] in Hrender.
  destruct (getBang colMap "COL_ROOT") as [colRoot| |];
    cbn [obind] in Hrender; [|done..].
  destruct (flattenLeaves fuel "COL_ROOT" colMap) as [colLeaves| |];
    cbn [obind] in Hrender; [|done..].
  destruct (mapIndexed (λ _ cid, Page.groupHeader fuel colMap cid) 0
              (children colRoot)) as [groups| |];
    cbn [obind] in Hrender; [|done..].
  destruct (mapIndexed (λ _ cid, Page.leafHeader colMap cid) 0 colLeaves)
    as [leaves| |]; cbn [obind] in Hrender; [|done..].
  destruct (mapIndexed
              (λ gi gid, group ←o getBang rowMap gid;
                 mapIndexed (Page.bodyRow fuel rowMap colLeaves gi group) 0
                            (children group)) 0 (children rowRoot))
    as [body| |] eqn:Hbody; cbn [obind] in Hrender; [|done..].
  injection Hrender as <-. cbn [Page.bodyRows].
  assert (∀ k b, rowMap !! k = Some b → id b = k) as Hkey
    by (intros k b; apply buildMap_lookup_id).
  (* the group headers *)
  assert (Forall (λ r, ∀ gc, Page.groupCell r = Some gc →
            ∃ group, rowMap !! Page.groupId gc = Some group ∧
                     Page.span gc = length (children group))
                 (concat body)) as Hspans.
  { apply Forall_forall. intros r (rows & Hr & Hrows)%elem_of_concat gc Hgc.
    destruct (mapIndexed_elem _ _ _ _ _ Hbody Hrows) as (gi & gid & Hgid & Hg).
    destruct (Htwo gid Hgid) as (group & Hgroup & Hne & Hleaves).
    rewrite (proj2 (getBang_Done rowMap _ _) Hgroup) in Hg. cbn [obind] in Hg.
    destruct (mapIndexed_elem _ _ _ _ _ Hg Hr) as (li & leaf & _ & Hrow).
    destruct (bodyRow_inv _ _ _ _ _ _ _ _ Hrow) as (_ & _ & Hcell).
    destruct (Hcell gc Hgc) as [Hid Hcount].
    rewrite (Hkey _ _ Hgroup) in Hid, Hcount.
    exists group. rewrite Hid. split; [done|].
    rewrite leafCount_as_length in Hcount.
    apply omap_Done in Hcount as (l & Hl & ->).
    by rewrite (flatten_one_level _ _ _ _ _ Hgroup Hne Hleaves Hl). }
  split; [|done].
  (* the root header *)
  destruct (children rowRoot) as [|g0 gs] eqn:Hch; [done|].
  pose proof Hbody as Hbody0.
  apply mapIndexed_cons_inv in Hbody as (rows0 & body' & -> & Hrows0 & Hrest).
  destruct (Htwo g0) as (group0 & Hgroup0 & Hne0 & Hleaves0); [by left|].
  rewrite (proj2 (getBang_Done rowMap _ _) Hgroup0) in Hrows0.
  cbn [obind] in Hrows0.
  destruct (children group0) as [|leaf0 leaves0] eqn:Hch0; [done|].
  apply mapIndexed_cons_inv in Hrows0 as (r0 & rest0 & -> & Hr0 & Hrest0).
  destruct (bodyRow_inv _ _ _ _ _ _ _ _ Hr0) as (Hspan & _ & _).
  destruct Hspan as (n & Hn & Hrs); [done|].
  exists r0, (rest0 ++ concat body'). split_and!; [done| |].
  - rewrite Hrs. f_equal.
    rewrite leafCount_as_length in Hn.
    apply omap_Done in Hn as (l & Hl & ->).
    destruct fuel as [|fuel]; [done|]. cbn [flattenLeaves] in Hl.
    rewrite Hroot, Hch in Hl. cbn [length] in Hl.
    rewrite decide_False in Hl by done.
    symmetry. eapply (body_count (S fuel) fuel); [|exact Hbody0|exact Hl].
    intros gid Hgid. by apply Htwo.
  - apply Forall_app. split.
    + apply Forall_forall. intros r Hr.
      destruct (mapIndexed_elem_ge _ _ _ _ _ Hrest0 Hr)
        as (li & leaf & Hli & _ & Hrow).
      destruct (bodyRow_inv _ _ _ _ _ _ _ _ Hrow) as (_ & Hnone & _).
      apply Hnone. lia.
    + apply Forall_forall. intros r (rows & Hr & Hrows)%elem_of_concat.
      destruct (mapIndexed_elem_ge _ _ _ _ _ Hrest Hrows)
        as (gi & gid & Hgi & _ & Hg).
      destruct (getBang rowMap gid) as [group| |]; cbn [obind] in Hg;
        [|done..].
      destruct (mapIndexed_elem _ _ _ _ _ Hg Hr) as (li & leaf & _ & Hrow).
      destruct (bodyRow_inv _ _ _ _ _ _ _ _ Hrow) as (_ & Hnone & _).
      apply Hnone. lia.
Qed.

Lemma pageInitial_twoLevel :
  twoLevel (buildMap (Page.rowBlocks Page.initial))
    (mkBlock "ROW_ROOT" "RowRoot" None ["ROW_A"; "ROW_B"]).
Proof.
  split; [done|]. cbn [children].
  intros gid [->|[->|[]%elem_of_nil]%elem_of_cons]%elem_of_cons.
  - eexists. split; [vm_compute; reflexivity|]. split; [done|]. cbn [children].
    intros leaf [->|[->|[]%elem_of_nil]%elem_of_cons]%elem_of_cons;
      eexists; (split; [vm_compute; reflexivity|done]).
  - eexists. split; [vm_compute; reflexivity|]. split; [done|]. cbn [children].
    intros leaf [->|[->|[]%elem_of_nil]%elem_of_cons]%elem_of_cons;
      eexists; (split; [vm_compute; reflexivity|done]).
Qed.

Lemma render_rows_align_witness :
  ∃ t, Page.render 3 Page.initial = Done t ∧
  (∃ first rest,
     Page.bodyRows t = first :: rest ∧
     Page.rootSpan first = Some (length (Page.bodyRows t)) ∧
     Forall (λ r, Page.rootSpan r = None) rest) ∧
  Forall (λ r, ∀ gc, Page.groupCell r = Some gc →
            ∃ group, buildMap (Page.rowBlocks Page.initial) !! Page.groupId gc
                     = Some group ∧
                     Page.span gc = length (children group))
         (Page.bodyRows t).
Proof.
  eexists. split; [vm_compute; reflexivity|].
  apply (render_rows_align 3 Page.initial _
           (mkBlock "ROW_ROOT" "RowRoot" None ["ROW_A"; "ROW_B"])).
  - vm_compute. reflexivity.
  - vm_compute. reflexivity.
  - exact pageInitial_twoLevel.
Defined.

(** A third level breaks the fit: the body walks two levels only, the span
    counts all leaves.  Here one body row sits under a root header of span
    two. *)
Example three_levels_misalign :
  let rows := [ mkBlock "ROW_ROOT" "RowRoot" None ["G"];
                mkBlock "G" "g" (Some "ROW_ROOT") ["S"];
                mkBlock "S" "s" (Some "G") ["L1"; "L2"];
                mkBlock "L1" "l1" (Some "S") [];
                mkBlock "L2" "l2" (Some "S") [] ] in
  ∃ t, Page.render 4 (Page.mkState rows Page.initialColBlocks) = Done t ∧
       length (Page.bodyRows t) = 1 ∧
       Page.rootSpan <$> Page.bodyRows t = [Some 2].
Proof. eexists. split; [vm_compute; reflexivity|]. by split. Qed.

(** ** The cells after any drags *)

Lemma same_lookup blocks' blocks k b :
  sameBlocks blocks' blocks → NoDup (id <$> blocks) →
  buildMap blocks' !! k = Some b →
  ∃ x, findBlock k blocks = Some x ∧ children b ≡ₚ children x.
Proof.
  intros Hsame Hnd Hb.
  apply buildMap_lookup_Some in Hb as [Hin Hid];
    [|by rewrite (sameBlocks_ids _ _ Hsame)].
  apply list_elem_of_lookup in Hin as [i Hi].
  destruct (Forall2_lookup_l _ _ _ _ _ Hsame Hi) as (x & Hx & Hxid & _ & _ & Hc).
  exists x. split; [|done].
  rewrite <-Hid, Hxid. apply findBlock_unique; [done|].
  by eapply list_elem_of_lookup_2.
Qed.

Lemma bodyRow_cells fuel rowMap colLeaves gi group li leaf r :
  Page.bodyRow fuel rowMap colLeaves gi group li leaf = Done r →
  Page.leafId (Page.leafCell r) = leaf ∧
  Page.cells r = (λ cid, Page.dataMap !! Page.cellKey leaf cid) <$> colLeaves.
Proof.
  unfold Page.bodyRow, Page.leafHeader.
  destruct (if decide (gi = 0 ∧ li = 0) then _ else _) as [?| |];
    cbn -[Page.dataMap]; [|done..].
  destruct (if decide (li = 0) then _ else _) as [?| |];
    cbn -[Page.dataMap]; [|done..].
  destruct (getBang rowMap leaf) as [?| |]; cbn -[Page.dataMap]; [|done..].
  by intros [= <-].
Qed.

Lemma dataMap_defined r c :
  r ∈ ["ROW_A1"; "ROW_A2"; "ROW_B1"; "ROW_B2"] →
  c ∈ ["X1"; "X2"; "Y1"; "Y2"] →
  Page.dataMap !! Page.cellKey r c = Some (Page.cellKey r c).
Proof.
  intros Hr Hc.
  repeat (apply elem_of_cons in Hr as [->|Hr]);
    [..|by apply elem_of_nil in Hr];
    repeat (apply elem_of_cons in Hc as [->|Hc]);
    try (by apply elem_of_nil in Hc); vm_compute; reflexivity.
Qed.

Section page_cells.
Variable arrayMove : list string → Z → Z → list string.
Hypothesis arrayMove_moves :
  ∀ (l : list string) (i j : nat),
    i < length l → j < length l →
    arrayMove l (Z.of_nat i) (Z.of_nat j) = moveItem i j l.

(** X21.  After any sequence of drags from the page's initial state the table
    renders, and every body cell shows the mock value of its row leaf and
    column leaf: no cell is left undefined. *)
Theorem cells_after_drags (es : list Page.DragEndEvent) :
  ∃ st' fuel0 t,
    Page.drags arrayMove es Page.initial = Done st' ∧
    (∀ fuel, fuel0 ≤ fuel → Page.render fuel st' = Done t) ∧
    Forall (λ row,
              Page.cells row
              = (λ c, Some (Page.cellKey (Page.leafId (Page.leafCell row))
                                         (Page.leafId c)))
                <$> Page.leafRow t)
           (Page.bodyRows t).
Proof.
  destruct pageInitial_forest as [Hrows0 Hcols0].
  destruct (drags_invariant arrayMove _
              (forests_step arrayMove arrayMove_moves Page.initial)
              es Page.initial)
    as (st' & Hrun & Hr' & Hc' & Hsr & Hsc).
  { split_and!; [done..|apply sameBlocks_refl|apply sameBlocks_refl]. }
  destruct (render_total st' Hr' Hc') as (fuel0 & t & Ht).
  { rewrite (sameBlocks_ids _ _ Hsr). cbn. left. }
  { rewrite (sameBlocks_ids _ _ Hsc). cbn. left. }
  exists st', fuel0, t. split_and!; [done..|].
  specialize (Ht fuel0 (le_n _)). revert Ht.
  unfold Page.render. cbn zeta.
  set (rowMap := buildMap (Page.rowBlocks st')).
  set (colMap := buildMap (Page.colBlocks st')).
  destruct (getBang rowMap "ROW_ROOT") as [rowRoot| |] eqn:Hroot;
    cbn [obind]; [|done..].
  destruct (getBang colMap "COL_ROOT") as [colRoot| |]; cbn [obind]; [|done..].
  destruct (flattenLeaves fuel0 "COL_ROOT" colMap) as [colLeaves| |] eqn:Hfl;
    cbn [obind]; [|done..].
  destruct (mapIndexed (λ _ cid, Page.groupHeader fuel0 colMap cid) 0
              (children colRoot)) as [groups| |]; cbn [obind]; [|done..].
  destruct (mapIndexed (λ _ cid, Page.leafHeader colMap cid) 0 colLeaves)
    as [leaves| |] eqn:Hleaves; cbn [obind]; [|done..].
  destruct (mapIndexed
              (λ gi gid, group ←o getBang rowMap gid;
                 mapIndexed (Page.bodyRow fuel0 rowMap colLeaves gi group) 0
                            (children group)) 0 (children rowRoot))
    as [body| |] eqn:Hbody; cbn [obind]; [|done..].
  intros [= <-]. cbn [Page.bodyRows Page.leafRow].
  pose proof (leafHeaders_ids _ _ _ _ Hleaves) as Hlids.
  assert (NoDup (id <$> Page.initialRowBlocks)) as Hndr
    by apply (forest_ids _ Hrows0).
  assert (NoDup (id <$> Page.initialColBlocks)) as Hndc
    by apply (forest_ids _ Hcols0).
  (* the column leaves are the four of the mock data *)
  assert (∀ cid, cid ∈ colLeaves → cid ∈ ["X1"; "X2"; "Y1"; "Y2"]) as Hcols.
  { intros cid Hcid.
    apply (flattenLeaves_holds_leaves_aux _ _ _ _ Hfl) in Hcid
      as [_ (b & Hb & Hnil)].
    destruct (same_lookup _ _ _ _ Hsc Hndc Hb) as (x & Hx & Hperm).
    rewrite Hnil in Hperm. apply Permutation_nil_l in Hperm.
    apply findBlock_Some in Hx as [<- Hx]. cbn in Hx.
    repeat (apply elem_of_cons in Hx as [->|Hx]);
      [done|done|done|cbn..|by apply elem_of_nil in Hx].
    - left.
    - right. left.
    - do 2 right. left.
    - do 3 right. left. }
  (* the row leaves are the four of the mock data *)
  assert (∀ gid leaf group, gid ∈ children rowRoot →
            rowMap !! gid = Some group → leaf ∈ children group →
            leaf ∈ ["ROW_A1"; "ROW_A2"; "ROW_B1"; "ROW_B2"]) as Hrowleaves.
  { intros gid leaf group Hgid Hgroup Hleaf.
    apply getBang_Done in Hroot.
    destruct (same_lookup _ _ _ _ Hsr Hndr Hroot) as (x & Hx & Hperm).
    injection Hx as <-. rewrite Hperm in Hgid. cbn in Hgid.
    apply elem_of_cons in Hgid as [->|Hgid];
      [|apply elem_of_cons in Hgid as [->|Hgid];
        [|by apply elem_of_nil in Hgid]].
    - destruct (same_lookup _ _ _ _ Hsr Hndr Hgroup) as (y & Hy & Hpermg).
      injection Hy as <-. rewrite Hpermg in Hleaf. cbn in Hleaf.
      apply elem_of_cons in Hleaf as [->|Hleaf]; [left|].
      apply elem_of_cons in Hleaf as [->|Hleaf]; [right; left|].
      by apply elem_of_nil in Hleaf.
    - destruct (same_lookup _ _ _ _ Hsr Hndr Hgroup) as (y & Hy & Hpermg).
      injection Hy as <-. rewrite Hpermg in Hleaf. cbn in Hleaf.
      apply elem_of_cons in Hleaf as [->|Hleaf]; [do 2 right; left|].
      apply elem_of_cons in Hleaf as [->|Hleaf]; [do 3 right; left|].
      by apply elem_of_nil in Hleaf. }
  apply Forall_forall. intros row (rows & Hrow & Hrowsin)%elem_of_concat.
  destruct (mapIndexed_elem _ _ _ _ _ Hbody Hrowsin) as (gi & gid & Hgid & Hg).
  destruct (getBang rowMap gid) as [group| |] eqn:Hgroup; cbn [obind] in Hg;
    [|done..].
  apply getBang_Done in Hgroup.
  destruct (mapIndexed_elem _ _ _ _ _ Hg Hrow) as (li & leaf & Hleaf & Hr).
  destruct (bodyRow_cells _ _ _ _ _ _ _ _ Hr) as [-> ->].
  rewrite <-Hlids at 1. rewrite <-list_fmap_compose.
  apply list_fmap_ext. intros i c Hc. cbn.
  apply dataMap_defined.
  - by eapply Hrowleaves.
  - apply Hcols. rewrite <-Hlids.
    apply list_elem_of_fmap_2. by eapply list_elem_of_lookup_2.
Qed.
End page_cells.

Lemma cells_after_drags_witness :
  ∃ st' fuel0 t,
    Page.drags arrayMove_splice sampleDrags Page.initial = Done st' ∧
    (∀ fuel, fuel0 ≤ fuel → Page.render fuel st' = Done t) ∧
    Forall (λ row,
              Page.cells row
              = (λ c, Some (Page.cellKey (Page.leafId (Page.leafCell row))
                                         (Page.leafId c)))
                <$> Page.leafRow t)
           (Page.bodyRows t).
Proof.
  exact (cells_after_drags arrayMove_splice
           (λ l i j, arrayMove_splice_moveItem l i j) sampleDrags).
Defined.

(** ** Further instances *)

Lemma getters_last_wins_witness :
  let b := mkBlock "ROW_A" "Row-A" (Some "ROW_ROOT") ["ROW_A1"; "ROW_A2"] in
  getRowMap initialState !! "ROW_A" = Some b ∧ id b = "ROW_A".
Proof.
  assert (getRowMap initialState !! "ROW_A"
          = Some (mkBlock "ROW_A" "Row-A" (Some "ROW_ROOT")
                    ["ROW_A1"; "ROW_A2"])) as Hget
    by (vm_compute; reflexivity).
  split; [exact Hget|].
  exact (proj1 (proj2 (proj2 (getters_last_wins initialState "ROW_A")))
           _ (or_introl Hget)).
Defined.

Lemma removeBlocks_subtree_witness :
  let b := mkBlock "ROW_A" "Row-A" (Some "ROW_ROOT") ["ROW_A1"; "ROW_A2"] in
  let blocks := rowBlocks initialState in
  ∃ fuel0 blocks',
    (∀ fuel, fuel0 ≤ fuel → removeBlocks fuel "ROW_A" blocks = Done blocks') ∧
    (id <$> blocks') `sublist_of` (id <$> blocks) ∧
    (∀ x, x ∈ id <$> blocks' ↔ x ∈ id <$> blocks ∧ ¬ reach blocks "ROW_A" x) ∧
    (∀ x', x' ∈ blocks' →
       ("ROW_A" ∉ children x') ∧
       ∃ x, x ∈ blocks ∧ related (λ c, c ≠ "ROW_A") x' x) ∧
    (∀ pid, parentId b = Some pid → is_Some (findBlock pid blocks')).
Proof.
  apply (removeBlocks_subtree (rowBlocks initialState) "ROW_A" 1
           (mkBlock "ROW_A" "Row-A" (Some "ROW_ROOT") ["ROW_A1"; "ROW_A2"])).
  - apply initialState_forest.
  - reflexivity.
  - discriminate.
Defined.

Lemma addBlocks_removeBlocks_witness :
  let n := mkBlock "Y2" "y2" (Some "COL_Y") [] in
  removeBlocks 1 (id n) (addBlocks "COL_Y" n (columnBlocks initialState))
  = Done (columnBlocks initialState).
Proof.
  apply (addBlocks_removeBlocks (columnBlocks initialState) "COL_Y"
           (mkBlock "Y2" "y2" (Some "COL_Y") []) 1).
  - apply initialState_forest.
  - vm_compute. eexists. reflexivity.
  - split_and!; [|reflexivity..]. vm_compute.
    intros Hin. repeat (apply elem_of_cons in Hin as [Heq|Hin]; [done|]).
    by apply elem_of_nil in Hin.
  - discriminate.
  - lia.
Defined.

(** X11.  Step 1 of [removeBlock] outside the invariant: when the node names a
    parent (by a non-empty identifier) that is found but does not list the
    node, the parent loses its last child, whichever it is. *)
Theorem detach_unlisted (bid pid : string) (block : Block)
    (blocks : list Block) (i : nat) (p : Block) :
  parentId block = Some pid → pid ≠ "" →
  findIndex pid blocks = Some (i, p) → bid ∉ children p →
  detach bid block blocks
  = <[i := setChildren p (take (length (children p) - 1) (children p))]>
      blocks.
Proof.
  intros Hpar Hne Hfind Hout. unfold detach.
  rewrite Hpar, truthy_Some, Hfind by done. cbn zeta.
  by rewrite (indexOf_not_elem _ _ Hout), splice_minus_one.
Qed.

Lemma detach_unlisted_witness :
  let orphan := mkBlock "O" "o" (Some "P") [] in
  let p := mkBlock "P" "p" None ["A"; "B"] in
  detach "O" orphan [p; orphan]
  = <[0 := setChildren p (take (length (children p) - 1) (children p))]>
      [p; orphan].
Proof.
  apply (detach_unlisted "O" "P" (mkBlock "O" "o" (Some "P") [])
           [mkBlock "P" "p" None ["A"; "B"]; mkBlock "O" "o" (Some "P") []]
           0 (mkBlock "P" "p" None ["A"; "B"])).
  - reflexivity.
  - discriminate.
  - reflexivity.
  - cbn. intros Hin.
    repeat (apply elem_of_cons in Hin as [Heq|Hin]; [done|]).
    by apply elem_of_nil in Hin.
Defined.
